(** * zsync (TypeScript port): a shallow embedding and its properties

    The development follows the layout of the sources:
    - [Js]        the fragment of JavaScript number and array semantics the code relies on;
    - [Digest]    MD4 (RFC 1320) and SHA-1 (RFC 3174), the two external digests;
    - [Internal]  zsync/internal.ts (the state record, [calc_rhash], [get_HE_blockid]);
    - [Range]     zsync/range.ts    (known block ranges);
    - [Hash]      zsync/hash.ts     (weak-sum index);
    - [Rsum]      zsync/rsum.ts     (rolling matcher, block submission);
    - [State]     zsync/state.ts    (construction of the state);
    - [Stdio]     stdio.ts          (the one file read the code uses);
    - [Zsync]     zsync/zsync.ts    (control file, receiver, completion);
    - [Client]    zsync/client.ts   (remote fetch driver);
    - [Scenario]  a small concrete session on which the functions are run;
    - [RangeView], [IndexView], [Scan], [ScanFile], [TableView], [Names]
      further functions of rsum.ts and client.ts and the vocabulary of the
      later properties.

    The properties follow in [DigestFacts], [RangeFacts], [HashFacts],
    [RsumFacts], [SessionFacts], [ZsyncFacts] and [ClientFacts], and, for the
    functions around them, in the modules from [RangeQueryFacts] on.

    Numbers are [Z]; where the source applies a 32-bit operator the wrap-around
    is written out.  Bytes are [Z] values in [0, 256).  Objects that the source
    shares by reference (hash entries) are addressed by their index in the
    stationary [blockhashes] array. *)

From Stdlib Require Import ZArith QArith Qround Lia Lqa Bool Sorted.
From stdpp Require Import base list strings gmap.

Local Open Scope Z_scope.

(** ** JavaScript numbers and arrays *)
Module Js.

Definition to_int32 (v : Z) : Z := (v + 2^31) mod 2^32 - 2^31.
Definition to_uint32 (v : Z) : Z := v mod 2^32.

(** [a << b], [a >> b], [a >>> b], [a & b], [a | b], [a ^ b]. *)
Definition shl (a b : Z) : Z := to_int32 (Z.shiftl (to_int32 a) (to_uint32 b mod 32)).
Definition shr (a b : Z) : Z := Z.shiftr (to_int32 a) (to_uint32 b mod 32).
Definition ushr (a b : Z) : Z := Z.shiftr (to_uint32 a) (to_uint32 b mod 32).
Definition and (a b : Z) : Z := Z.land (to_int32 a) (to_int32 b).
Definition or (a b : Z) : Z := Z.lor (to_int32 a) (to_int32 b).
Definition xor (a b : Z) : Z := Z.lxor (to_int32 a) (to_int32 b).

(** [arr[i]]: [None] stands for [undefined] (negative or past the end). *)
Definition get {A} (l : list A) (i : Z) : option A :=
  if i <? 0 then None else l !! Z.to_nat i.

(** Comparisons of a number with a possibly undefined array element; every
    comparison with [undefined] is false, and [!==] is true. *)
Definition gt (x : Z) (o : option Z) : bool :=
  match o with Some v => v <? x | None => false end.
Definition lt (x : Z) (o : option Z) : bool :=
  match o with Some v => x <? v | None => false end.
Definition eq3 (o : option Z) (x : Z) : bool :=
  match o with Some v => v =? x | None => false end.

(** [arr[i] = v] for [i] inside the array or exactly at its end (where the
    array grows by one).  Writes further out would leave holes; the sources
    modelled here never perform them, and the model leaves the array as is. *)
Definition set {A} (l : list A) (i : Z) (v : A) : list A :=
  if i <? 0 then l
  else if i =? Z.of_nat (length l) then l ++ [v]
  else <[Z.to_nat i := v]> l.

(** [arr[i] = v] on a typed array: a store outside the array is ignored. *)
Definition put {A} (l : list A) (i : Z) (v : A) : list A :=
  if i <? 0 then l else <[Z.to_nat i := v]> l.

(** Relative index of [subarray]/[fill]: negative counts from the end, and
    the result is clamped to the array. *)
Definition rel_index (len k : Z) : Z :=
  if k <? 0 then Z.max (len + k) 0 else Z.min k len.

(** [arr.subarray(b, e)] and [arr.subarray(b)]. *)
Definition subarray {A} (l : list A) (b e : Z) : list A :=
  let len := Z.of_nat (length l) in
  let b' := rel_index len b in
  let e' := rel_index len e in
  take (Z.to_nat (e' - b')) (drop (Z.to_nat b') l).
Definition subarray_from {A} (l : list A) (b : Z) : list A :=
  drop (Z.to_nat (rel_index (Z.of_nat (length l)) b)) l.

(** [dst.set(src, at)] for typed arrays: throws ([None]) when [src] does not
    fit. *)
Definition typed_set {A} (dst src : list A) (at_ : Z) : option (list A) :=
  if (at_ <? 0) || (Z.of_nat (length dst) <? at_ + Z.of_nat (length src)) then None
  else Some (take (Z.to_nat at_) dst ++ src ++ drop (Z.to_nat at_ + length src) dst).

(** [arr.splice(start, del, ...items)]. *)
Definition splice {A} (l : list A) (start del : Z) (items : list A) : list A :=
  let len := Z.of_nat (length l) in
  let s := rel_index len start in
  let d := Z.min (Z.max del 0) (len - s) in
  take (Z.to_nat s) l ++ items ++ drop (Z.to_nat (s + d)) l.

(** [arr.fill(v, b, e)]. *)
Definition fill (l : list Z) (v b e : Z) : list Z :=
  let len := Z.of_nat (length l) in
  let b' := rel_index len b in
  let e' := rel_index len e in
  take (Z.to_nat b') l ++ replicate (Z.to_nat (e' - b')) v
    ++ drop (Z.to_nat b' + Z.to_nat (e' - b')) l.

End Js.

(** ** The digests

    MD4 comes from the [js-md4] package and SHA-1 from Node's [crypto]; both
    are outside the repository and are transcribed from their RFCs.  The
    examples below are the RFC test vectors. *)
Module Digest.

Definition w32 (v : Z) : Z := v mod 2^32.
Definition rotl (v s : Z) : Z := w32 (Z.lor (Z.shiftl v s) (Z.shiftr v (32 - s))).

Fixpoint le_bytes (n : nat) (v : Z) : list Z :=
  match n with
  | O => []
  | S n' => v mod 256 :: le_bytes n' (v / 256)
  end.
Definition be_bytes (n : nat) (v : Z) : list Z := reverse (le_bytes n v).

Definition le_word (bs : list Z) : Z := foldr (λ b acc, b + 256 * acc) 0 bs.
Definition be_word (bs : list Z) : Z := foldl (λ acc b, 256 * acc + b) 0 bs.

(** Message followed by 0x80, zeros up to 56 mod 64, and the bit length on
    eight bytes rendered by [enc]. *)
Definition pad (enc : nat → Z → list Z) (msg : list Z) : list Z :=
  let n := Z.of_nat (length msg) in
  msg ++ [128] ++ replicate (Z.to_nat ((55 - n) mod 64)) 0 ++ enc 8%nat (8 * n).

Fixpoint chunks {A} (fuel : nat) (k : nat) (l : list A) : list (list A) :=
  match fuel with
  | O => []
  | S fuel' => match l with
               | [] => []
               | _ => take k l :: chunks fuel' k (drop k l)
               end
  end.
Definition chunked {A} (k : nat) (l : list A) : list (list A) := chunks (length l) k l.

Definition md4_F (x y z : Z) : Z := Z.lor (Z.land x y) (Z.land (Z.lxor x (2^32 - 1)) z).
Definition md4_G (x y z : Z) : Z := Z.lor (Z.lor (Z.land x y) (Z.land x z)) (Z.land y z).
Definition md4_H (x y z : Z) : Z := Z.lxor (Z.lxor x y) z.

Definition quad : Type := Z * Z * Z * Z.

(** One MD4 operation [a = (a + f(b,c,d) + X[k] + c0) <<< s], followed by the
    rotation of the register roles. *)
Definition md4_op (f : Z → Z → Z → Z) (c0 : Z) (X : list Z) (st : quad) (ks : nat * Z) : quad :=
  let '(a, b, c, d) := st in
  let a' := rotl (w32 (a + f b c d + X !!! ks.1 + c0)) ks.2 in
  (d, a', b, c).

Definition md4_round (f : Z → Z → Z → Z) (c0 : Z) (order : list nat) (shifts : list Z)
    (X : list Z) (st : quad) : quad :=
  foldl (md4_op f c0 X) st
        (zip order (shifts ++ shifts ++ shifts ++ shifts)).

Definition md4_block (st : quad) (blk : list Z) : quad :=
  let X := le_word <$> chunked 4 blk in
  let '(a0, b0, c0, d0) := st in
  let s1 := md4_round md4_F 0 [0;1;2;3;4;5;6;7;8;9;10;11;12;13;14;15]%nat [3;7;11;19] X st in
  let s2 := md4_round md4_G 0x5a827999 [0;4;8;12;1;5;9;13;2;6;10;14;3;7;11;15]%nat [3;5;9;13] X s1 in
  let '(a, b, c, d) :=
    md4_round md4_H 0x6ed9eba1 [0;8;4;12;2;10;6;14;1;9;5;13;3;11;7;15]%nat [3;9;11;15] X s2 in
  (w32 (a0 + a), w32 (b0 + b), w32 (c0 + c), w32 (d0 + d)).

Definition md4 (msg : list Z) : list Z :=
  let '(a, b, c, d) :=
    foldl md4_block (0x67452301, 0xefcdab89, 0x98badcfe, 0x10325476)
          (chunked 64 (pad le_bytes msg)) in
  le_bytes 4 a ++ le_bytes 4 b ++ le_bytes 4 c ++ le_bytes 4 d.

Definition sha1_f (t : Z) (b c d : Z) : Z :=
  if t <? 20 then Z.lor (Z.land b c) (Z.land (Z.lxor b (2^32 - 1)) d)
  else if t <? 40 then Z.lxor (Z.lxor b c) d
  else if t <? 60 then Z.lor (Z.lor (Z.land b c) (Z.land b d)) (Z.land c d)
  else Z.lxor (Z.lxor b c) d.
Definition sha1_k (t : Z) : Z :=
  if t <? 20 then 0x5a827999 else if t <? 40 then 0x6ed9eba1
  else if t <? 60 then 0x8f1bbcdc else 0xca62c1d6.

Definition quint : Type := Z * Z * Z * Z * Z.

(** [w] is the sliding window W[t] .. W[t+15] of the message schedule. *)
Fixpoint sha1_rounds (n : nat) (t : Z) (w : list Z) (st : quint) : quint :=
  match n with
  | O => st
  | S n' =>
      let '(a, b, c, d, e) := st in
      let tmp := w32 (rotl a 5 + sha1_f t b c d + e + sha1_k t + w !!! 0%nat) in
      let nw := rotl (Z.lxor (Z.lxor (w !!! 13%nat) (w !!! 8%nat))
                             (Z.lxor (w !!! 2%nat) (w !!! 0%nat))) 1 in
      sha1_rounds n' (t + 1) (drop 1 w ++ [nw]) (tmp, a, rotl b 30, c, d)
  end.

Definition sha1_block (st : quint) (blk : list Z) : quint :=
  let '(h0, h1, h2, h3, h4) := st in
  let '(a, b, c, d, e) := sha1_rounds 80 0 (be_word <$> chunked 4 blk) st in
  (w32 (h0 + a), w32 (h1 + b), w32 (h2 + c), w32 (h3 + d), w32 (h4 + e)).

Definition sha1 (msg : list Z) : list Z :=
  let '(a, b, c, d, e) :=
    foldl sha1_block (0x67452301, 0xefcdab89, 0x98badcfe, 0x10325476, 0xc3d2e1f0)
          (chunked 64 (pad be_bytes msg)) in
  be_bytes 4 a ++ be_bytes 4 b ++ be_bytes 4 c ++ be_bytes 4 d ++ be_bytes 4 e.

Definition hex_digit (v : Z) : Ascii.ascii :=
  Ascii.ascii_of_N (Z.to_N (if v <? 10 then 48 + v else 87 + v)).

(** [digest("hex")]: two lower-case digits per byte. *)
Fixpoint hex (bs : list Z) : string :=
  match bs with
  | [] => EmptyString
  | b :: bs' => String (hex_digit (b / 16)) (String (hex_digit (b mod 16)) (hex bs'))
  end.

Definition ascii_bytes (s : string) : list Z :=
  (λ c, Z.of_N (Ascii.N_of_ascii c)) <$> String.list_ascii_of_string s.

End Digest.

(** ** Results of effectful code

    [Throw] is a JavaScript exception; [Diverge] marks a loop of the source
    that does not terminate (a cyclic hash chain); [Undef] marks a run that
    leaves the model: a read of an array element that does not exist where the
    source would go on computing with [undefined], a negative file position,
    a scratch file that is known under two names. *)
Inductive res (A : Type) : Type :=
  | Ok (v : A)
  | Throw (msg : string)
  | Diverge
  | Undef.
Arguments Ok {A} v.
Arguments Throw {A} msg.
Arguments Diverge {A}.
Arguments Undef {A}.

Definition num {A} (o : option A) : res A :=
  match o with Some v => Ok v | None => Undef end.

#[global] Instance res_bind : MBind res := λ A B k m,
  match m with
  | Ok v => k v
  | Throw msg => Throw msg
  | Diverge => Diverge
  | Undef => Undef
  end.
#[global] Instance res_ret : MRet res := λ A v, Ok v.

(** ** zsync/internal.ts: the state of the matcher *)
Module Internal.

Definition BITHASHBITS : Z := 3.

Record rsum := { a : Z; b : Z }.

(** [next] refers to another entry of [blockhashes], by index. *)
Record hash_entry := {
  next : option Z;
  r : rsum;
  checksum : option (list Z)
}.

Record stats_t := { hashhit : Z; weakhit : Z; stronghit : Z; checksummed : Z }.

(** [r0], [r1] are [z.r[0]], [z.r[1]].  [fd] is the open scratch file, given
    by its content; [rsum_hash] holds the bucket heads.  Fields that
    [rcksum_init] leaves unset start at 0 or null. *)
Record rcksum_state := {
  r0 : rsum;
  r1 : rsum;
  blocks : Z;
  blocksize : Z;
  blockshift : Z;
  rsum_a_mask : Z;
  rsum_bits : Z;
  checksum_bytes : Z;
  seq_matches : Z;
  context : Z;
  skip : Z;
  rover : option Z;
  next_match : option Z;
  next_known : Z;
  hashmask : Z;
  blockhashes : list hash_entry;
  rsum_hash : option (list (option Z));
  bithash : option (list Z);
  bithashmask : Z;
  numranges : Z;
  ranges : list Z;
  gotblocks : Z;
  stats : stats_t;
  filename : option string;
  fd : option (list Z)
}.

Definition set_r0 (v : rsum) (z : rcksum_state) : rcksum_state :=
  {| r0 := v; r1 := r1 z; blocks := blocks z; blocksize := blocksize z;
     blockshift := blockshift z; rsum_a_mask := rsum_a_mask z; rsum_bits := rsum_bits z;
     checksum_bytes := checksum_bytes z; seq_matches := seq_matches z; context := context z;
     skip := skip z; rover := rover z; next_match := next_match z; next_known := next_known z;
     hashmask := hashmask z; blockhashes := blockhashes z; rsum_hash := rsum_hash z;
     bithash := bithash z; bithashmask := bithashmask z; numranges := numranges z;
     ranges := ranges z; gotblocks := gotblocks z; stats := stats z; filename := filename z;
     fd := fd z |}.
Definition set_r1 (v : rsum) (z : rcksum_state) : rcksum_state :=
  {| r0 := r0 z; r1 := v; blocks := blocks z; blocksize := blocksize z;
     blockshift := blockshift z; rsum_a_mask := rsum_a_mask z; rsum_bits := rsum_bits z;
     checksum_bytes := checksum_bytes z; seq_matches := seq_matches z; context := context z;
     skip := skip z; rover := rover z; next_match := next_match z; next_known := next_known z;
     hashmask := hashmask z; blockhashes := blockhashes z; rsum_hash := rsum_hash z;
     bithash := bithash z; bithashmask := bithashmask z; numranges := numranges z;
     ranges := ranges z; gotblocks := gotblocks z; stats := stats z; filename := filename z;
     fd := fd z |}.
Definition set_rover (v : option Z) (z : rcksum_state) : rcksum_state :=
  {| r0 := r0 z; r1 := r1 z; blocks := blocks z; blocksize := blocksize z;
     blockshift := blockshift z; rsum_a_mask := rsum_a_mask z; rsum_bits := rsum_bits z;
     checksum_bytes := checksum_bytes z; seq_matches := seq_matches z; context := context z;
     skip := skip z; rover := v; next_match := next_match z; next_known := next_known z;
     hashmask := hashmask z; blockhashes := blockhashes z; rsum_hash := rsum_hash z;
     bithash := bithash z; bithashmask := bithashmask z; numranges := numranges z;
     ranges := ranges z; gotblocks := gotblocks z; stats := stats z; filename := filename z;
     fd := fd z |}.
Definition set_next_match (v : option Z) (z : rcksum_state) : rcksum_state :=
  {| r0 := r0 z; r1 := r1 z; blocks := blocks z; blocksize := blocksize z;
     blockshift := blockshift z; rsum_a_mask := rsum_a_mask z; rsum_bits := rsum_bits z;
     checksum_bytes := checksum_bytes z; seq_matches := seq_matches z; context := context z;
     skip := skip z; rover := rover z; next_match := v; next_known := next_known z;
     hashmask := hashmask z; blockhashes := blockhashes z; rsum_hash := rsum_hash z;
     bithash := bithash z; bithashmask := bithashmask z; numranges := numranges z;
     ranges := ranges z; gotblocks := gotblocks z; stats := stats z; filename := filename z;
     fd := fd z |}.
Definition set_next_known (v : Z) (z : rcksum_state) : rcksum_state :=
  {| r0 := r0 z; r1 := r1 z; blocks := blocks z; blocksize := blocksize z;
     blockshift := blockshift z; rsum_a_mask := rsum_a_mask z; rsum_bits := rsum_bits z;
     checksum_bytes := checksum_bytes z; seq_matches := seq_matches z; context := context z;
     skip := skip z; rover := rover z; next_match := next_match z; next_known := v;
     hashmask := hashmask z; blockhashes := blockhashes z; rsum_hash := rsum_hash z;
     bithash := bithash z; bithashmask := bithashmask z; numranges := numranges z;
     ranges := ranges z; gotblocks := gotblocks z; stats := stats z; filename := filename z;
     fd := fd z |}.
Definition set_hashmask (v : Z) (z : rcksum_state) : rcksum_state :=
  {| r0 := r0 z; r1 := r1 z; blocks := blocks z; blocksize := blocksize z;
     blockshift := blockshift z; rsum_a_mask := rsum_a_mask z; rsum_bits := rsum_bits z;
     checksum_bytes := checksum_bytes z; seq_matches := seq_matches z; context := context z;
     skip := skip z; rover := rover z; next_match := next_match z; next_known := next_known z;
     hashmask := v; blockhashes := blockhashes z; rsum_hash := rsum_hash z; bithash := bithash z;
     bithashmask := bithashmask z; numranges := numranges z; ranges := ranges z;
     gotblocks := gotblocks z; stats := stats z; filename := filename z; fd := fd z |}.
Definition set_blockhashes (v : list hash_entry) (z : rcksum_state) : rcksum_state :=
  {| r0 := r0 z; r1 := r1 z; blocks := blocks z; blocksize := blocksize z;
     blockshift := blockshift z; rsum_a_mask := rsum_a_mask z; rsum_bits := rsum_bits z;
     checksum_bytes := checksum_bytes z; seq_matches := seq_matches z; context := context z;
     skip := skip z; rover := rover z; next_match := next_match z; next_known := next_known z;
     hashmask := hashmask z; blockhashes := v; rsum_hash := rsum_hash z; bithash := bithash z;
     bithashmask := bithashmask z; numranges := numranges z; ranges := ranges z;
     gotblocks := gotblocks z; stats := stats z; filename := filename z; fd := fd z |}.
Definition set_rsum_hash (v : option (list (option Z))) (z : rcksum_state) : rcksum_state :=
  {| r0 := r0 z; r1 := r1 z; blocks := blocks z; blocksize := blocksize z;
     blockshift := blockshift z; rsum_a_mask := rsum_a_mask z; rsum_bits := rsum_bits z;
     checksum_bytes := checksum_bytes z; seq_matches := seq_matches z; context := context z;
     skip := skip z; rover := rover z; next_match := next_match z; next_known := next_known z;
     hashmask := hashmask z; blockhashes := blockhashes z; rsum_hash := v; bithash := bithash z;
     bithashmask := bithashmask z; numranges := numranges z; ranges := ranges z;
     gotblocks := gotblocks z; stats := stats z; filename := filename z; fd := fd z |}.
Definition set_bithash (v : option (list Z)) (z : rcksum_state) : rcksum_state :=
  {| r0 := r0 z; r1 := r1 z; blocks := blocks z; blocksize := blocksize z;
     blockshift := blockshift z; rsum_a_mask := rsum_a_mask z; rsum_bits := rsum_bits z;
     checksum_bytes := checksum_bytes z; seq_matches := seq_matches z; context := context z;
     skip := skip z; rover := rover z; next_match := next_match z; next_known := next_known z;
     hashmask := hashmask z; blockhashes := blockhashes z; rsum_hash := rsum_hash z;
     bithash := v; bithashmask := bithashmask z; numranges := numranges z; ranges := ranges z;
     gotblocks := gotblocks z; stats := stats z; filename := filename z; fd := fd z |}.
Definition set_bithashmask (v : Z) (z : rcksum_state) : rcksum_state :=
  {| r0 := r0 z; r1 := r1 z; blocks := blocks z; blocksize := blocksize z;
     blockshift := blockshift z; rsum_a_mask := rsum_a_mask z; rsum_bits := rsum_bits z;
     checksum_bytes := checksum_bytes z; seq_matches := seq_matches z; context := context z;
     skip := skip z; rover := rover z; next_match := next_match z; next_known := next_known z;
     hashmask := hashmask z; blockhashes := blockhashes z; rsum_hash := rsum_hash z;
     bithash := bithash z; bithashmask := v; numranges := numranges z; ranges := ranges z;
     gotblocks := gotblocks z; stats := stats z; filename := filename z; fd := fd z |}.
Definition set_numranges (v : Z) (z : rcksum_state) : rcksum_state :=
  {| r0 := r0 z; r1 := r1 z; blocks := blocks z; blocksize := blocksize z;
     blockshift := blockshift z; rsum_a_mask := rsum_a_mask z; rsum_bits := rsum_bits z;
     checksum_bytes := checksum_bytes z; seq_matches := seq_matches z; context := context z;
     skip := skip z; rover := rover z; next_match := next_match z; next_known := next_known z;
     hashmask := hashmask z; blockhashes := blockhashes z; rsum_hash := rsum_hash z;
     bithash := bithash z; bithashmask := bithashmask z; numranges := v; ranges := ranges z;
     gotblocks := gotblocks z; stats := stats z; filename := filename z; fd := fd z |}.
Definition set_ranges (v : list Z) (z : rcksum_state) : rcksum_state :=
  {| r0 := r0 z; r1 := r1 z; blocks := blocks z; blocksize := blocksize z;
     blockshift := blockshift z; rsum_a_mask := rsum_a_mask z; rsum_bits := rsum_bits z;
     checksum_bytes := checksum_bytes z; seq_matches := seq_matches z; context := context z;
     skip := skip z; rover := rover z; next_match := next_match z; next_known := next_known z;
     hashmask := hashmask z; blockhashes := blockhashes z; rsum_hash := rsum_hash z;
     bithash := bithash z; bithashmask := bithashmask z; numranges := numranges z; ranges := v;
     gotblocks := gotblocks z; stats := stats z; filename := filename z; fd := fd z |}.
Definition set_gotblocks (v : Z) (z : rcksum_state) : rcksum_state :=
  {| r0 := r0 z; r1 := r1 z; blocks := blocks z; blocksize := blocksize z;
     blockshift := blockshift z; rsum_a_mask := rsum_a_mask z; rsum_bits := rsum_bits z;
     checksum_bytes := checksum_bytes z; seq_matches := seq_matches z; context := context z;
     skip := skip z; rover := rover z; next_match := next_match z; next_known := next_known z;
     hashmask := hashmask z; blockhashes := blockhashes z; rsum_hash := rsum_hash z;
     bithash := bithash z; bithashmask := bithashmask z; numranges := numranges z;
     ranges := ranges z; gotblocks := v; stats := stats z; filename := filename z; fd := fd z |}.
Definition set_stats (v : stats_t) (z : rcksum_state) : rcksum_state :=
  {| r0 := r0 z; r1 := r1 z; blocks := blocks z; blocksize := blocksize z;
     blockshift := blockshift z; rsum_a_mask := rsum_a_mask z; rsum_bits := rsum_bits z;
     checksum_bytes := checksum_bytes z; seq_matches := seq_matches z; context := context z;
     skip := skip z; rover := rover z; next_match := next_match z; next_known := next_known z;
     hashmask := hashmask z; blockhashes := blockhashes z; rsum_hash := rsum_hash z;
     bithash := bithash z; bithashmask := bithashmask z; numranges := numranges z;
     ranges := ranges z; gotblocks := gotblocks z; stats := v; filename := filename z;
     fd := fd z |}.
Definition set_filename (v : option string) (z : rcksum_state) : rcksum_state :=
  {| r0 := r0 z; r1 := r1 z; blocks := blocks z; blocksize := blocksize z;
     blockshift := blockshift z; rsum_a_mask := rsum_a_mask z; rsum_bits := rsum_bits z;
     checksum_bytes := checksum_bytes z; seq_matches := seq_matches z; context := context z;
     skip := skip z; rover := rover z; next_match := next_match z; next_known := next_known z;
     hashmask := hashmask z; blockhashes := blockhashes z; rsum_hash := rsum_hash z;
     bithash := bithash z; bithashmask := bithashmask z; numranges := numranges z;
     ranges := ranges z; gotblocks := gotblocks z; stats := stats z; filename := v; fd := fd z |}.
Definition set_fd (v : option (list Z)) (z : rcksum_state) : rcksum_state :=
  {| r0 := r0 z; r1 := r1 z; blocks := blocks z; blocksize := blocksize z;
     blockshift := blockshift z; rsum_a_mask := rsum_a_mask z; rsum_bits := rsum_bits z;
     checksum_bytes := checksum_bytes z; seq_matches := seq_matches z; context := context z;
     skip := skip z; rover := rover z; next_match := next_match z; next_known := next_known z;
     hashmask := hashmask z; blockhashes := blockhashes z; rsum_hash := rsum_hash z;
     bithash := bithash z; bithashmask := bithashmask z; numranges := numranges z;
     ranges := ranges z; gotblocks := gotblocks z; stats := stats z; filename := filename z;
     fd := v |}.

(** [calc_rhash(z, e, ei)]: the entry array is always [z.blockhashes].  A
    read past the array is a [TypeError]. *)
Definition calc_rhash (z : rcksum_state) (ei : Z) : res Z :=
  match Js.get (blockhashes z) ei with
  | None => Throw "TypeError"
  | Some e =>
      t ← (if 1 <? seq_matches z
           then match Js.get (blockhashes z) (ei + 1) with
                | Some e1 => Ok (b (r e1))
                | None => Throw "TypeError"
                end
           else match Js.get (blockhashes z) 0 with
                | Some e0 => Ok (Js.and (a (r e0)) (rsum_a_mask z))
                | None => Throw "TypeError"
                end);
      Ok (Js.xor (b (r e)) (Js.shl t BITHASHBITS))
  end.

(** [get_HE_blockid(z, e)]: [indexOf] on the entry array. *)
Definition get_HE_blockid (z : rcksum_state) (e : Z) : res Z :=
  match Js.get (blockhashes z) e with
  | Some _ => Ok e
  | None => Throw "get_HE_blockid failed"
  end.

End Internal.

(** ** zsync/range.ts: the known block ranges *)
Module Range.
Import Internal.

(** The bisection of [range_before_block].  Each round shrinks the interval
    [min, max], so a fuel of its initial size is never used up as long as
    [(max + min) >> 1] stays between [min] and [max], that is for fewer than
    2^30 ranges. *)
Fixpoint bisect (fuel : nat) (rg : list Z) (x min max : Z) : Z :=
  if max <? min then min
  else match fuel with
       | O => min
       | S fuel' =>
           let r := Js.shr (max + min) 1 in
           if Js.gt x (Js.get rg (2 * r + 1)) then bisect fuel' rg x (r + 1) max
           else if Js.lt x (Js.get rg (2 * r)) then bisect fuel' rg x min (r - 1)
           else -1
       end.

Definition range_before_block (rs : rcksum_state) (x : Z) : Z :=
  bisect (Z.to_nat (numranges rs)) (ranges rs) x 0 (numranges rs - 1).

Definition next_known_block (rs : rcksum_state) (x : Z) : res Z :=
  let r := range_before_block rs x in
  if r =? -1 then Ok x
  else if r =? numranges rs then Ok (blocks rs)
  else num (Js.get (ranges rs) (2 * r)).

Definition add_to_ranges (rs : rcksum_state) (x : Z) : res rcksum_state :=
  let r := range_before_block rs x in
  if r =? -1 then Ok rs
  else
    let rs := set_gotblocks (gotblocks rs + 1) rs in
    let rg := ranges rs in
    if (0 <? r) && (r <? numranges rs)
       && Js.eq3 (Js.get rg (2 * (r - 1) + 1)) (x - 1)
       && Js.eq3 (Js.get rg (2 * r)) (x + 1)
    then
      v ← num (Js.get rg (2 * r + 1));
      let rg := Js.set rg (2 * (r - 1) + 1) v in
      Ok (set_numranges (numranges rs - 1) (set_ranges (Js.splice rg (2 * r) 2 []) rs))
    else if (0 <? r) && negb (numranges rs =? 0)
            && Js.eq3 (Js.get rg (2 * (r - 1) + 1)) (x - 1)
    then Ok (set_ranges (Js.set rg (2 * (r - 1) + 1) x) rs)
    else if (r <? numranges rs) && Js.eq3 (Js.get rg (2 * r)) (x + 1)
    then Ok (set_ranges (Js.set rg (2 * r) x) rs)
    else Ok (set_numranges (numranges rs + 1)
               (set_ranges (Js.splice rg (2 * r) 0 [x; x]) rs)).

Definition rcksum_blocks_todo (rs : rcksum_state) : res Z :=
  foldl (λ acc i, n ← acc;
                  lo ← num (Js.get (ranges rs) (2 * i));
                  hi ← num (Js.get (ranges rs) (2 * i + 1));
                  Ok (n - (1 + hi - lo)))
        (Ok (blocks rs)) (seqZ 0 (numranges rs)).

(** One round of the loop of [rcksum_needed_block_ranges] over the window
    list [r] holding [n] half-open ranges. *)
Definition needed_step (rs : rcksum_state) (from : Z) (acc : res (list Z * Z)) (i : Z)
    : res (list Z * Z) :=
  '(r, n) ← acc;
  lo ← num (Js.get (ranges rs) (2 * i));
  hi ← num (Js.get (ranges rs) (2 * i + 1));
  last ← num (Js.get r (2 * n - 1));
  if last <? lo then Ok (r, n)
  else if hi <? from then Ok (r, n)
  else if (n =? 1) && (lo <=? from) then Ok (Js.set r 0 (hi + 1), n)
  else if last - 1 <=? hi then Ok (Js.set r (2 * n - 1) lo, n)
  else
    let r := Js.set r (2 * n) (hi + 1) in
    let r := Js.set r (2 * n + 1) last in
    let r := Js.set r (2 * n - 1) lo in
    Ok (r, n + 1).

(** The source computes the number [n] of ranges (0 for an empty window) but
    returns the array [r] alone. *)
Definition rcksum_needed_block_ranges (rs : rcksum_state) (from to : Z) : res (list Z) :=
  let to := if blocks rs <=? to then blocks rs else to in
  '(r, n) ← foldl (needed_step rs from) (Ok ([from; to], 1)) (seqZ 0 (numranges rs));
  r0 ← num (Js.get r 0);
  r1 ← num (Js.get r 1);
  let n := if (n =? 1) && (r1 <=? r0) then 0 else n in
  Ok r.

(** *** Vocabulary for the properties of the known ranges *)

Definition flat (ps : list (Z * Z)) : list Z := ps ≫= λ p, [p.1; p.2].

Fixpoint canon (ps : list (Z * Z)) : Prop :=
  match ps with
  | [] => True
  | p :: ps' => p.1 ≤ p.2 ∧ Forall (λ q, p.2 + 1 < q.1) ps' ∧ canon ps'
  end.

Definition covered (ps : list (Z * Z)) (x : Z) : Prop :=
  Exists (λ p, p.1 ≤ x ≤ p.2) ps.

(** What the bisection returns on a canonical list. *)
Definition split_at (ps : list (Z * Z)) (x r : Z) : Prop :=
  0 ≤ r ≤ Z.of_nat (length ps)
  ∧ (∀ (i : nat) p, ps !! i = Some p → Z.of_nat i < r → p.2 < x)
  ∧ (∀ (i : nat) p, ps !! i = Some p → r ≤ Z.of_nat i → x < p.1).

Definition upd (rs : rcksum_state) (g : Z) (l : list Z) (n : Z) : rcksum_state :=
  set_numranges n (set_ranges l (set_gotblocks g rs)).

(** The ranges below [x] once [x] is added: the last one is taken off, and
    its low end kept, when it ends at [x - 1]. *)
Inductive left_of (x : Z) (A : list (Z * Z)) : list (Z * Z) → Z → Prop :=
  | left_adjoins A' l : A = A' ++ [(l, x - 1)] → left_of x A A' l
  | left_apart : (∀ a, last A = Some a → a.2 ≠ x - 1) → left_of x A A x.

Inductive right_of (x : Z) (B : list (Z * Z)) : list (Z * Z) → Z → Prop :=
  | right_adjoins B' h : B = (x + 1, h) :: B' → right_of x B B' h
  | right_apart : (∀ b, head B = Some b → b.1 ≠ x + 1) → right_of x B B x.

(** The stored list holds ranges [lo, hi] with [lo <= hi], each one ending
    before the next begins. *)
Fixpoint sorted_disjoint (l : list Z) : Prop :=
  match l with
  | [] => True
  | [_] => False
  | lo :: hi :: rest =>
      lo ≤ hi ∧ match rest with [] => True | lo' :: _ => hi < lo' end ∧ sorted_disjoint rest
  end.

(** The invariant of the known ranges: the list is the flattening of
    [numranges] ranges, sorted, with a gap between any two of them. *)
Definition ranges_ok (rs : rcksum_state) : Prop :=
  ∃ ps, ranges rs = flat ps ∧ numranges rs = Z.of_nat (length ps) ∧ canon ps.

(** Block [x] is inside a stored range. *)
Definition known (rs : rcksum_state) (x : Z) : Prop :=
  ∃ i lo hi, 0 ≤ i ∧ Js.get (ranges rs) (2 * i) = Some lo
             ∧ Js.get (ranges rs) (2 * i + 1) = Some hi ∧ lo ≤ x ≤ hi.

End Range.

(** ** zsync/hash.ts: the weak-sum index *)
Module Hash.
Import Internal.

Definition entry (z : rcksum_state) (i : Z) : res hash_entry :=
  match Js.get (blockhashes z) i with
  | Some e => Ok e
  | None => Throw "TypeError"
  end.

Definition rcksum_add_target_block (z : rcksum_state) (bid : Z) (rs : rsum) (sum : list Z)
    : res rcksum_state :=
  if bid <? blocks z then
    e ← entry z bid;
    let e' := {| next := next e;
                 r := {| a := Js.and (a rs) (rsum_a_mask z); b := b rs |};
                 checksum := Some sum |} in
    let z := set_blockhashes (<[Z.to_nat bid := e']> (blockhashes z)) z in
    Ok (match rsum_hash z with
        | Some _ => set_bithash None (set_rsum_hash (Some []) z)
        | None => z
        end)
  else Ok z.

(** The [while] that steps the table size down from 2^16. *)
Fixpoint hash_bits (fuel : nat) (i nblocks : Z) : Z :=
  match fuel with
  | O => i
  | S fuel' =>
      if (nblocks <? Js.shl 2 (i - 1)) && (4 <? i) then hash_bits fuel' (i - 1) nblocks else i
  end.

(** One round of the filling loop of [build_hash], for block [id]. *)
Definition build_step (z : rcksum_state) (id : Z) : res rcksum_state :=
  e ← entry z id;
  h ← calc_rhash z id;
  let tbl := default [] (rsum_hash z) in
  let k := Js.and h (hashmask z) in
  let e' := {| next := mjoin (Js.get tbl k); r := r e; checksum := checksum e |} in
  let z := set_blockhashes (<[Z.to_nat id := e']> (blockhashes z)) z in
  let z := set_rsum_hash (Some (Js.set tbl k (Some id))) z in
  let bits := default [] (bithash z) in
  let j := Js.shr (Js.and h (bithashmask z)) 3 in
  let byte := Z.land (Js.or (default 0 (Js.get bits j)) (Js.shl 1 (Js.and h 7))) 255 in
  Ok (set_bithash (Some (Js.put bits j byte)) z).

Fixpoint build_loop (n : nat) (z : rcksum_state) : res rcksum_state :=
  match n with
  | O => Ok z
  | S n' => z' ← build_step z (Z.of_nat n'); build_loop n' z'
  end.

Definition build_hash (z : rcksum_state) : res rcksum_state :=
  let i := hash_bits 12 16 (blocks z) in
  let z := set_hashmask (Js.shl 2 i - 1) z in
  let z := set_rsum_hash (Some (replicate (Z.to_nat (hashmask z + 1)) None)) z in
  let z := set_bithashmask (Js.shl 2 (i + BITHASHBITS) - 1) z in
  let z := set_bithash (Some (replicate (Z.to_nat (bithashmask z + 1)) 0)) z in
  build_loop (Z.to_nat (blocks z)) z.

(** The chain walk of [remove_block_from_hash].  [p] is a local variable of
    the source: stepping it does not touch the chain.  A walk through more
    entries than the array has is on a cycle that does not hold [t]. *)
Fixpoint remove_walk (fuel : nat) (z : rcksum_state) (t : Z) (p : option Z)
    : res rcksum_state :=
  match p with
  | None => Ok z
  | Some pi =>
      if pi =? t then
        te ← num (Js.get (blockhashes z) t);
        Ok (if decide (rover z = Some t) then set_rover (next te) z else z)
      else
        match fuel with
        | O => Diverge
        | S fuel' =>
            pe ← num (Js.get (blockhashes z) pi);
            remove_walk fuel' z t (next pe)
        end
  end.

Definition remove_block_from_hash (z : rcksum_state) (id : Z) : res rcksum_state :=
  match rsum_hash z with
  | None => Throw "rsum_hash is null"
  | Some tbl =>
      h ← calc_rhash z id;
      remove_walk (length (blockhashes z)) z id (mjoin (Js.get tbl (Js.and h (hashmask z))))
  end.

(** The entries reached from a bucket head by following [next]. *)
Fixpoint chain (fuel : nat) (z : rcksum_state) (p : option Z) : list Z :=
  match p, fuel with
  | Some pi, S fuel' =>
      pi :: chain fuel' z (e ← Js.get (blockhashes z) pi; next e)
  | _, _ => []
  end.

Definition bucket_chain (z : rcksum_state) (h : Z) : list Z :=
  chain (length (blockhashes z)) z
        (tbl ← rsum_hash z; mjoin (Js.get tbl (Js.and h (hashmask z)))).

(** *** Vocabulary for the properties of the index *)

(** Every link of the index goes to a later block, and every bucket head and
    link is a block of the target: chain walks end. *)
Definition chain_ok (z : rcksum_state) : Prop :=
  0 ≤ blocks z < Z.of_nat (length (blockhashes z))
  ∧ (∀ i e n, 0 ≤ i < blocks z → Js.get (blockhashes z) i = Some e → next e = Some n →
              i < n < blocks z)
  ∧ (∀ tbl k h, rsum_hash z = Some tbl → Js.get tbl k = Some (Some h) → 0 ≤ h < blocks z).

(** Two states agree on everything but the links, tables and the rover. *)
Definition same_data (z z' : rcksum_state) : Prop :=
  blocks z' = blocks z ∧ blocksize z' = blocksize z ∧ blockshift z' = blockshift z
  ∧ rsum_a_mask z' = rsum_a_mask z ∧ checksum_bytes z' = checksum_bytes z
  ∧ seq_matches z' = seq_matches z
  ∧ numranges z' = numranges z ∧ ranges z' = ranges z ∧ gotblocks z' = gotblocks z
  ∧ fd z' = fd z
  ∧ length (blockhashes z') = length (blockhashes z)
  ∧ ∀ i, (λ e, (r e, checksum e)) <$> Js.get (blockhashes z') i
         = (λ e, (r e, checksum e)) <$> Js.get (blockhashes z) i.

(** The invariant of the filling loop of [build_hash] when the blocks from
    [n] on have been entered. *)
Definition build_inv (n : Z) (z : rcksum_state) : Prop :=
  0 ≤ n ≤ blocks z ∧ blocks z < Z.of_nat (length (blockhashes z))
  ∧ is_Some (rsum_hash z)
  ∧ (∀ i e m, n ≤ i < blocks z → Js.get (blockhashes z) i = Some e → next e = Some m →
              i < m < blocks z)
  ∧ (∀ tbl k h, rsum_hash z = Some tbl → Js.get tbl k = Some (Some h) → n ≤ h < blocks z).

End Hash.

(** ** zsync/rsum.ts: the rolling matcher and block submission *)
Module Rsum.
Import Internal Hash Range.

(** [rcksum_calc_rsum_block(data, len)], for [len >= 0].  A read past the
    data makes the sums NaN, which [& 0xffff] turns into 0. *)
Fixpoint rsum_loop (len : nat) (data : list Z) (i : Z) (acc : rsum) : rsum :=
  match len with
  | O => acc
  | S len' =>
      rsum_loop len' data (i + 1)
        (match Js.get data i with
         | Some c => {| a := Js.and (a acc + c) 0xffff;
                        b := Js.and (b acc + Z.of_nat len * c) 0xffff |}
         | None => {| a := 0; b := 0 |}
         end)
  end.

Definition rcksum_calc_rsum_block (data : list Z) (len : Z) : rsum :=
  rsum_loop (Z.to_nat len) data 0 {| a := 0; b := 0 |}.

Definition rcksum_calc_checksum (data : list Z) : list Z := Digest.md4 data.

(** [fd.write(data, datap, l, offset)] on the scratch file: the bytes land at
    [offset], the file growing with zeros where needed. *)
Definition pwrite (file data : list Z) (datap l offset : Z) : res (list Z) :=
  if (l <? 0) || (datap <? 0) || (Z.of_nat (length data) <? datap + l)
  then Throw "ERR_OUT_OF_RANGE"
  else if offset <? 0 then Undef
  else
    let o := Z.to_nat offset in
    let chunk := take (Z.to_nat l) (drop (Z.to_nat datap) data) in
    Ok (take o (file ++ replicate (o - length file) 0) ++ chunk
        ++ drop (o + length chunk) file).

(** The bookkeeping loop of [write_blocks]: [n] blocks from [id] on. *)
Fixpoint discard_loop (n : nat) (z : rcksum_state) (id : Z) : res rcksum_state :=
  match n with
  | O => Ok z
  | S n' =>
      z ← remove_block_from_hash z id;
      z ← add_to_ranges z id;
      discard_loop n' z (id + 1)
  end.

(** [write_blocks(z, data, bfrom, bto)].  The file write is taken to be
    complete ([bytesWritten = l]), so the write loop runs once when there is
    anything to write. *)
Definition write_blocks (z : rcksum_state) (data : list Z) (bfrom bto : Z)
    : res rcksum_state :=
  match fd z with
  | None => Throw "No file handle"
  | Some file =>
      let len := Js.shl (bto - bfrom + 1) (blockshift z) in
      let offset := Js.shl bfrom (blockshift z) in
      z ← (if len =? 0 then Ok z
           else file' ← pwrite file data 0 len offset; Ok (set_fd (Some file') z));
      discard_loop (Z.to_nat (bto - bfrom + 1)) z bfrom
  end.

(** [areEqual(first, second)] inside [check_checksums_on_hash_chain]. *)
Definition areEqual (first : list Z) (second : option (list Z)) : bool :=
  match second with
  | None => false
  | Some s => bool_decide (first = s)
  end.

Definition bump_checksummed (s : stats_t) : stats_t :=
  {| hashhit := hashhit s; weakhit := weakhit s; stronghit := stronghit s;
     checksummed := checksummed s + 1 |}.
Definition bump_hashhit (s : stats_t) : stats_t :=
  {| hashhit := hashhit s + 1; weakhit := weakhit s; stronghit := stronghit s;
     checksummed := checksummed s |}.
Definition bump_weakhit (s : stats_t) : stats_t :=
  {| hashhit := hashhit s; weakhit := weakhit s + 1; stronghit := stronghit s;
     checksummed := checksummed s |}.
Definition add_stronghit (n : Z) (s : stats_t) : stats_t :=
  {| hashhit := hashhit s; weakhit := weakhit s; stronghit := stronghit s + n;
     checksummed := checksummed s |}.

(** The [do ... while] of [check_checksums_on_hash_chain] for the candidate
    block [id]; returns [ok], [check_md4], [done_md4] and the statistics.
    [md4sum] only caches a digest that depends on the window and the index, so
    the model recomputes it and keeps [done_md4] for the counter.  The loop
    goes on only while [check_md4 < seq_matches]: the fuel is not used up. *)
Fixpoint strong_loop (fuel : nat) (z : rcksum_state) (data : list Z) (id : Z)
    (onlyone : bool) (check_md4 done_md4 : Z) (st : stats_t) : res (bool * Z * Z * stats_t) :=
  let '(done_md4, st) :=
    if done_md4 <? check_md4 then (check_md4, bump_checksummed st) else (done_md4, st) in
  let md4sum := rcksum_calc_checksum
                  (Js.subarray data (blocksize z * check_md4) (blocksize z * (check_md4 + 1))) in
  e ← entry z (id + check_md4);
  if areEqual md4sum (checksum e) then Ok (false, check_md4, done_md4, st)
  else
    let check_md4 := check_md4 + 1 in
    if negb onlyone && (check_md4 <? seq_matches z) then
      match fuel with
      | O => Diverge
      | S fuel' => strong_loop fuel' z data id onlyone check_md4 done_md4 st
      end
    else Ok (true, check_md4, done_md4, st).

(** The [while (z.rover != null)] loop; [got] is [got_blocks]. *)
Fixpoint chain_loop (fuel : nat) (z : rcksum_state) (data : list Z) (onlyone : bool)
    (done_md4 got : Z) : res (rcksum_state * Z) :=
  match rover z with
  | None => Ok (z, got)
  | Some e =>
      match fuel with
      | O => Diverge
      | S fuel' =>
          ent ← num (Js.get (blockhashes z) e);
          let z := set_rover (if onlyone then None else next ent) z in
          let z := set_stats (bump_hashhit (stats z)) z in
          if negb (a (r ent) =? Js.and (a (r0 z)) (rsum_a_mask z))
             || negb (b (r ent) =? b (r0 z))
          then chain_loop fuel' z data onlyone done_md4 got
          else
            id ← get_HE_blockid z e;
            skip_it ← (if negb onlyone && (1 <? seq_matches z) then
                         e1 ← entry z (id + 1);
                         Ok (negb (a (r e1) =? Js.and (a (r1 z)) (rsum_a_mask z))
                             || negb (b (r e1) =? b (r1 z)))
                       else Ok false);
            if (skip_it : bool) then chain_loop fuel' z data onlyone done_md4 got
            else
              let z := set_stats (bump_weakhit (stats z)) z in
              '(ok, check_md4, done_md4, st) ←
                strong_loop (Z.to_nat (seq_matches z)) z data id onlyone 0 done_md4 (stats z);
              let z := set_stats st z in
              if (ok : bool) then
                nk ← (if onlyone then Ok (next_known z) else next_known_block z id);
                let z := set_stats (add_stronghit check_md4 (stats z)) z in
                let '(z, num_write_blocks) :=
                  if id + check_md4 <? nk then
                    let z := set_next_match
                               (_ ← Js.get (blockhashes z) (id + check_md4);
                                Some (id + check_md4)) z in
                    (if onlyone then z else set_next_known nk z, check_md4)
                  else (z, nk - id) in
                z ← write_blocks z data id (id + num_write_blocks - 1);
                chain_loop fuel' z data onlyone done_md4 (got + num_write_blocks)
              else chain_loop fuel' z data onlyone done_md4 got
      end
  end.

(** [check_checksums_on_hash_chain(z, e, data, onlyone)] returns the state
    and [got_blocks]. *)
Definition check_checksums_on_hash_chain (z : rcksum_state) (e : Z) (data : list Z)
    (onlyone : bool) : res (rcksum_state * Z) :=
  let z := set_next_match None z in
  let z := set_rover (Some e) z in
  chain_loop (S (length (blockhashes z))) z data onlyone (-1) 0.

(** The table lookup of [rcksum_submit_source_data] for the current window
    sums: the hash, and the bucket head that passes the bit filter. *)
Definition window_hash (z : rcksum_state) : Z :=
  Js.xor (b (r0 z))
         (Js.ushr (Js.shl (if 1 <? seq_matches z then b (r1 z)
                           else Js.and (a (r0 z)) (rsum_a_mask z)) BITHASHBITS) 0).

Definition lookup (z : rcksum_state) : option Z :=
  let hash := window_hash z in
  bits ← bithash z;
  tbl ← rsum_hash z;
  if negb (Js.and (default 0 (Js.get bits (Js.shr (Js.and hash (bithashmask z)) 3)))
                  (Js.shl 1 (Js.and hash 7)) =? 0)
  then mjoin (Js.get tbl (Js.and hash (hashmask z)))
  else None.

(** The comparison of [rcksum_submit_blocks] for block [x] of a buffer that
    starts at block [bfrom]: [JSON.stringify] is one-to-one on byte arrays
    and never yields the text of [null]. *)
Definition block_ok (z : rcksum_state) (data : list Z) (bfrom x : Z) : res bool :=
  let start := Js.shl (x - bfrom) (blockshift z) in
  let md4sum := rcksum_calc_checksum (Js.subarray data start (start + blocksize z)) in
  e ← entry z x;
  Ok (bool_decide (Some (Js.subarray md4sum 0 (checksum_bytes z)) = checksum e)).

(** The checking loop over [n] blocks from [x] on; a mismatch writes the good
    prefix and returns -1. *)
Fixpoint submit_loop (n : nat) (z : rcksum_state) (data : list Z) (bfrom bto x : Z)
    : res (rcksum_state * Z) :=
  match n with
  | O => z ← write_blocks z data bfrom bto; Ok (z, 0)
  | S n' =>
      ok ← block_ok z data bfrom x;
      if (ok : bool) then submit_loop n' z data bfrom bto (x + 1)
      else
        z ← (if bfrom <? x then write_blocks z data bfrom (x - 1) else Ok z);
        Ok (z, -1)
  end.

Definition rcksum_submit_blocks (z : rcksum_state) (data : list Z) (bfrom bto : Z)
    : res (rcksum_state * Z) :=
  z ← (match rsum_hash z with None => build_hash z | Some _ => Ok z end);
  submit_loop (Z.to_nat (bto - bfrom + 1)) z data bfrom bto bfrom.

(** *** Vocabulary for the properties of block submission *)



(** The comparison that [rcksum_submit_blocks] makes for block [x], in the
    words of the specification: the first [checksum_bytes] bytes of the MD4 of
    the block's bytes in the buffer are the stored strong checksum. *)
Definition strong_match (z : rcksum_state) (data : list Z) (lo x : Z) : Prop :=
  ∃ e, Js.get (blockhashes z) x = Some e
       ∧ checksum e
         = Some (take (Z.to_nat (checksum_bytes z))
                   (Digest.md4 (take (Z.to_nat (blocksize z))
                                  (drop (Z.to_nat ((x - lo) * blocksize z)) data)))).

#[global] Instance strong_match_dec z data lo x : Decision (strong_match z data lo x).
Proof.
  unfold strong_match. destruct (Js.get (blockhashes z) x) as [e|].
  - destruct (decide (checksum e = Some (take (Z.to_nat (checksum_bytes z))
                   (Digest.md4 (take (Z.to_nat (blocksize z))
                                  (drop (Z.to_nat ((x - lo) * blocksize z)) data)))))).
    + left. by exists e.
    + right. intros (e' & [= <-] & ?). done.
  - right. by intros (e' & ? & ?).
Defined.




End Rsum.

(** ** zsync/state.ts *)
Module State.
Import Internal.

(** The search [for (i = 0; i < 32; i++) if (blocksize === (1 << i))]; when
    nothing is found [blockshift] stays undefined, which every shift of the
    sources reads as 0. *)
Definition find_blockshift (bs : Z) : Z :=
  default 0 (head (filter (λ i, bs = Js.shl 1 i) (seqZ 0 32))).

Definition blank_entry : hash_entry :=
  {| next := None; r := {| a := 0; b := 0 |}; checksum := None |}.

(** The object that [rcksum_init] fills in; [path] is the name that [tmpfile]
    hands out, and the file it opens is empty. *)
Definition fresh_state (nblocks bsize rsum_bytes csum_bytes require_consecutive_matches : Z)
    (path : string) : rcksum_state :=
         {| r0 := {| a := 0; b := 0 |}; r1 := {| a := 0; b := 0 |};
            blocks := nblocks; blocksize := bsize;
            blockshift := find_blockshift bsize;
            rsum_a_mask := if rsum_bytes <? 3 then 0
                           else if rsum_bytes =? 3 then 0xff else 0xffff;
            rsum_bits := rsum_bytes * 8;
            checksum_bytes := csum_bytes;
            seq_matches := require_consecutive_matches;
            context := bsize * require_consecutive_matches;
            skip := 0; rover := None; next_match := None; next_known := 0;
            hashmask := 0;
            blockhashes :=
              replicate (Z.to_nat (nblocks + require_consecutive_matches)) blank_entry;
            rsum_hash := None; bithash := None; bithashmask := 0;
            numranges := 0; ranges := []; gotblocks := 0;
            stats := {| hashhit := 0; weakhit := 0; stronghit := 0; checksummed := 0 |};
            filename := Some path; fd := Some [] |}.

Definition rcksum_init (nblocks bsize rsum_bytes csum_bytes require_consecutive_matches : Z)
    (path : string) : option rcksum_state :=
  if (Js.and bsize (bsize - 1) =? 0) && negb (nblocks =? 0) then
    Some (fresh_state nblocks bsize rsum_bytes csum_bytes require_consecutive_matches path)
  else None.

(** [rcksum_filename]: hands the name over, once. *)
Definition rcksum_filename (rs : rcksum_state) : option string * rcksum_state :=
  (filename rs, set_filename None rs).

End State.

(** ** zsync/stdio.ts *)
Module Stdio.

(** A file open for reading: the bytes from [position] on. *)
Definition FILE : Type := list Z.

(** [fread(buffer, 1, count, file, offset)]: the bytes read fill the buffer
    from [offset]; a short file gives a short read.  Returns the buffer, the
    file and the number of bytes read. *)
Definition fread (buffer : list Z) (count : Z) (file : FILE) (offset : Z)
    : res (list Z * FILE * Z) :=
  if (offset <? 0) || (count <? 0) || (Z.of_nat (length buffer) <? offset + count)
  then Throw "ERR_OUT_OF_RANGE"
  else
    let got := take (Z.to_nat count) file in
    Ok (take (Z.to_nat offset) buffer ++ got
          ++ drop (Z.to_nat offset + length got) buffer,
        drop (Z.to_nat count) file,
        Z.of_nat (length got)).

End Stdio.

(** ** zsync/zsync.ts: the session *)
Module Zsync.
Import Stdio.

Record zsync_state := {
  rs : option Internal.rcksum_state;
  filelen : Z;
  blocks : Z;
  blocksize : Z;
  checksum : option string;
  checksum_method : option string;
  url : list string;
  nurl : Z;
  cur_filename : option string;
  filename : option string;
  mtime : Z
}.

Definition set_rs (v : option Internal.rcksum_state) (zs : zsync_state) : zsync_state :=
  {| rs := v; filelen := filelen zs; blocks := blocks zs; blocksize := blocksize zs;
     checksum := checksum zs; checksum_method := checksum_method zs; url := url zs;
     nurl := nurl zs; cur_filename := cur_filename zs; filename := filename zs;
     mtime := mtime zs |}.
Definition set_cur_filename (v : option string) (zs : zsync_state) : zsync_state :=
  {| rs := rs zs; filelen := filelen zs; blocks := blocks zs; blocksize := blocksize zs;
     checksum := checksum zs; checksum_method := checksum_method zs; url := url zs;
     nurl := nurl zs; cur_filename := v; filename := filename zs; mtime := mtime zs |}.
Definition set_checksum (v m : option string) (zs : zsync_state) : zsync_state :=
  {| rs := rs zs; filelen := filelen zs; blocks := blocks zs; blocksize := blocksize zs;
     checksum := v; checksum_method := m; url := url zs;
     nurl := nurl zs; cur_filename := cur_filename zs; filename := filename zs;
     mtime := mtime zs |}.

(** The receiver; its [zs] is the session it was begun on, passed alongside. *)
Record zsync_receiver := { outbuf : list Z; outoffset : Z }.

Definition SHA1_DIGEST_LENGTH : Z := 20.

(** The [SHA-1] case of the header loop of [zsync_begin]. *)
Definition header_sha1 (value : string) (zs : zsync_state) : res zsync_state :=
  if negb (Z.of_nat (String.length value) =? SHA1_DIGEST_LENGTH * 2)
  then Throw "SHA-1 digest from control file is wrong length."
  else Ok (set_checksum (Some value) (Some "SHA-1"%string) zs).

(** Element [i] of a [Uint16Array] laid over the bytes [bs], in the byte order
    of the host. *)
Definition u16_view (little_endian : bool) (bs : list Z) (i : Z) : Z :=
  let b0 := default 0 (Js.get bs (2 * i)) in
  let b1 := default 0 (Js.get bs (2 * i + 1)) in
  if little_endian then b0 + 256 * b1 else 256 * b0 + b1.

(** One round of the loop of [zsync_read_blocksums], for block [id]. *)
Definition read_blocksum (little_endian : bool) (rsum_bytes checksum_bytes : Z)
    (acc : res (Internal.rcksum_state * FILE)) (id : Z) : res (Internal.rcksum_state * FILE) :=
  '(z, f) ← acc;
  '(buffer2, f, _) ← fread [0; 0; 0; 0] rsum_bytes f (4 - rsum_bytes);
  '(sum, f, _) ← fread (replicate (Z.to_nat checksum_bytes) 0) checksum_bytes f 0;
  let w0 := u16_view little_endian buffer2 0 in
  let w1 := u16_view little_endian buffer2 1 in
  let r := {| Internal.a := w0;
              Internal.b := Js.or (Js.shr (Js.and w1 0xff00) 8) (Js.shl (Js.and w1 0xff) 8) |} in
  z ← Hash.rcksum_add_target_block z id r sum;
  Ok (z, f).

Definition zsync_read_blocksums (little_endian : bool) (zs : zsync_state) (f : FILE)
    (rsum_bytes checksum_bytes seq_matches : Z) (path : string)
    : res (Z * zsync_state * FILE) :=
  match State.rcksum_init (blocks zs) (blocksize zs) rsum_bytes checksum_bytes seq_matches path with
  | None => Ok (-1, set_rs None zs, f)
  | Some z =>
      '(z, f) ← foldl (read_blocksum little_endian rsum_bytes checksum_bytes) (Ok (z, f))
                      (seqZ 0 (blocks zs));
      Ok (0, set_rs (Some z) zs, f)
  end.

Definition zsync_cur_filename (zs : zsync_state) : res (string * zsync_state) :=
  match cur_filename zs with
  | Some f => Ok (f, zs)
  | None =>
      match rs zs with
      | None => Throw "rs is null"
      | Some z =>
          let '(p, z) := State.rcksum_filename z in
          match p with
          | None => Throw "cur_filename is null"
          | Some f => Ok (f, set_cur_filename (Some f) (set_rs (Some z) zs))
          end
      end
  end.

Definition zsync_rename_file (zs : zsync_state) (f : string) : res zsync_state :=
  '(_, zs) ← zsync_cur_filename zs;
  Ok (set_cur_filename (Some f) zs).

(** [zsync_status]: a NaN count compares false twice and gives 2. *)
Definition zsync_status (zs : zsync_state) : res Z :=
  match rs zs with
  | None => Throw "rs is null"
  | Some z =>
      match Range.rcksum_blocks_todo z with
      | Ok todo => Ok (if todo =? blocks zs then 0 else if 0 <? todo then 1 else 2)
      | Undef => Ok 2
      | Throw m => Throw m
      | Diverge => Diverge
      end
  end.

Definition zsync_begin_receive (zs : zsync_state) : zsync_receiver :=
  {| outbuf := replicate (Z.to_nat (blocksize zs)) 0; outoffset := 0 |}.

Definition zsync_needed_byte_ranges (zs : zsync_state) : res (list Z) :=
  match rs zs with
  | None => Throw "rs is null"
  | Some z =>
      blrange ← Range.rcksum_needed_block_ranges z 0 0x7fffffff;
      let nrange := Js.shr (Z.of_nat (length blrange)) 1 in
      foldl (λ acc i, byterange ← acc;
                      lo ← num (Js.get blrange (2 * i));
                      hi ← num (Js.get blrange (2 * i + 1));
                      Ok (byterange ++ [lo * blocksize zs; hi * blocksize zs - 1]))
            (Ok []) (seqZ 0 nrange)
  end.

(** Truncation of a JavaScript number towards zero. *)
Definition Qtrunc (q : Q) : Z := if Qle_bool 0 q then Qfloor q else Qceiling q.

(** [zsync_submit_data].  [nblocks] is the number the caller computed, by a
    floating-point division, and need not be whole; [rcksum_submit_blocks]
    reads its last block only in [x <= bto] and through a 32-bit shift, which
    both see its integer part. *)
Definition zsync_submit_data (zs : zsync_state) (buf : list Z) (offset : Z) (nblocks : Q)
    : res (zsync_state * Z) :=
  match rs zs with
  | None => Throw "rs is null"
  | Some z =>
      let blstart := Js.to_int32 (Z.quot offset (blocksize zs)) in
      let blend := (inject_Z blstart + nblocks - 1)%Q in
      '(z, rc) ← Rsum.rcksum_submit_blocks z buf blstart (Qfloor blend);
      Ok (set_rs (Some z) zs, rc)
  end.

(** The first part of [zsync_receive_data], for a chunk that starts inside a
    block; returns the session, the buffer of the receiver, [x], [len] and
    [ret]. *)
Definition receive_head (zs : zsync_state) (zr : zsync_receiver) (buf : list Z)
    (offset len : Z) : res (zsync_state * list Z * Z * Z * Z) :=
  let bs := blocksize zs in
  let x := if bs - Z.rem offset bs <? len then bs - Z.rem offset bs else len in
  if outoffset zr =? offset then
    '(ob, len, x) ←
      (if negb (len =? 0) then
         match Js.typed_set (outbuf zr) (Js.subarray buf 0 x) (Z.rem offset bs) with
         | Some ob => Ok (ob, len, x)
         | None => Throw "RangeError"
         end
       else
         let len := bs - Z.rem offset bs in
         Ok (Js.fill (outbuf zr) 0 (Z.rem offset bs) (Z.rem offset bs + len), len, len));
    if Z.rem (x + offset) bs =? 0 then
      '(zs, rc) ← zsync_submit_data zs ob (outoffset zr + x - bs) 1;
      Ok (zs, ob, x, len, if rc =? 0 then 0 else 1)
    else Ok (zs, ob, x, len, 0)
  else Ok (zs, outbuf zr, x, len, 0).

(** The rest of [zsync_receive_data], from "Now we are block-aligned" on: the
    full blocks are submitted from the chunk itself, and what is left is kept
    in the buffer [ob] of the receiver.  The session has a block size that is
    a power of two, for which [len / blocksize] is exact in floating point. *)
Definition receive_blocks (zs : zsync_state) (ob buf : list Z) (offset len ret : Z)
    : res (zsync_state * zsync_receiver * Z) :=
  let bs := blocksize zs in
  '(zs, buf, offset, len, ret) ←
    (if bs <=? len then
       let w := (inject_Z len / inject_Z bs)%Q in
       '(zs, rc) ← zsync_submit_data zs buf offset w;
       let ret := if rc =? 0 then ret else 1 in
       let w := (w * inject_Z bs)%Q in
       Ok (zs, Js.subarray_from buf (Qtrunc w), Qtrunc (inject_Z offset + w),
           Qtrunc (inject_Z len - w), ret)
     else Ok (zs, buf, offset, len, ret));
  '(ob, offset) ←
    (if negb (len =? 0) then
       match Js.typed_set ob (Js.subarray buf 0 len) 0 with
       | Some ob => Ok (ob, offset + len)
       | None => Throw "RangeError"
       end
     else Ok (ob, offset));
  Ok (zs, {| outbuf := ob; outoffset := offset |}, ret).

(** [zsync_receive_data(zr, buf, offset, len)]: returns the session, the
    receiver and [ret]. *)
Definition zsync_receive_data (zs : zsync_state) (zr : zsync_receiver) (buf : list Z)
    (offset len : Z) : res (zsync_state * zsync_receiver * Z) :=
  if negb (Z.rem offset (blocksize zs) =? 0) then
    '(zs, ob, x, len, ret) ← receive_head zs zr buf offset len;
    receive_blocks zs ob (Js.subarray_from buf x) (offset + x) (len - x) ret
  else receive_blocks zs (outbuf zr) buf offset len 0.

(** The reading loop of [zsync_sha1]: 4096 bytes at a time from [offset],
    until a read returns nothing; [acc] is what the hash has been fed. *)
Fixpoint sha1_feed (fuel : nat) (file : list Z) (offset : Z) (acc : list Z) : list Z :=
  match fuel with
  | O => acc
  | S fuel' =>
      let chunk := take 4096 (drop (Z.to_nat offset) file) in
      match chunk with
      | [] => acc
      | _ => sha1_feed fuel' file (offset + Z.of_nat (length chunk)) (acc ++ chunk)
      end
  end.

Definition zsync_sha1 (zs : zsync_state) (file : list Z) : Z :=
  let fed := sha1_feed (S (length file)) file 0 [] in
  if decide (checksum zs = Some (Digest.hex (Digest.sha1 fed))) then 1 else -1.

(** [truncate(path, len)] on the content of a file. *)
Definition truncate (file : list Z) (len : Z) : res (list Z) :=
  if len <? 0 then Throw "ERR_OUT_OF_RANGE"
  else Ok (take (Z.to_nat len) (file ++ replicate (Z.to_nat len - length file) 0)).

(** [zsync_complete]: returns [rc], the session and the content of the
    scratch file as it is left on disk.  [rcksum_end] closes the file, and
    removes it when the matcher still owns its name. *)
Definition zsync_complete (zs : zsync_state) : res (Z * zsync_state * list Z) :=
  match rs zs with
  | None => Throw "rs is null"
  | Some _ =>
      '(_, zs) ← zsync_cur_filename zs;
      disk ← match rs zs with
             | Some z => match Internal.filename z with
                         | Some _ => Undef
                         | None => num (Internal.fd z)
                         end
             | None => Undef
             end;
      let zs := set_rs None zs in
      disk ← truncate disk (filelen zs);
      let rc := if bool_decide (checksum zs ≠ None)
                   && bool_decide (checksum_method zs = Some "SHA-1"%string)
                then zsync_sha1 zs disk else 0 in
      Ok (rc, zs, disk)
  end.

(** *** Vocabulary for the properties of the session *)

(** The whole-file digest that the control file carried, if any. *)
Definition sha1_header (zs : zsync_state) : option string :=
  if decide (checksum_method zs = Some "SHA-1"%string) then checksum zs else None.


End Zsync.

(** ** zsync/client.ts: the remote fetch driver *)
Module Client.
Import Zsync.

(** What the HTTP side answers to one range request: [None] when
    [RangeReader.create] rejects (a status other than 206, a network error),
    otherwise the [(offset, buffer)] items that [readRange] yields before it
    returns null.  The referer is taken to be set and the URL to resolve. *)
Definition response : Type := option (list (Z * list Z)).

(** The receiving loop of [fetch_remaining_blocks_http]:
    [while (ret !== 1 && (range = await reader.readRange()) != null)]. *)
Fixpoint receive_ranges (items : list (Z * list Z)) (zs : zsync_state) (zr : zsync_receiver)
    (zoffset ret : Z) : res (zsync_state * zsync_receiver * Z * Z) :=
  if ret =? 1 then Ok (zs, zr, zoffset, ret)
  else match items with
       | [] => Ok (zs, zr, zoffset, ret)
       | (off, buf) :: items' =>
           let len := Z.of_nat (length buf) in
           '(zs, zr, rc) ← zsync_receive_data zs zr buf off len;
           receive_ranges items' zs zr (off + len) (if rc =? 0 then ret else 1)
       end.

(** [fetch_remaining_blocks_http(z, url, 0)]: returns [ret] and the session.
    [range_fetch_start] always yields an object, and a buffer length is never
    negative, so the final flush always runs. *)
Definition fetch_remaining_blocks_http (zs : zsync_state) (resp : response)
    : res (Z * zsync_state) :=
  let zr := zsync_begin_receive zs in
  zbyterange ← zsync_needed_byte_ranges zs;
  if bool_decide (zbyterange = []) then Ok (0, zs)
  else match resp with
       | None => Throw "Expected HTTP response status code 206"
       | Some items =>
           '(zs, zr, zoffset, ret) ← receive_ranges items zs zr 0 0;
           '(zs, _, _) ← zsync_receive_data zs zr [] zoffset 0;
           Ok (ret, zs)
       end.

(** The state of the loop of [fetch_remaining_blocks]: [status] is the sparse
    array of the source, [fetched] lists the URL indices a fetch was started
    on, in order, and [finished] tells whether the loop condition failed
    before the supplied events ran out. *)
Record driver := {
  session : zsync_state;
  status : gmap Z Z;
  ok_urls : Z;
  fetched : list Z;
  finished : bool
}.

(** One event per iteration: the index [Math.floor(Math.random() * n)] and
    the answer of the HTTP side should a fetch be started. *)
Fixpoint fetch_loop (events : list (Z * response)) (d : driver) : res driver :=
  st ← zsync_status (session d);
  if (st <? 2) && negb (ok_urls d =? 0) then
    match events with
    | [] => Ok d
    | (try2, resp) :: events' =>
        if negb (bool_decide (status d !! try2 = Some 0)) then
          '(rc, zs) ← fetch_remaining_blocks_http (session d) resp;
          fetch_loop events'
            (if negb (rc =? 0)
             then {| session := zs; status := <[try2 := 1]> (status d);
                     ok_urls := ok_urls d - 1; fetched := fetched d ++ [try2];
                     finished := false |}
             else {| session := zs; status := status d; ok_urls := ok_urls d;
                     fetched := fetched d ++ [try2]; finished := false |})
        else fetch_loop events' d
    end
  else Ok {| session := session d; status := status d; ok_urls := ok_urls d;
             fetched := fetched d; finished := true |}.

Definition fetch_remaining_blocks (zs : zsync_state) (events : list (Z * response))
    : res driver :=
  let n := Z.of_nat (length (url zs)) in
  if n =? 0 then Throw "no URLs available from zsync?"
  else fetch_loop events {| session := zs; status := ∅; ok_urls := n; fetched := [];
                            finished := false |}.

End Client.


(** ** A small session: an 8-byte target in two blocks of 4 bytes *)
Module Scenario.
Import Internal Hash Range Rsum State.

Definition target : list Z := [1; 2; 3; 4; 5; 6; 7; 8].

Definition block_of (data : list Z) (bs i : Z) : list Z :=
  Js.subarray data (bs * i) (bs * (i + 1)).

(** The state once the sums of every block of [data] are entered as the
    control file of [data] gives them. *)
Definition with_sums (data : list Z) (z : rcksum_state) : rcksum_state :=
  foldl (λ z i,
           match rcksum_add_target_block z i
                   (rcksum_calc_rsum_block (block_of data (blocksize z) i) (blocksize z))
                   (take (Z.to_nat (checksum_bytes z))
                      (rcksum_calc_checksum (block_of data (blocksize z) i))) with
           | Ok z' => z'
           | _ => z
           end)
        z (seqZ 0 (blocks z)).

(** One match per hit, four bytes of weak sum, the whole MD4. *)
Definition demo : rcksum_state :=
  with_sums target (fresh_state 2 4 4 16 1 "rcksum-000000").

Definition indexed (z : rcksum_state) : rcksum_state :=
  match build_hash z with Ok z' => z' | _ => z end.

(** The state when the window of the matcher holds the bytes [w]. *)
Definition at_window (w : list Z) (z : rcksum_state) : rcksum_state :=
  set_r1 (rcksum_calc_rsum_block (Js.subarray_from w (blocksize z)) (blocksize z))
    (set_r0 (rcksum_calc_rsum_block w (blocksize z)) z).

Definition session (z : rcksum_state) : Zsync.zsync_state :=
  {| Zsync.rs := Some z; Zsync.filelen := 8; Zsync.blocks := blocks z;
     Zsync.blocksize := blocksize z; Zsync.checksum := None; Zsync.checksum_method := None;
     Zsync.url := ["http://a.example/f"; "http://b.example/f"]%string; Zsync.nurl := 2;
     Zsync.cur_filename := None; Zsync.filename := Some "f"%string; Zsync.mtime := -1 |}.

(** The session with both blocks known. *)
Definition complete : rcksum_state :=
  match rcksum_submit_blocks demo target 0 1 with Ok (z, _) => z | _ => demo end.

(** A control file of one block read with [rsum_bytes] bytes of weak sum. *)
Definition one_block : Zsync.zsync_state :=
  {| Zsync.rs := None; Zsync.filelen := 4; Zsync.blocks := 1;
     Zsync.blocksize := 4; Zsync.checksum := None; Zsync.checksum_method := None;
     Zsync.url := []; Zsync.nurl := 0;
     Zsync.cur_filename := None; Zsync.filename := None; Zsync.mtime := -1 |}.

(** The weak sums stored for block 0 after [zsync_read_blocksums]. *)
Definition stored_weak (r : res (Z * Zsync.zsync_state * Stdio.FILE)) : option rsum :=
  match r with
  | Ok (_, zs, _) => z ← Zsync.rs zs; e ← blockhashes z !! 0%nat; Some (Internal.r e)
  | _ => None
  end.

(** Eight blocks of which 1, 2 and 5 are known. *)
Definition gapped : rcksum_state :=
  set_numranges 2 (set_ranges [1; 2; 5; 5] (fresh_state 8 4 4 16 1 "rcksum-000000")).

(** The complete session of a control file that carried the SHA-1 of the
    target. *)
Definition signed : Zsync.zsync_state :=
  Zsync.set_checksum (Some "dd5783bcf1e9002bc00ad5b83a95ed6e4ebb4ad5"%string)
    (Some "SHA-1"%string) (session complete).

(** A receiver that holds the first two bytes of block 0. *)
Definition pending : Zsync.zsync_receiver :=
  {| Zsync.outbuf := [1; 2; 0; 0]; Zsync.outoffset := 2 |}.

(** The hash of block [i] as the specification words it. *)
Definition weak_hash_spec (z : rcksum_state) (i : Z) : option Z :=
  e ← Js.get (blockhashes z) i;
  t ← (if 1 <? seq_matches z then e1 ← Js.get (blockhashes z) (i + 1); Some (b (r e1))
       else Some (Js.and (a (r e)) (rsum_a_mask z)));
  Some (Js.xor (b (r e)) (Js.shl t 3)).

End Scenario.

(** ** Vocabulary for the queries on the known ranges *)
Module RangeView.
Import Internal Range.

(** The blocks of the ranges [ps], range after range. *)
Definition blocks_of (ps : list (Z * Z)) : list Z :=
  ps ≫= λ p, seqZ p.1 (p.2 - p.1 + 1).

(** The number of blocks in the ranges [ps]. *)
Definition total (ps : list (Z * Z)) : Z := foldr (λ p s, (p.2 - p.1 + 1) + s) 0 ps.

(** Block [x] is inside one of the half-open windows [r[2i], r[2i+1]) of a
    list as [rcksum_needed_block_ranges] returns it. *)
Definition in_windows (r : list Z) (x : Z) : Prop :=
  ∃ i lo hi, 0 ≤ i ∧ Js.get r (2 * i) = Some lo ∧ Js.get r (2 * i + 1) = Some hi
             ∧ lo ≤ x < hi.

(** The same for a list of pairs. *)
Definition within (W : list (Z * Z)) (x : Z) : Prop := Exists (λ w, w.1 ≤ x < w.2) W.

(** The state of the loop of [rcksum_needed_block_ranges] after the first
    [k] known ranges: the windows [D ++ [(s, e)]] hold the blocks of
    [from, to') outside these ranges, and the last window begins at [from] or
    just after one of them. *)
Definition needed_inv (ps : list (Z * Z)) (from to' : Z) (k : nat) (acc : list Z * Z) : Prop :=
  ∃ D s e, acc = (flat (D ++ [(s, e)]), Z.of_nat (length D) + 1)
    ∧ (∀ x, within (D ++ [(s, e)]) x ↔ from ≤ x < to' ∧ ¬ covered (take k ps) x)
    ∧ (∀ x, within D x → x < s)
    ∧ from ≤ s
    ∧ ((s = from ∧ D = []) ∨ ∃ q, q ∈ take k ps ∧ s = q.2 + 1)
    ∧ (length D ≤ k)%nat.

(** Byte offset [o] is inside one of the ranges [br[2i] .. br[2i+1]], both
    ends included, of a list as [zsync_needed_byte_ranges] returns it. *)
Definition in_byte_ranges (br : list Z) (o : Z) : Prop :=
  ∃ i lo hi, 0 ≤ i ∧ Js.get br (2 * i) = Some lo ∧ Js.get br (2 * i + 1) = Some hi
             ∧ lo ≤ o ≤ hi.

End RangeView.

(** ** Vocabulary for the index that [build_hash] builds *)
Module IndexView.
Import Internal Hash.

(** The state of the filling loop of [build_hash] once the blocks from [n]
    on are entered: besides [build_inv], the table has [hashmask + 1] slots
    and every block entered is on the chain of its bucket. *)
Definition indexed_from (n : Z) (z : rcksum_state) : Prop :=
  build_inv n z
  ∧ (∃ k, 0 ≤ k < 31 ∧ hashmask z = Z.ones k)
  ∧ (∃ tbl, rsum_hash z = Some tbl ∧ Z.of_nat (length tbl) = hashmask z + 1)
  ∧ (∀ i, n ≤ i < blocks z → ∃ h, calc_rhash z i = Ok h ∧ i ∈ bucket_chain z h)
  ∧ ∀ h x, x ∈ bucket_chain z h →
           ∃ hx, calc_rhash z x = Ok hx ∧ Js.and hx (hashmask z) = Js.and h (hashmask z).

(** The bit filter of the matcher's lookup, for the hash [h]:
    [bithash[(h & bithashmask) >> 3] & (1 << (h & 7))] is not 0. *)
Definition bit_test (z : rcksum_state) (h : Z) : bool :=
  match bithash z with
  | Some bits =>
      negb (Js.and (default 0 (Js.get bits (Js.shr (Js.and h (bithashmask z)) 3)))
                   (Js.shl 1 (Js.and h 7)) =? 0)
  | None => false
  end.

(** The bit table while [build_hash] fills it: its size, its bytes, and the
    bit of every block entered. *)
Definition filter_from (n : Z) (z : rcksum_state) : Prop :=
  (∃ kb, 3 ≤ kb < 31 ∧ bithashmask z = Z.ones kb)
  ∧ (∃ bits, bithash z = Some bits ∧ Z.of_nat (length bits) = bithashmask z + 1
             ∧ Forall (λ x, 0 ≤ x < 256) bits)
  ∧ ∀ i, n ≤ i < blocks z → ∃ h, calc_rhash z i = Ok h ∧ bit_test z h = true.

End IndexView.

(** ** zsync/rsum.ts: the scan of local data *)
Module Scan.
Import Internal Hash Range Rsum.

Definition set_skip (v : Z) (z : rcksum_state) : rcksum_state :=
  {| r0 := r0 z; r1 := r1 z; blocks := blocks z; blocksize := blocksize z;
     blockshift := blockshift z; rsum_a_mask := rsum_a_mask z; rsum_bits := rsum_bits z;
     checksum_bytes := checksum_bytes z; seq_matches := seq_matches z; context := context z;
     skip := v; rover := rover z; next_match := next_match z; next_known := next_known z;
     hashmask := hashmask z; blockhashes := blockhashes z; rsum_hash := rsum_hash z;
     bithash := bithash z; bithashmask := bithashmask z; numranges := numranges z;
     ranges := ranges z; gotblocks := gotblocks z; stats := stats z;
     filename := filename z; fd := fd z |}.

(** [unsignedChar(c)] of [rcksum_submit_source_data]; an element past the
    end of the data is [undefined], which [&] reads as 0. *)
Definition unsignedChar (c : option Z) : Z := Js.and (default 0 c) 0xff.

(** The two assignments that stand for [UPDATE_RSUM(a, b, oldc, newc,
    bshift)]. *)
Definition update_rsum (s : rsum) (oldc newc : option Z) (bshift : Z) : rsum :=
  let a' := Js.and (a s + (unsignedChar newc - unsignedChar oldc)) 0xffff in
  {| a := a'; b := Js.and (b s + (a' - Js.shl (default 0 oldc) bshift)) 0xffff |}.

(** The last block of the loop of [rcksum_submit_source_data]: the window
    moves from [x] to [x + 1]. *)
Definition roll (z : rcksum_state) (data : list Z) (x : Z) : rcksum_state :=
  let bs := blocksize z in
  let Nc := Js.get data (x + bs * 2) in
  let nc := Js.get data (x + bs) in
  let oc := Js.get data x in
  let z := set_r0 (update_rsum (r0 z) oc nc (blockshift z)) z in
  if 1 <? seq_matches z then set_r1 (update_rsum (r1 z) nc Nc (blockshift z)) z else z.

(** The loop of [rcksum_submit_source_data] with the window at [x].  The
    model follows the window while it lies inside the first [len] bytes: a
    window that has left them, or a loop that makes no progress (a block
    size that is not positive), ends the run with [Undef]. *)
Fixpoint source_loop (fuel : nat) (z : rcksum_state) (data : list Z) (len x : Z)
    : res rcksum_state :=
  if x + context z =? len then Ok z
  else if len <? x + context z then Undef
  else
    match fuel with
    | O => Undef
    | S fuel' =>
        '(z, thismatch, blocks_matched) ←
          match next_match z with
          | Some nm =>
              if 1 <? seq_matches z then
                '(z, got) ← check_checksums_on_hash_chain z nm (Js.subarray_from data x) true;
                Ok (z, got, if got =? 0 then 0 else 1)
              else Ok (z, 0, 0)
          | None => Ok (z, 0, 0)
          end;
        '(z, thismatch, blocks_matched) ←
          (if thismatch =? 0 then
             match lookup z with
             | Some e =>
                 '(z, got) ← check_checksums_on_hash_chain z e (Js.subarray_from data x) false;
                 Ok (z, got, if got =? 0 then blocks_matched else seq_matches z)
             | None => Ok (z, thismatch, blocks_matched)
             end
           else Ok (z, thismatch, blocks_matched));
        if negb (blocks_matched =? 0) then
          let x := x + blocksize z + (if 1 <? blocks_matched then blocksize z else 0) in
          if len <? x + context z then Ok (set_skip (x + context z - len) z)
          else
            let z := if (1 <? seq_matches z) && (blocks_matched =? 1) then set_r0 (r1 z) z
                     else set_r0 (rcksum_calc_rsum_block (Js.subarray_from data x)
                                    (blocksize z)) z in
            let z := if 1 <? seq_matches z
                     then set_r1 (rcksum_calc_rsum_block
                                    (Js.subarray_from data (x + blocksize z)) (blocksize z)) z
                     else z in
            source_loop fuel' z data len x
        else source_loop fuel' (roll z data x) data len (x + 1)
    end.

(** [rcksum_submit_source_data(z, data, len, offset)]. *)
Definition rcksum_submit_source_data (z : rcksum_state) (data : list Z) (len offset : Z)
    : res rcksum_state :=
  match rsum_hash z with
  | None => Throw "rsum_hash is null"
  | Some _ =>
      let bs := blocksize z in
      let '(x, z) := if negb (offset =? 0) then (skip z, z) else (0, set_next_match None z) in
      let z := if negb (x =? 0) || (offset =? 0) then
                 let z := set_r0 (rcksum_calc_rsum_block (Js.subarray_from data x) bs) z in
                 if 1 <? seq_matches z
                 then set_r1 (rcksum_calc_rsum_block (Js.subarray_from data (x + bs)) bs) z
                 else z
               else z in
      let z := set_skip 0 z in
      source_loop (S (Z.to_nat len)) z data len x
  end.

(** The plain and the weighted sum of a window, the first byte weighing the
    length of the window. *)
Fixpoint sum1 (w : list Z) : Z := match w with [] => 0 | c :: w' => c + sum1 w' end.
Fixpoint sum2 (w : list Z) : Z :=
  match w with [] => 0 | c :: w' => Z.of_nat (length w) * c + sum2 w' end.

(** The state with the rolling sums of the window at [x]: [r0] of the block
    at [x] and, for sequential matching, [r1] of the block after it. *)
Definition window_at (z : rcksum_state) (data : list Z) (x : Z) : rcksum_state :=
  let z := set_r0 (rcksum_calc_rsum_block (Js.subarray_from data x) (blocksize z)) z in
  if 1 <? seq_matches z
  then set_r1 (rcksum_calc_rsum_block (Js.subarray_from data (x + blocksize z)) (blocksize z)) z
  else z.

End Scan.

(** ** zsync/rsum.ts: the scan of a local file *)
Module ScanFile.
Import Internal Hash Range Rsum Stdio Scan.

(** [feof(f)]: nothing is left to read. *)
Definition feof (f : FILE) : bool := bool_decide (f = []).

(** One round of the loop of [rcksum_submit_source_file]: [buf] is the
    buffer of [bufsize + context] bytes and [in2] the number of bytes of the
    stream that earlier rounds have taken in. *)
Definition source_file_step (bufsize : Z) (z : rcksum_state) (f : FILE) (buf : list Z)
    (in2 : Z) : res (rcksum_state * FILE * list Z * Z) :=
  let start_in := in2 in
  '(buf, f, len, in2) ←
    (if in2 =? 0 then
       '(buf, f, len) ← fread buf bufsize f 0;
       Ok (buf, f, len, in2 + len)
     else
       match Js.typed_set buf (Js.subarray buf (bufsize - context z) bufsize) 0 with
       | None => Throw "RangeError"
       | Some buf =>
           '(buf, f, n) ← fread buf (bufsize - context z) f (context z);
           Ok (buf, f, context z + n, in2 + (bufsize - context z))
       end);
  let '(buf, len) := if feof f then (Js.fill buf 0 len (len + context z), len + context z)
                     else (buf, len) in
  z ← rcksum_submit_source_data z buf len start_in;
  Ok (z, f, buf, in2).

Fixpoint source_file_loop (fuel : nat) (bufsize : Z) (z : rcksum_state) (f : FILE)
    (buf : list Z) (in2 : Z) : res rcksum_state :=
  if feof f then Ok z
  else match fuel with
       | O => Undef
       | S fuel' =>
           '(z, f, buf, in2) ← source_file_step bufsize z f buf in2;
           source_file_loop fuel' bufsize z f buf in2
       end.

(** [rcksum_submit_source_file(z, f)]; a round that reads nothing would
    repeat for ever, and ends the run of the model with [Undef]. *)
Definition rcksum_submit_source_file (z : rcksum_state) (f : FILE) : res rcksum_state :=
  let bufsize := blocksize z * 16 in
  let buf := replicate (Z.to_nat (bufsize + context z)) 0 in
  z ← (match rsum_hash z with None => build_hash z | Some _ => Ok z end);
  source_file_loop (S (length f)) bufsize z f buf 0.

End ScanFile.

(** ** Vocabulary for the table of block sums in the control file *)
Module TableView.

(** The checksum that the table in [f] gives block [i]: the bytes at its
    place, and zeros for the bytes that a short file does not have. *)
Definition table_sum (f : list Z) (rsum_bytes checksum_bytes i : Z) : list Z :=
  let got := take (Z.to_nat checksum_bytes)
               (drop (Z.to_nat (i * (rsum_bytes + checksum_bytes) + rsum_bytes)) f) in
  got ++ replicate (Z.to_nat checksum_bytes - length got) 0.

End TableView.

(** ** zsync/client.ts: the name of the output file *)
Module Names.
Import Zsync.

(** Strings are sequences of code units below 256. *)
Definition code (c : Ascii.ascii) : Z := Z.of_N (Ascii.N_of_ascii c).

(** The character [/] (47).  The letters [a] and [z] are 97 and 122, the
    digits [0] and [9] are 48 and 57. *)
Definition slash : Ascii.ascii := Ascii.ascii_of_N 47.

(** [toLowerCase] on one such code unit. *)
Definition toLowerCase (c : Ascii.ascii) : Ascii.ascii :=
  let n := code c in
  if ((65 <=? n) && (n <=? 90)) || ((192 <=? n) && (n <=? 222) && negb (n =? 215))
  then Ascii.ascii_of_N (Z.to_N (n + 32)) else c.

(** [isalnum(s, i)]; [s[i]] past the end is [undefined], on which
    [toLowerCase] is a [TypeError]. *)
Definition isalnum (s : string) (i : nat) : res bool :=
  match String.get i s with
  | None => Throw "TypeError"
  | Some c0 =>
      let c := code (toLowerCase c0) in
      Ok (((97 <=? c) && (c <=? 122)) || ((48 <=? c) && (57 <=? c)))
  end.

(** [s.lastIndexOf(c)] and [s.indexOf(c)] for a one-character [c]; [None]
    stands for -1. *)
Fixpoint lastIndexOf (c : Ascii.ascii) (s : string) : option nat :=
  match s with
  | EmptyString => None
  | String d s' =>
      match lastIndexOf c s' with
      | Some i => Some (S i)
      | None => if decide (d = c) then Some 0%nat else None
      end
  end.
Fixpoint indexOf (c : Ascii.ascii) (s : string) : option nat :=
  match s with
  | EmptyString => None
  | String d s' => if decide (d = c) then Some 0%nat else S <$> indexOf c s'
  end.

(** [s.substring(n)]. *)
Definition substring_from (n : nat) (s : string) : string :=
  String.substring n (String.length s - n) s.

(** The [while (isalnum(t, ui)) ui++] of [get_filename_prefix]; it ends
    within [length t + 1] rounds. *)
Fixpoint prefix_loop (fuel : nat) (t : string) (ui : nat) : res nat :=
  match fuel with
  | O => Undef
  | S fuel' => ok ← isalnum t ui; if (ok : bool) then prefix_loop fuel' t (S ui) else Ok ui
  end.

Definition get_filename_prefix (p : string) : res string :=
  let t := match lastIndexOf slash p with
           | Some ti => substring_from (ti + 1) p
           | None => p
           end in
  ui ← prefix_loop (S (String.length t)) t 0;
  Ok (String.substring 0 ui t).

(** [get_filename(zs, source_name)].  The last fallback, ["zsync-download"],
    stands behind a test for null that a string never meets. *)
Definition get_filename (zs : zsync_state) (source_name : string) : res string :=
  filename ←
    match filename zs with
    | Some p =>
        if bool_decide (is_Some (indexOf slash p))
        then Throw "Rejected filename, contained path component"
        else
          t ← get_filename_prefix source_name;
          let filename :=
            if negb (bool_decide (t = EmptyString)) && String.prefix t p then Some p else None in
          if negb (bool_decide (t = EmptyString)) && bool_decide (filename = None)
          then Throw "Rejected filename, prefix differed from filename"
          else Ok filename
    | None => Ok None
    end;
  match filename with
  | Some f => Ok f
  | None => get_filename_prefix source_name
  end.

(** No character of [s] is [c]. *)
Definition without (c : Ascii.ascii) (s : string) : Prop := ∀ i, String.get i s ≠ Some c.

(** Every character of [s] is [9] or comes after it. *)
Definition from_nine (s : string) : Prop := ∀ i d, String.get i s = Some d → 57 ≤ code d.

End Names.

(** * Properties *)

(** ** The digests on the test vectors of RFC 1320 and RFC 3174 *)
Module DigestFacts.
Import Digest.

Example md4_empty : hex (md4 []) = "31d6cfe0d16ae931b73c59d7e0c089c0"%string.
Proof. vm_compute. reflexivity. Qed.
Example md4_abc : hex (md4 (ascii_bytes "abc")) = "a448017aaf21d8525fc10ae87aa6729d"%string.
Proof. vm_compute. reflexivity. Qed.
Example md4_long :
  hex (md4 (ascii_bytes
    "12345678901234567890123456789012345678901234567890123456789012345678901234567890"))
  = "e33b4ddc9c38f2199c3e7b164fcc0536"%string.
Proof. vm_compute. reflexivity. Qed.
Example sha1_empty : hex (sha1 []) = "da39a3ee5e6b4b0d3255bfef95601890afd80709"%string.
Proof. vm_compute. reflexivity. Qed.
Example sha1_abc : hex (sha1 (ascii_bytes "abc")) = "a9993e364706816aba3e25717850c26c9cd0d89d"%string.
Proof. vm_compute. reflexivity. Qed.
Example sha1_two_blocks :
  hex (sha1 (ascii_bytes "abcdbcdecdefdefgefghfghighijhijkijkljklmklmnlmnomnopnopq"))
  = "84983e441c3bd26ebaae4aa1f95129e5e54670f1"%string.
Proof. vm_compute. reflexivity. Qed.

End DigestFacts.

(** ** The known ranges *)
Module RangeFacts.
Import Internal Range Scenario.

Lemma flat_app A B : flat (A ++ B) = flat A ++ flat B.
Proof. apply bind_app. Qed.

Lemma flat_cons p ps : flat (p :: ps) = p.1 :: p.2 :: flat ps.
Proof. reflexivity. Qed.

Lemma flat_length ps : length (flat ps) = (2 * length ps)%nat.
Proof. induction ps as [|p ps IH]; [done|]. rewrite flat_cons. cbn [length]. rewrite IH. lia. Qed.

Lemma flat_lookup ps (k : nat) :
  flat ps !! (2 * k)%nat = fst <$> ps !! k ∧ flat ps !! (2 * k + 1)%nat = snd <$> ps !! k.
Proof.
  revert k. induction ps as [|p ps IH]; intros k.
  - done.
  - destruct k as [|k]; [done|].
    replace (2 * S k)%nat with (S (S (2 * k))) by lia.
    replace (S (S (2 * k)) + 1)%nat with (S (S (2 * k + 1))) by lia.
    rewrite flat_cons. simpl. apply IH.
Qed.

Lemma flat_get ps i :
  0 ≤ i →
  Js.get (flat ps) (2 * i) = fst <$> ps !! Z.to_nat i
  ∧ Js.get (flat ps) (2 * i + 1) = snd <$> ps !! Z.to_nat i.
Proof.
  intros Hi. unfold Js.get.
  destruct (Z.ltb_spec (2 * i) 0); [lia|].
  destruct (Z.ltb_spec (2 * i + 1) 0); [lia|].
  replace (Z.to_nat (2 * i)) with (2 * Z.to_nat i)%nat by lia.
  replace (Z.to_nat (2 * i + 1)) with (2 * Z.to_nat i + 1)%nat by lia.
  apply flat_lookup.
Qed.

Lemma canon_app A B :
  canon (A ++ B) ↔ canon A ∧ canon B ∧ Forall (λ p, Forall (λ q, p.2 + 1 < q.1) B) A.
Proof.
  induction A as [|p A IH]; simpl.
  - intuition.
  - rewrite Forall_app, IH, Forall_cons. tauto.
Qed.

Lemma canon_lookup_lt ps (i j : nat) p q :
  canon ps → (i < j)%nat → ps !! i = Some p → ps !! j = Some q → p.2 + 1 < q.1.
Proof.
  revert i j. induction ps as [|a ps IH]; intros i j Hc Hij Hi Hj; [done|].
  destruct Hc as (Ha & Hall & Hc).
  destruct i as [|i], j as [|j]; simpl in *; try lia.
  - injection Hi as <-. rewrite Forall_lookup in Hall. eauto.
  - apply (IH i j); [done|lia|done|done].
Qed.

Lemma canon_lookup_le ps (i : nat) p : canon ps → ps !! i = Some p → p.1 ≤ p.2.
Proof.
  revert i. induction ps as [|a ps IH]; intros i Hc Hi; [done|].
  destruct Hc as (Ha & Hall & Hc). destruct i; simpl in *; [by injection Hi as <-|eauto].
Qed.

Lemma shr1 v : 0 ≤ v < 2^31 → Js.shr v 1 = v / 2.
Proof.
  intros Hv. unfold Js.shr, Js.to_int32, Js.to_uint32.
  replace (1 mod 2 ^ 32 mod 32) with 1 by reflexivity.
  rewrite Z.shiftr_div_pow2 by lia.
  replace ((v + 2 ^ 31) mod 2 ^ 32) with (v + 2^31); [f_equal; lia|].
  symmetry. apply Z.mod_small. lia.
Qed.

Lemma bisect_spec ps x fuel min max :
  canon ps → Z.of_nat (length ps) ≤ 2^30 →
  0 ≤ min → max < Z.of_nat (length ps) → min ≤ max + 1 → max - min + 1 ≤ Z.of_nat fuel →
  (∀ (i : nat) p, ps !! i = Some p → Z.of_nat i < min → p.2 < x) →
  (∀ (i : nat) p, ps !! i = Some p → max < Z.of_nat i → x < p.1) →
  let r := bisect fuel (flat ps) x min max in
  (r = -1 ∧ covered ps x) ∨ split_at ps x r.
Proof.
  intros Hc Hn. revert min max. induction fuel as [|fuel IH]; intros min max Hmin Hmax Hmm Hf Hlo Hhi; simpl.
  - destruct (Z.ltb_spec max min); [|lia].
    right. repeat split; try lia; eauto. intros. apply (Hhi i); [done|lia].
  - destruct (Z.ltb_spec max min).
    { right. repeat split; try lia; eauto. intros. apply (Hhi i); [done|lia]. }
    rewrite shr1 by lia.
    set (r := (max + min) / 2).
    assert (min ≤ r ≤ max) as Hr by (unfold r; split; [apply Z.div_le_lower_bound|apply Z.div_le_upper_bound]; lia).
    destruct (flat_get ps r ltac:(lia)) as [-> ->].
    destruct (lookup_lt_is_Some_2 ps (Z.to_nat r) ltac:(lia)) as [[lo hi] Hp].
    rewrite Hp. simpl.
    destruct (Z.ltb_spec hi x).
    { apply IH; try lia; [|done].
      intros i p Hi Hlt. destruct (decide (i = Z.to_nat r)) as [->|].
      - rewrite Hp in Hi. by injection Hi as <-.
      - pose proof (canon_lookup_lt ps i (Z.to_nat r) p (lo, hi) Hc ltac:(lia) Hi Hp).
        pose proof (canon_lookup_le ps _ _ Hc Hp). simpl in *. lia. }
    destruct (Z.ltb_spec x lo).
    { apply IH; try lia; [done|].
      intros i p Hi Hlt. destruct (decide (i = Z.to_nat r)) as [->|].
      - rewrite Hp in Hi. by injection Hi as <-.
      - pose proof (canon_lookup_lt ps (Z.to_nat r) i (lo, hi) p Hc ltac:(lia) Hp Hi).
        pose proof (canon_lookup_le ps _ _ Hc Hi). simpl in *. lia. }
    left. split; [done|]. apply Exists_exists. exists (lo, hi).
    split; [by eapply list_elem_of_lookup_2|simpl; lia].
Qed.

Lemma upd_same rs : upd rs (gotblocks rs) (ranges rs) (numranges rs) = rs.
Proof. by destruct rs. Qed.

Lemma upd_upd rs g l n g' l' n' : upd (upd rs g l n) g' l' n' = upd rs g' l' n'.
Proof. reflexivity. Qed.

Lemma get_app_r {A} (X Y : list A) k :
  0 ≤ k → Js.get (X ++ Y) (Z.of_nat (length X) + k) = Js.get Y k.
Proof.
  intros Hk. unfold Js.get.
  destruct (Z.ltb_spec (Z.of_nat (length X) + k) 0); [lia|].
  destruct (Z.ltb_spec k 0); [lia|].
  rewrite lookup_app_r by lia. f_equal. lia.
Qed.

Lemma set_app_r {A} (X Y : list A) a k v :
  k = Z.of_nat (length X) → Js.set (X ++ a :: Y) k v = X ++ v :: Y.
Proof.
  intros ->. unfold Js.set.
  destruct (Z.ltb_spec (Z.of_nat (length X)) 0); [lia|].
  destruct (Z.eqb_spec (Z.of_nat (length X)) (Z.of_nat (length (X ++ a :: Y)))) as [E|_].
  { rewrite length_app in E. simpl in E. lia. }
  rewrite Nat2Z.id. rewrite insert_app_r_alt by lia. by rewrite Nat.sub_diag.
Qed.

Lemma splice_app {A} (X M Y items : list A) s d :
  s = Z.of_nat (length X) → d = Z.of_nat (length M) →
  Js.splice (X ++ M ++ Y) s d items = X ++ items ++ Y.
Proof.
  intros -> ->. unfold Js.splice, Js.rel_index.
  destruct (Z.ltb_spec (Z.of_nat (length X)) 0); [lia|].
  rewrite !length_app.
  rewrite Z.min_l by lia. rewrite Nat2Z.id.
  rewrite take_app_length. f_equal. f_equal.
  rewrite Z.max_l by lia. rewrite Z.min_l by lia.
  replace (Z.to_nat (Z.of_nat (length X) + Z.of_nat (length M))) with (length X + length M)%nat by lia.
  rewrite drop_app_add'; [|done]. by rewrite drop_app_length.
Qed.

Lemma split_at_decompose ps x r :
  split_at ps x r →
  ∃ A B, ps = A ++ B ∧ r = Z.of_nat (length A)
         ∧ Forall (λ p, p.2 < x) A ∧ Forall (λ p, x < p.1) B.
Proof.
  intros (Hr & Hlo & Hhi).
  exists (take (Z.to_nat r) ps), (drop (Z.to_nat r) ps).
  split; [by rewrite take_drop|]. split; [rewrite length_take; lia|]. split.
  - apply Forall_lookup. intros i p Hi. apply lookup_take_Some in Hi as [Hi ?]. apply (Hlo i); [done|lia].
  - apply Forall_lookup. intros i p Hi. rewrite lookup_drop in Hi. apply (Hhi _ _ Hi). lia.
Qed.

Lemma covered_app A B x : covered (A ++ B) x ↔ covered A x ∨ covered B x.
Proof. apply Exists_app. Qed.

Lemma not_covered_split A B x :
  Forall (λ p, p.2 < x) A → Forall (λ p, x < p.1) B → ¬ covered (A ++ B) x.
Proof.
  intros HA HB [H|H]%covered_app; apply Exists_exists in H as (p & Hp & Hx).
  - rewrite Forall_forall in HA. specialize (HA p Hp). simpl in *. lia.
  - rewrite Forall_forall in HB. specialize (HB p Hp). simpl in *. lia.
Qed.

Lemma left_of_facts x A A1 lo :
  canon A → Forall (λ p, p.2 < x) A → left_of x A A1 lo →
  canon A1 ∧ Forall (λ p, p.2 + 1 < lo) A1 ∧ lo ≤ x ∧ A1 ⊆ A
  ∧ (∀ y, covered A1 y ∨ lo ≤ y ≤ x ↔ covered A y ∨ y = x).
Proof.
  intros Hc Hb [A' l ->|Hfar].
  - apply canon_app in Hc as (Hc1 & Hc2 & Hsep). cbn [canon fst snd] in Hc2.
    apply Forall_app in Hb as [Hb1 Hb2].
    repeat split; try done.
    + eapply Forall_impl; [exact Hsep|]. intros p Hp. cbn beta in Hp. rewrite Forall_singleton in Hp. cbn [fst snd] in *. lia.
    + lia.
    + intros p Hp. apply elem_of_app. by left.
    + intros [H|H]; [left; apply covered_app; by left|].
      destruct (decide (y = x)) as [->|]; [by right|].
      left. apply covered_app. right. apply Exists_cons. left. simpl. lia.
    + intros [[H|H]%covered_app| ->]; [by left| |right; cbn [fst snd] in *; lia].
      apply Exists_cons in H as [H|H]; [right; cbn [fst snd] in *; lia|by apply Exists_nil in H].
  - repeat split; try done; try lia.
    + destruct A as [|a0 A0 _] using rev_ind; [done|].
      specialize (Hfar a0 ltac:(by rewrite last_snoc)).
      apply Forall_app. apply canon_app in Hc as (Hc1 & Hc2 & Hsep). cbn [canon fst snd] in Hc2.
      apply Forall_app in Hb as [Hb1 Hb2]. rewrite Forall_singleton in Hb2.
      destruct Hc2 as (Hle & _ & _).
      split.
      * eapply Forall_impl; [exact Hsep|]. intros p Hp. cbn beta in Hp. rewrite Forall_singleton in Hp. cbn [fst snd] in *. lia.
      * apply Forall_singleton. lia.
    + intros [H|H]; [by left|right; lia].
    + intros [H| ->]; [by left|right; lia].
Qed.

Lemma right_of_facts x B B1 hi :
  canon B → Forall (λ p, x < p.1) B → right_of x B B1 hi →
  canon B1 ∧ Forall (λ q, hi + 1 < q.1) B1 ∧ x ≤ hi ∧ B1 ⊆ B
  ∧ (∀ y, covered B1 y ∨ x ≤ y ≤ hi ↔ covered B y ∨ y = x).
Proof.
  intros Hc Hb [B' h ->|Hfar].
  - destruct Hc as (Hle & Hsep & Hc). cbn [fst snd] in *.
    repeat split; try done; try lia.
    + intros p Hp. by apply elem_of_cons; right.
    + intros [H|H]; [left; by apply Exists_cons; right|].
      destruct (decide (y = x)) as [->|]; [by right|].
      left. apply Exists_cons. left. simpl. lia.
    + intros [[H|H]%Exists_cons| ->]; [right; cbn [fst snd] in *; lia|by left|right; lia].
  - repeat split; try done; try lia.
    + destruct B as [|b B]; [done|].
      specialize (Hfar b eq_refl). destruct Hc as (Hle & Hsep & Hc).
      apply Forall_cons in Hb as [Hb1 Hb2].
      apply Forall_cons. split; [lia|].
      eapply Forall_impl; [exact Hsep|]. simpl. intros; lia.
    + intros [H|H]; [by left|right; lia].
    + intros [H| ->]; [by left|right; lia].
Qed.

Lemma insert_facts x A B A1 lo B1 hi :
  canon (A ++ B) → Forall (λ p, p.2 < x) A → Forall (λ p, x < p.1) B →
  left_of x A A1 lo → right_of x B B1 hi →
  canon (A1 ++ [(lo, hi)] ++ B1)
  ∧ ∀ y, covered (A1 ++ [(lo, hi)] ++ B1) y ↔ y = x ∨ covered (A ++ B) y.
Proof.
  intros (HcA & HcB & Hsep)%canon_app HA HB HL HR.
  destruct (left_of_facts _ _ _ _ HcA HA HL) as (HcA1 & HA1 & Hlo & HsubA & HcovA).
  destruct (right_of_facts _ _ _ _ HcB HB HR) as (HcB1 & HB1 & Hhi & HsubB & HcovB).
  split.
  - apply canon_app. split; [done|]. split.
    + simpl. split; [lia|]. split; [done|]. done.
    + rewrite Forall_forall in *. intros p Hp. apply Forall_forall. intros q Hq.
      apply elem_of_app in Hq as [Hq%list_elem_of_singleton|Hq].
      * subst q. simpl. apply HA1. done.
      * specialize (Hsep p (HsubA _ Hp)). rewrite Forall_forall in Hsep. apply Hsep. by apply HsubB.
  - intros y. rewrite !covered_app. unfold covered at 2. rewrite Exists_cons, Exists_nil. simpl.
    specialize (HcovA y). specialize (HcovB y). clear -HcovA HcovB Hlo Hhi.
    destruct (decide (lo ≤ y ≤ x)); destruct (decide (x ≤ y ≤ hi)); split; intros; try (intuition lia).
Qed.

Lemma flat_len_Z A : Z.of_nat (length (flat A)) = 2 * Z.of_nat (length A).
Proof. rewrite flat_length. lia. Qed.

Lemma get_last_hi A' a B :
  Js.get (flat ((A' ++ [a]) ++ B)) (2 * (Z.of_nat (length (A' ++ [a])) - 1) + 1) = Some a.2.
Proof.
  rewrite <- app_assoc, flat_app, length_app. simpl length.
  replace (2 * (Z.of_nat (length A' + 1) - 1) + 1) with (Z.of_nat (length (flat A')) + 1)
    by (rewrite flat_len_Z; lia).
  by rewrite get_app_r.
Qed.

Lemma get_head_lo A B :
  Js.get (flat (A ++ B)) (2 * Z.of_nat (length A)) = fst <$> head B.
Proof.
  rewrite flat_app. replace (2 * Z.of_nat (length A)) with (Z.of_nat (length (flat A)) + 0)
    by (rewrite flat_len_Z; lia).
  rewrite get_app_r by done. by destruct B.
Qed.

Lemma get_head_hi A b B' :
  Js.get (flat (A ++ b :: B')) (2 * Z.of_nat (length A) + 1) = Some b.2.
Proof.
  rewrite flat_app. replace (2 * Z.of_nat (length A) + 1) with (Z.of_nat (length (flat A)) + 1)
    by (rewrite flat_len_Z; lia).
  by rewrite get_app_r.
Qed.

Lemma set_last_hi A' a B v :
  Js.set (flat ((A' ++ [a]) ++ B)) (2 * (Z.of_nat (length (A' ++ [a])) - 1) + 1) v
  = flat ((A' ++ [(a.1, v)]) ++ B).
Proof.
  rewrite <- !app_assoc, !flat_app, length_app. simpl length.
  rewrite !flat_cons. cbn [fst snd app].
  change (flat A' ++ a.1 :: a.2 :: flat [] ++ flat B)
    with (flat A' ++ [a.1] ++ a.2 :: flat [] ++ flat B).
  change (flat A' ++ a.1 :: v :: flat [] ++ flat B)
    with (flat A' ++ [a.1] ++ v :: flat [] ++ flat B).
  rewrite !(app_assoc (flat A')). apply set_app_r.
  rewrite length_app, flat_length. simpl. lia.
Qed.

Lemma set_head_lo A b B' v :
  Js.set (flat (A ++ b :: B')) (2 * Z.of_nat (length A)) v = flat (A ++ (v, b.2) :: B').
Proof.
  rewrite !flat_app, !flat_cons. cbn [fst snd]. apply set_app_r. by rewrite flat_len_Z.
Qed.

Lemma splice_del A b B' :
  Js.splice (flat (A ++ b :: B')) (2 * Z.of_nat (length A)) 2 [] = flat (A ++ B').
Proof.
  rewrite !flat_app, flat_cons.
  change (flat A ++ b.1 :: b.2 :: flat B') with (flat A ++ [b.1; b.2] ++ flat B').
  rewrite splice_app; [done|by rewrite flat_len_Z|done].
Qed.

Lemma splice_ins A B x :
  Js.splice (flat (A ++ B)) (2 * Z.of_nat (length A)) 0 [x; x] = flat (A ++ (x, x) :: B).
Proof.
  rewrite !flat_app, flat_cons.
  change (flat A ++ flat B) with (flat A ++ [] ++ flat B).
  rewrite splice_app; [done|by rewrite flat_len_Z|done].
Qed.

Lemma get_last_hi_end A' a :
  Js.get (flat (A' ++ [a])) (2 * (Z.of_nat (length (A' ++ [a])) - 1) + 1) = Some a.2.
Proof. pose proof (get_last_hi A' a []) as H. by rewrite app_nil_r in H. Qed.

Lemma get_head_lo_end A : Js.get (flat A) (2 * Z.of_nat (length A)) = None.
Proof. pose proof (get_head_lo A []) as H. by rewrite app_nil_r in H. Qed.

Lemma set_last_hi_end A' a v :
  Js.set (flat (A' ++ [a])) (2 * (Z.of_nat (length (A' ++ [a])) - 1) + 1) v
  = flat (A' ++ [(a.1, v)]).
Proof. pose proof (set_last_hi A' a [] v) as H. by rewrite !app_nil_r in H. Qed.

Lemma splice_ins_end A x :
  Js.splice (flat A) (2 * Z.of_nat (length A)) 0 [x; x] = flat (A ++ [(x, x)]).
Proof. pose proof (splice_ins A [] x) as H. by rewrite !app_nil_r in H. Qed.

Lemma upd_keep rs g l : set_ranges l (set_gotblocks g rs) = upd rs g l (numranges rs).
Proof. by destruct rs. Qed.

Lemma upd_eq rs g l n l' n' : l = l' → n = n' → upd rs g l n = upd rs g l' n'.
Proof. by intros -> ->. Qed.

Lemma eq3_Some v x : Js.eq3 (Some v) x = (v =? x).
Proof. reflexivity. Qed.

(** [add_to_ranges] on a list split at the position the bisection found. *)
Lemma add_to_ranges_split rs x A B :
  ranges rs = flat (A ++ B) → numranges rs = Z.of_nat (length (A ++ B)) →
  range_before_block rs x = Z.of_nat (length A) →
  ∃ A1 lo B1 hi, left_of x A A1 lo ∧ right_of x B B1 hi
    ∧ add_to_ranges rs x
      = Ok (upd rs (gotblocks rs + 1) (flat (A1 ++ [(lo, hi)] ++ B1))
                (Z.of_nat (length (A1 ++ [(lo, hi)] ++ B1)))).
Proof.
  intros Hrg Hn Hr. unfold add_to_ranges. rewrite Hr.
  destruct (Z.eqb_spec (Z.of_nat (length A)) (-1)) as [|_]; [lia|].
  assert (∀ g, ranges (set_gotblocks g rs) = ranges rs) as -> by done.
  assert (∀ g, numranges (set_gotblocks g rs) = numranges rs) as -> by done.
  rewrite Hrg, Hn.
  destruct A as [|a A' _] using rev_ind; destruct B as [|b B'].
  - exists [], x, [], x. split; [by apply left_apart|]. split; [by apply right_apart|].
    reflexivity.
  - assert ((0 <? Z.of_nat (length (@nil (Z * Z)))) = false) as -> by done. cbn [andb].
    rewrite get_head_lo. cbn [head fmap option_fmap option_map]. rewrite eq3_Some.
    assert ((Z.of_nat (length (@nil (Z * Z))) <? Z.of_nat (length ([] ++ b :: B'))) = true) as -> by done.
    cbn [andb].
    destruct (Z.eqb_spec b.1 (x + 1)) as [E|E].
    + exists [], x, B', b.2. split; [by apply left_apart|].
      split; [apply right_adjoins; destruct b; simpl in *; by subst|].
      rewrite set_head_lo, upd_keep, Hn. apply (f_equal Ok), upd_eq; [done|rewrite !length_app; cbn [length]; lia].
    + exists [], x, (b :: B'), x. split; [by apply left_apart|].
      split; [apply right_apart; by intros ? [= <-]|].
      rewrite splice_ins. apply (f_equal Ok), upd_eq; [done|rewrite !length_app; cbn [length]; lia].
  - rewrite !app_nil_r, get_last_hi_end, get_head_lo_end, eq3_Some. cbn [Js.eq3].
    rewrite Z.ltb_irrefl. rewrite !andb_false_r. cbn [andb].
    assert ((0 <? Z.of_nat (length (A' ++ [a]))) = true) as ->
      by (apply Z.ltb_lt; rewrite length_app; cbn [length]; lia).
    assert ((Z.of_nat (length (A' ++ [a])) =? 0) = false) as ->
      by (apply Z.eqb_neq; rewrite length_app; cbn [length]; lia).
    cbn [andb negb]. rewrite app_nil_r in Hn.
    destruct (Z.eqb_spec a.2 (x - 1)) as [E|E].
    + exists A', a.1, [], x. split; [apply left_adjoins; destruct a; simpl in *; by subst|].
      split; [by apply right_apart|].
      rewrite set_last_hi_end, upd_keep, Hn.
      apply (f_equal Ok), upd_eq; [done|rewrite !length_app; cbn [length]; lia].
    + exists (A' ++ [a]), x, [], x. split; [apply left_apart; intros ?; rewrite last_snoc; by intros [= <-]|].
      split; [by apply right_apart|].
      rewrite splice_ins_end.
      apply (f_equal Ok), upd_eq; [done|rewrite !length_app; cbn [length]; lia].
  - rewrite get_last_hi, get_head_lo, !eq3_Some. cbn [head fmap option_fmap option_map Js.eq3].
    assert ((0 <? Z.of_nat (length (A' ++ [a]))) = true) as ->
      by (apply Z.ltb_lt; rewrite length_app; cbn [length]; lia).
    assert ((Z.of_nat (length (A' ++ [a])) <? Z.of_nat (length ((A' ++ [a]) ++ b :: B'))) = true) as ->
      by (apply Z.ltb_lt; rewrite !length_app; cbn [length]; lia).
    assert ((Z.of_nat (length ((A' ++ [a]) ++ b :: B')) =? 0) = false) as ->
      by (apply Z.eqb_neq; rewrite !length_app; cbn [length]; lia).
    cbn [andb negb].
    destruct (Z.eqb_spec a.2 (x - 1)) as [Ea|Ea]; destruct (Z.eqb_spec b.1 (x + 1)) as [Eb|Eb]; cbn [andb].
    + exists A', a.1, B', b.2. split; [apply left_adjoins; destruct a; simpl in *; by subst|].
      split; [apply right_adjoins; destruct b; simpl in *; by subst|].
      rewrite get_head_hi. cbn [num mbind res_bind].
      rewrite set_last_hi.
      replace (2 * Z.of_nat (length (A' ++ [a]))) with (2 * Z.of_nat (length (A' ++ [(a.1, b.2)])))
        by (rewrite !length_app; reflexivity).
      rewrite splice_del.
      apply (f_equal Ok), upd_eq; [by rewrite <- app_assoc|rewrite !length_app; cbn [length]; lia].
    + exists A', a.1, (b :: B'), x. split; [apply left_adjoins; destruct a; simpl in *; by subst|].
      split; [apply right_apart; by intros ? [= <-]|].
      rewrite set_last_hi, upd_keep, Hn.
      apply (f_equal Ok), upd_eq; [by rewrite <- app_assoc|rewrite !length_app; cbn [length]; lia].
    + exists (A' ++ [a]), x, B', b.2.
      split; [apply left_apart; intros ?; rewrite last_snoc; by intros [= <-]|].
      split; [apply right_adjoins; destruct b; simpl in *; by subst|].
      rewrite set_head_lo, upd_keep, Hn. apply (f_equal Ok), upd_eq; [done|rewrite !length_app; cbn [length]; lia].
    + exists (A' ++ [a]), x, (b :: B'), x.
      split; [apply left_apart; intros ?; rewrite last_snoc; by intros [= <-]|].
      split; [apply right_apart; by intros ? [= <-]|].
      rewrite splice_ins. apply (f_equal Ok), upd_eq; [done|rewrite !length_app; cbn [length]; lia].
Qed.

Lemma canon_sorted_disjoint ps : canon ps → sorted_disjoint (flat ps).
Proof.
  induction ps as [|p ps IH]; [done|]. intros (Hle & Hall & Hc).
  rewrite flat_cons. cbn [sorted_disjoint]. split; [done|]. split; [|by apply IH].
  destruct ps as [|q ps]; [done|]. rewrite flat_cons.
  apply Forall_cons in Hall as [Hq _]. lia.
Qed.

Lemma known_covered rs ps x : ranges rs = flat ps → known rs x ↔ covered ps x.
Proof.
  intros Hrg. unfold known. rewrite Hrg. split.
  - intros (i & lo & hi & Hi & Hlo & Hhi & Hx).
    destruct (flat_get ps i Hi) as [E1 E2]. rewrite E1 in Hlo. rewrite E2 in Hhi.
    destruct (ps !! Z.to_nat i) as [p|] eqn:Hp; [|done].
    apply Exists_exists. exists p. split; [by eapply list_elem_of_lookup_2|].
    simpl in *. injection Hlo as <-. injection Hhi as <-. done.
  - intros (p & Hp & Hx)%Exists_exists. apply list_elem_of_lookup_1 in Hp as [i Hi].
    exists (Z.of_nat i), p.1, p.2. destruct (flat_get ps (Z.of_nat i) ltac:(lia)) as [-> ->].
    rewrite Nat2Z.id, Hi. repeat split; try done; lia.
Qed.

Lemma add_to_ranges_spec rs ps x :
  ranges rs = flat ps → numranges rs = Z.of_nat (length ps) → canon ps →
  Z.of_nat (length ps) ≤ 2^30 →
  ∃ qs, add_to_ranges rs x
        = Ok (upd rs (gotblocks rs + (if decide (covered ps x) then 0 else 1))
                  (flat qs) (Z.of_nat (length qs)))
    ∧ canon qs ∧ (∀ y, covered qs y ↔ y = x ∨ covered ps y)
    ∧ (length qs ≤ length ps + 1)%nat.
Proof.
  intros Hrg Hn Hc Hb.
  assert ((range_before_block rs x = -1 ∧ covered ps x)
          ∨ split_at ps x (range_before_block rs x)) as [[Hr Hcov]|Hsp].
  { unfold range_before_block. rewrite Hrg.
    apply bisect_spec; try done; try lia; intros i p Hi%lookup_lt_Some ?; lia. }
  - exists ps. unfold add_to_ranges. rewrite Hr. cbn [Z.eqb Pos.eqb].
    destruct (decide (covered ps x)); [|done].
    rewrite Z.add_0_r, <- Hrg, <- Hn, upd_same.
    split; [done|]. split; [done|]. split; [|lia].
    intros y. split; [by right|]. by intros [->|].
  - apply split_at_decompose in Hsp as (A & B & -> & Hr & HA & HB).
    destruct (add_to_ranges_split rs x A B Hrg Hn Hr) as (A1 & lo & B1 & hi & HL & HR & ->).
    destruct (insert_facts x A B A1 lo B1 hi Hc HA HB HL HR) as [Hc' Hcov'].
    exists (A1 ++ [(lo, hi)] ++ B1).
    destruct (decide (covered (A ++ B) x)) as [Hx|_]; [by apply not_covered_split in Hx|].
    split; [done|]. split; [done|]. split; [done|].
    rewrite !length_app. cbn [length].
    assert (length A1 ≤ length A)%nat.
    { destruct HL as [A' l ->|]; [rewrite length_app; simpl|]; lia. }
    assert (length B1 ≤ length B)%nat.
    { destruct HR as [B' h ->|]; [simpl|]; lia. }
    lia.
Qed.

Lemma covered_tail_gt p ps y : canon (p :: ps) → covered ps y → p.2 + 1 < y.
Proof.
  intros (Hle & Hall & Hc) (q & Hq & Hy)%Exists_exists.
  rewrite Forall_forall in Hall. specialize (Hall q Hq). simpl in Hall. lia.
Qed.

Lemma covered_cons p ps y : covered (p :: ps) y ↔ p.1 ≤ y ≤ p.2 ∨ covered ps y.
Proof. apply Exists_cons. Qed.

(** A set of blocks has one canonical list of ranges. *)
Lemma canon_unique ps qs :
  canon ps → canon qs → (∀ y, covered ps y ↔ covered qs y) → ps = qs.
Proof.
  revert qs. induction ps as [|p ps IH]; intros qs Hp Hq Heq.
  - destruct qs as [|q qs]; [done|]. destruct Hq as (Hle & _).
    assert (covered [] q.1) as H%Exists_nil; [|done].
    apply Heq, covered_cons. left. lia.
  - destruct qs as [|q qs].
    { destruct Hp as (Hle & _).
      assert (covered [] p.1) as H%Exists_nil; [|done].
      apply Heq, covered_cons. left. lia. }
    pose proof Hp as (Hlep & _ & Hp'). pose proof Hq as (Hleq & _ & Hq').
    assert (∀ y, covered (p :: ps) y → p.1 ≤ y) as Hlowp.
    { intros y [?|H]%covered_cons; [lia|]. pose proof (covered_tail_gt _ _ _ Hp H). lia. }
    assert (∀ y, covered (q :: qs) y → q.1 ≤ y) as Hlowq.
    { intros y [?|H]%covered_cons; [lia|]. pose proof (covered_tail_gt _ _ _ Hq H). lia. }
    assert (p.1 = q.1) as E1.
    { assert (covered (q :: qs) p.1) as ?%Hlowq by (apply Heq, covered_cons; left; lia).
      assert (covered (p :: ps) q.1) as ?%Hlowp by (apply Heq, covered_cons; left; lia).
      lia. }
    assert (p.2 = q.2) as E2.
    { destruct (Z.lt_trichotomy p.2 q.2) as [Hlt|[?|Hlt]]; [|done|].
      - assert (covered (p :: ps) (p.2 + 1)) as [?|H]%covered_cons;
          [apply Heq, covered_cons; left; lia|lia|].
        pose proof (covered_tail_gt _ _ _ Hp H). lia.
      - assert (covered (q :: qs) (q.2 + 1)) as [?|H]%covered_cons;
          [apply Heq, covered_cons; left; lia|lia|].
        pose proof (covered_tail_gt _ _ _ Hq H). lia. }
    assert (p = q) as -> by (destruct p, q; simpl in *; congruence).
    f_equal. apply IH; [done|done|].
    intros y. split; intros Hy.
    + pose proof (covered_tail_gt _ _ _ Hp Hy).
      assert (covered (q :: qs) y) as [?|?]%covered_cons; [apply Heq, covered_cons; by right|lia|done].
    + pose proof (covered_tail_gt _ _ _ Hq Hy).
      assert (covered (q :: ps) y) as [?|?]%covered_cons; [apply Heq, covered_cons; by right|lia|done].
Qed.

Lemma ranges_upd rs g l n : ranges (upd rs g l n) = l.
Proof. reflexivity. Qed.

Lemma numranges_upd rs g l n : numranges (upd rs g l n) = n.
Proof. reflexivity. Qed.

Lemma gotblocks_upd rs g l n : gotblocks (upd rs g l n) = g.
Proof. reflexivity. Qed.

(** C9: on a well-formed list of known ranges, adding [x] then [y] gives the
    same state as adding [y] then [x], adding [x] twice is the same as adding
    it once, and the list stays sorted and disjoint (with the gaps that make
    it canonical) and holds exactly the old blocks and [x]. *)
Theorem add_to_ranges_commutative_idempotent rs x y :
  ranges_ok rs → numranges rs + 2 ≤ 2^30 →
  ∃ rs1 rs2 rs12,
    add_to_ranges rs x = Ok rs1 ∧ add_to_ranges rs y = Ok rs2
    ∧ add_to_ranges rs1 y = Ok rs12 ∧ add_to_ranges rs2 x = Ok rs12
    ∧ add_to_ranges rs1 x = Ok rs1
    ∧ ranges_ok rs1 ∧ sorted_disjoint (ranges rs1)
    ∧ ∀ z, known rs1 z ↔ z = x ∨ known rs z.
Proof.
  intros (ps & Hrg & Hn & Hc) Hb.
  destruct (add_to_ranges_spec rs ps x Hrg Hn Hc ltac:(lia)) as (q1 & E1 & Hc1 & Hcov1 & Hl1).
  destruct (add_to_ranges_spec rs ps y Hrg Hn Hc ltac:(lia)) as (q2 & E2 & Hc2 & Hcov2 & Hl2).
  set (rs1 := upd rs _ (flat q1) _) in E1. set (rs2 := upd rs _ (flat q2) _) in E2.
  destruct (add_to_ranges_spec rs1 q1 y eq_refl eq_refl Hc1 ltac:(lia))
    as (q12 & E12 & Hc12 & Hcov12 & _).
  destruct (add_to_ranges_spec rs2 q2 x eq_refl eq_refl Hc2 ltac:(lia))
    as (q21 & E21 & Hc21 & Hcov21 & _).
  destruct (add_to_ranges_spec rs1 q1 x eq_refl eq_refl Hc1 ltac:(lia))
    as (q11 & E11 & Hc11 & Hcov11 & _).
  assert (q21 = q12) as ->.
  { apply canon_unique; [done|done|]. intros z. rewrite Hcov12, Hcov21, Hcov1, Hcov2. tauto. }
  assert (covered q1 x) as Hx1 by (apply Hcov1; by left).
  assert (q11 = q1) as ->.
  { apply canon_unique; [done|done|]. intros z. rewrite Hcov11. split; [by intros [->|]|by right]. }
  exists rs1, rs2, (upd rs1 (gotblocks rs1 + (if decide (covered q1 y) then 0 else 1))
                     (flat q12) (Z.of_nat (length q12))).
  split; [done|]. split; [done|]. split; [done|]. split.
  { rewrite E21. f_equal. unfold rs1, rs2. rewrite !upd_upd, !gotblocks_upd. f_equal.
    destruct (decide (x = y)) as [->|Hxy].
    - assert (covered q2 y) by (apply Hcov2; by left).
      repeat case_decide; try lia; tauto.
    - assert (covered q2 x ↔ covered ps x) as Hx2 by (rewrite Hcov2; intuition congruence).
      assert (covered q1 y ↔ covered ps y) as Hy1 by (rewrite Hcov1; intuition congruence).
      repeat case_decide; try lia; tauto. }
  split.
  { rewrite E11. f_equal. destruct (decide (covered q1 x)); [|done].
    unfold rs1. rewrite upd_upd, gotblocks_upd. f_equal. lia. }
  split; [by exists q1|]. split; [by apply canon_sorted_disjoint|].
  intros z. rewrite (known_covered rs1 q1), (known_covered rs ps) by done. apply Hcov1.
Qed.

Lemma add_to_ranges_commutative_idempotent_witness :
  ∃ rs1 rs2 rs12,
    add_to_ranges gapped 3 = Ok rs1 ∧ add_to_ranges gapped 4 = Ok rs2
    ∧ add_to_ranges rs1 4 = Ok rs12 ∧ add_to_ranges rs2 3 = Ok rs12
    ∧ add_to_ranges rs1 3 = Ok rs1
    ∧ ranges_ok rs1 ∧ sorted_disjoint (ranges rs1)
    ∧ ∀ z, known rs1 z ↔ z = 3 ∨ known gapped z.
Proof.
  apply (add_to_ranges_commutative_idempotent gapped 3 4).
  - exists [(1, 2); (5, 5)]. split; [reflexivity|]. split; [reflexivity|].
    simpl. repeat split; try lia; repeat constructor; simpl; lia.
  - simpl. lia.
Defined.

End RangeFacts.

(** ** The index *)
Module HashFacts.
Import Internal Hash Range Rsum Scenario.

Lemma same_data_refl z : same_data z z.
Proof. unfold same_data. repeat split; done. Qed.

Lemma same_data_trans z1 z2 z3 : same_data z1 z2 → same_data z2 z3 → same_data z1 z3.
Proof.
  unfold same_data. intros (?&?&?&?&?&?&?&?&?&?&?&Ha) (?&?&?&?&?&?&?&?&?&?&?&Hb).
  repeat split; try congruence; intros i; by rewrite Hb, Ha.
Qed.

Lemma get_insert {A} (l : list A) (i j : Z) (v : A) :
  0 ≤ i →
  Js.get (<[Z.to_nat i := v]> l) j
  = if decide (i = j ∧ j < Z.of_nat (length l)) then Some v else Js.get l j.
Proof.
  intros Hi. unfold Js.get. destruct (Z.ltb_spec j 0).
  { case_decide; [lia|done]. }
  case_decide as H'.
  - destruct H' as [-> ?]. apply list_lookup_insert_eq. lia.
  - destruct (decide (i = j)) as [->|].
    + rewrite list_insert_ge by lia. done.
    + apply list_lookup_insert_ne. lia.
Qed.

Lemma get_Some_lt {A} (l : list A) i v : Js.get l i = Some v → 0 ≤ i < Z.of_nat (length l).
Proof.
  unfold Js.get. destruct (Z.ltb_spec i 0); [done|]. intros H'%lookup_lt_Some. lia.
Qed.

Lemma get_is_Some {A} (l : list A) i : 0 ≤ i < Z.of_nat (length l) → is_Some (Js.get l i).
Proof.
  intros Hi. unfold Js.get. destruct (Z.ltb_spec i 0); [lia|]. apply lookup_lt_is_Some. lia.
Qed.

Lemma calc_rhash_same z z' i : same_data z z' → calc_rhash z' i = calc_rhash z i.
Proof.
  intros (?&?&?&Hm&?&Hs&?&?&?&?&?&Hd). unfold calc_rhash. rewrite Hs, Hm.
  pose proof (Hd i) as Hi. pose proof (Hd (i + 1)) as Hi1. pose proof (Hd 0) as Hz.
  destruct (Js.get (blockhashes z') i), (Js.get (blockhashes z) i); try done.
  simpl in Hi. injection Hi as Hr _. rewrite Hr.
  destruct (1 <? seq_matches z).
  - destruct (Js.get (blockhashes z') (i + 1)), (Js.get (blockhashes z) (i + 1)); try done.
    simpl in Hi1. injection Hi1 as -> _. done.
  - destruct (Js.get (blockhashes z') 0), (Js.get (blockhashes z) 0); try done.
    simpl in Hz. injection Hz as -> _. done.
Qed.

Lemma calc_rhash_Ok z i :
  0 ≤ i → i + 1 < Z.of_nat (length (blockhashes z)) → ∃ h, calc_rhash z i = Ok h.
Proof.
  intros H0 Hi. unfold calc_rhash.
  destruct (get_is_Some (blockhashes z) i ltac:(lia)) as [e ->].
  destruct (get_is_Some (blockhashes z) (i + 1) ltac:(lia)) as [e1 ->].
  destruct (get_is_Some (blockhashes z) 0 ltac:(lia)) as [e0 ->].
  destruct (1 <? seq_matches z); eauto.
Qed.

Lemma get_set_cases {A} (l : list A) i j v w :
  Js.get (Js.set l i v) j = Some w → w = v ∨ Js.get l j = Some w.
Proof.
  unfold Js.set. destruct (Z.ltb_spec i 0); [by right|].
  destruct (Z.eqb_spec i (Z.of_nat (length l))).
  - unfold Js.get. destruct (Z.ltb_spec j 0); [done|].
    intros [H'|[_ H']]%lookup_app_Some; [by right|].
    left. apply list_lookup_singleton_Some in H' as [_ ->]. done.
  - rewrite get_insert by done. case_decide; [intros [= <-]; by left|by right].
Qed.

Lemma build_step_spec z n :
  build_inv n z → 0 < n →
  ∃ z', build_step z (n - 1) = Ok z' ∧ build_inv (n - 1) z' ∧ same_data z z'.
Proof.
  intros (Hn & Hlen & [tbl Htbl] & Hlinks & Hheads) Hpos. unfold build_step, entry.
  destruct (get_is_Some (blockhashes z) (n - 1) ltac:(lia)) as [e He]. rewrite He.
  destruct (calc_rhash_Ok z (n - 1) ltac:(lia) ltac:(lia)) as [h ->].
  cbn [mbind res_bind]. eexists. split; [reflexivity|]. rewrite Htbl. cbn [default].
  split.
  - unfold build_inv. cbn. rewrite length_insert.
    split; [lia|]. split; [done|]. split; [done|]. split.
    + intros i e0 m Hi. rewrite get_insert by lia. case_decide as Hd.
      * intros [= <-]. cbn. intros Hj.
        destruct (Js.get tbl (Js.and h (hashmask z))) as [[m'|]|] eqn:Hg; try done.
        injection Hj as ->. specialize (Hheads _ _ _ Htbl Hg). lia.
      * intros Hg Hnx. eapply Hlinks; [|done|done]. lia.
    + intros tbl' k h' [= <-] [[= ->]|Hg]%get_set_cases; [lia|].
      specialize (Hheads _ _ _ Htbl Hg). lia.
  - unfold same_data. cbn. rewrite length_insert. repeat split; try done.
    intros i. rewrite get_insert by lia. case_decide as Hd; [|done].
    destruct Hd as [<- _]. by rewrite He.
Qed.

Lemma build_loop_spec n z :
  build_inv (Z.of_nat n) z →
  ∃ z', build_loop n z = Ok z' ∧ build_inv 0 z' ∧ same_data z z'.
Proof.
  revert z. induction n as [|n IH]; intros z Hinv.
  - exists z. split; [done|]. split; [done|]. apply same_data_refl.
  - destruct (build_step_spec z (Z.of_nat (S n)) Hinv ltac:(lia)) as (z1 & E1 & Hinv1 & Hs1).
    replace (Z.of_nat (S n) - 1) with (Z.of_nat n) in * by lia.
    destruct (IH z1 Hinv1) as (z' & E' & Hinv' & Hs').
    exists z'. cbn [build_loop]. rewrite E1. cbn [mbind res_bind]. rewrite E'.
    split; [done|]. split; [done|]. by eapply same_data_trans.
Qed.

Lemma build_hash_spec z :
  0 ≤ blocks z < Z.of_nat (length (blockhashes z)) →
  ∃ z', build_hash z = Ok z' ∧ chain_ok z' ∧ is_Some (rsum_hash z') ∧ same_data z z'.
Proof.
  intros Hb. unfold build_hash. generalize (hash_bits 12 16 (blocks z)). intros nbits.
  set (z0 := set_bithash _ _).
  assert (build_inv (Z.of_nat (Z.to_nat (blocks z0))) z0) as Hinv.
  { unfold build_inv. cbn. rewrite Z2Nat.id by lia.
    split; [lia|]. split; [lia|]. split; [done|]. split; [intros; lia|].
    intros tbl k h [= <-]. unfold Js.get. destruct (k <? 0); [done|].
    intros [? ?]%lookup_replicate. done. }
  destruct (build_loop_spec _ _ Hinv) as (z' & E & (Hn & Hlen & Hsome & Hlinks & Hheads) & Hs).
  exists z'. split; [done|].
  assert (same_data z z0) as Hs0 by (unfold same_data; cbn; repeat split; done).
  pose proof (same_data_trans _ _ _ Hs0 Hs) as Hs'.
  split; [|by split]. unfold chain_ok. split; [lia|]. split.
  - intros i e n Hi. apply Hlinks. lia.
  - intros tbl k h Ht Hg. specialize (Hheads _ _ _ Ht Hg). lia.
Qed.

Lemma set_rover_same z : set_rover (rover z) z = z.
Proof. by destruct z. Qed.

Lemma remove_walk_spec fuel z t p :
  chain_ok z → (∀ pi, p = Some pi → 0 ≤ pi < blocks z ∧ blocks z - pi ≤ Z.of_nat fuel) →
  ∃ v, remove_walk fuel z t p = Ok (set_rover v z).
Proof.
  intros (Hb & Hlinks & Hheads). revert p.
  induction fuel as [|fuel IH]; intros p Hp.
  - destruct p as [pi|]; [|exists (rover z); by rewrite set_rover_same].
    destruct (Hp pi eq_refl). lia.
  - destruct p as [pi|]; [|exists (rover z); by rewrite set_rover_same].
    destruct (Hp pi eq_refl) as [Hpi Hf]. cbn [remove_walk].
    destruct (Z.eqb_spec pi t) as [->|Hne].
    + destruct (get_is_Some (blockhashes z) t ltac:(lia)) as [te ->]. cbn.
      case_decide; [by eexists|]. exists (rover z). by rewrite set_rover_same.
    + destruct (get_is_Some (blockhashes z) pi ltac:(lia)) as [pe Hpe]. rewrite Hpe. cbn.
      apply IH. intros n Hn. specialize (Hlinks pi pe n Hpi Hpe Hn). lia.
Qed.

(** On a well-formed index [remove_block_from_hash] returns, and all it may
    change is the rover. *)
Lemma remove_block_from_hash_spec z id :
  chain_ok z → is_Some (rsum_hash z) → 0 ≤ id < blocks z →
  ∃ v, remove_block_from_hash z id = Ok (set_rover v z).
Proof.
  intros Hc [tbl Htbl] Hid. pose proof Hc as (Hb & Hlinks & Hheads).
  unfold remove_block_from_hash. rewrite Htbl.
  destruct (calc_rhash_Ok z id ltac:(lia) ltac:(lia)) as [h ->]. cbn [mbind res_bind].
  apply remove_walk_spec; [done|].
  intros pi Hpi.
  destruct (Js.get tbl (Js.and h (hashmask z))) as [[m|]|] eqn:Hg; try done.
  injection Hpi as ->. specialize (Hheads _ _ _ Htbl Hg). lia.
Qed.

(** [remove_block_from_hash] never touches a link or a bucket. *)
Lemma remove_walk_frame fuel z t p z' :
  remove_walk fuel z t p = Ok z' →
  blockhashes z' = blockhashes z ∧ rsum_hash z' = rsum_hash z ∧ hashmask z' = hashmask z.
Proof.
  revert p. induction fuel as [|fuel IH]; intros [pi|]; cbn [remove_walk]; try (by intros [= <-]).
  - destruct (pi =? t); [|done].
    destruct (Js.get (blockhashes z) t); [|done]. cbn. case_decide; by intros [= <-].
  - destruct (pi =? t).
    + destruct (Js.get (blockhashes z) t); [|done]. cbn. case_decide; by intros [= <-].
    + destruct (Js.get (blockhashes z) pi); [|done]. cbn. apply IH.
Qed.

Lemma remove_block_from_hash_frame z id z' :
  remove_block_from_hash z id = Ok z' →
  blockhashes z' = blockhashes z ∧ rsum_hash z' = rsum_hash z
  ∧ ∀ h, bucket_chain z' h = bucket_chain z h.
Proof.
  unfold remove_block_from_hash. destruct (rsum_hash z) eqn:E; [|done].
  destruct (calc_rhash z id); try done. cbn [mbind res_bind].
  intros (Hb & Hr & Hm)%remove_walk_frame. split; [done|]. split; [congruence|].
  intros h. unfold bucket_chain. rewrite Hb, Hr, Hm.
  generalize (length (blockhashes z)).
  generalize (tbl ← rsum_hash z; mjoin (Js.get tbl (Js.and h (hashmask z)))).
  intros p n. revert p. induction n as [|n IH]; intros [pi|]; cbn [chain]; try done.
  rewrite Hb. f_equal. apply IH.
Qed.

(** With one match per hit the hash of every block takes the [a] of block 0. *)
Lemma calc_rhash_single z i e e0 :
  seq_matches z ≤ 1 → Js.get (blockhashes z) i = Some e → Js.get (blockhashes z) 0 = Some e0 →
  calc_rhash z i = Ok (Js.xor (b (r e)) (Js.shl (Js.and (a (r e0)) (rsum_a_mask z)) 3)).
Proof.
  intros Hs He H0. unfold calc_rhash. rewrite He, H0.
  destruct (Z.ltb_spec 1 (seq_matches z)); [lia|]. reflexivity.
Qed.

(** With two matches per hit the hash is the one of the specification. *)
Lemma calc_rhash_sequential z i h :
  1 < seq_matches z → calc_rhash z i = Ok h ↔ weak_hash_spec z i = Some h.
Proof.
  intros Hs. unfold calc_rhash, weak_hash_spec.
  destruct (Js.get (blockhashes z) i) as [e|]; [|done]. cbn [mbind option_bind].
  destruct (Z.ltb_spec 1 (seq_matches z)); [|lia].
  destruct (Js.get (blockhashes z) (i + 1)) as [e1|]; [|done]. cbn.
  split; intros [= <-]; done.
Qed.

(** C2 (the code departs from the claim): after [write_blocks] has stored
    block 0 and called [remove_block_from_hash] on it, the block is known and
    is still the entry of its bucket chain, and the lookup of the matcher for
    a window with its sums still returns it. *)
Theorem remove_block_from_hash_keeps_block :
  let z := indexed demo in
  ∃ h z', calc_rhash z 0 = Ok h ∧ bucket_chain z h = [0]
    ∧ write_blocks z target 0 0 = Ok z'
    ∧ ranges z' = [0; 0]
    ∧ bucket_chain z' h = [0]
    ∧ lookup (at_window [1; 2; 3; 4] z') = Some 0.
Proof.
  cbv zeta. eexists _, _. split; [vm_compute; reflexivity|].
  split; [vm_compute; reflexivity|]. split; [vm_compute; reflexivity|].
  split; [reflexivity|]. split; vm_compute; reflexivity.
Qed.

(** C3 (the code departs from the claim): with one match per hit the hash
    that [build_hash] and [remove_block_from_hash] compute for block 1 takes
    the [a] of block 0: it is 108, where the specification and the lookup of
    the matcher for a window that holds block 1 have 236; the block sits in
    the bucket of 108 and the lookup finds nothing. *)
Theorem calc_rhash_uses_block_zero :
  calc_rhash demo 1 = Ok 108
  ∧ weak_hash_spec demo 1 = Some 236
  ∧ window_hash (at_window (block_of target 4 1) demo) = 236
  ∧ bucket_chain (indexed demo) 108 = [1]
  ∧ lookup (at_window (block_of target 4 1) (indexed demo)) = None.
Proof. repeat split; vm_compute; reflexivity. Qed.

End HashFacts.

(** ** The matcher and block submission *)
Module RsumFacts.
Import Internal Hash Range Rsum Scenario RangeFacts HashFacts.

Lemma to_int32_small v : - 2^31 ≤ v < 2^31 → Js.to_int32 v = v.
Proof. intros Hv. unfold Js.to_int32. rewrite Z.mod_small by lia. lia. Qed.

Lemma shl_small a s : 0 ≤ s < 32 → 0 ≤ a → a * 2^s < 2^31 → Js.shl a s = a * 2^s.
Proof.
  intros Hs Ha Hb. unfold Js.shl, Js.to_uint32.
  assert (1 ≤ 2^s) by (apply (Z.pow_le_mono_r 2 0 s); lia).
  rewrite (Z.mod_small s) by lia. rewrite (Z.mod_small s) by lia.
  rewrite (to_int32_small a) by nia.
  rewrite Z.shiftl_mul_pow2 by lia. apply to_int32_small. nia.
Qed.






Lemma subarray_prefix {A} (l : list A) n :
  0 ≤ n → Js.subarray l 0 n = take (Z.to_nat n) l.
Proof.
  intros Hn. unfold Js.subarray, Js.rel_index. cbn [Z.ltb Z.compare].
  destruct (Z.ltb_spec n 0); [lia|].
  rewrite (Z.min_l 0) by lia. rewrite Z.sub_0_r. change (Z.to_nat 0) with 0%nat. rewrite drop_0.
  destruct (Z.le_ge_cases n (Z.of_nat (length l))).
  - by rewrite Z.min_l.
  - rewrite Z.min_r by done. rewrite Nat2Z.id.
    rewrite (take_ge l (length l)) by lia. rewrite (take_ge l (Z.to_nat n)) by lia. done.
Qed.









(** A candidate that is checked on one block is accepted exactly when
    [areEqual] is false. *)
Lemma strong_loop_one fuel z data id onlyone d st e :
  onlyone = true ∨ seq_matches z ≤ 1 → Js.get (blockhashes z) id = Some e →
  ∃ c d' st',
    strong_loop fuel z data id onlyone 0 d st
    = Ok (negb (areEqual (rcksum_calc_checksum (Js.subarray data 0 (blocksize z))) (checksum e)),
          c, d', st').
Proof.
  intros Hone He. destruct fuel; cbn [strong_loop];
    (destruct (d <? 0); unfold entry; rewrite Z.add_0_r, He; cbn [mbind res_bind];
     rewrite Z.mul_0_r, Z.mul_1_r;
     destruct (areEqual _ _); try (by eexists _, _, _);
     assert (negb onlyone && (0 + 1 <? seq_matches z) = false) as ->
       by (destruct Hone as [->|?]; [done|]; destruct onlyone; [done|]; cbn;
           apply Z.ltb_ge; lia);
     by eexists _, _, _).
Qed.

(** C1 (the code departs from the claim): in the session [demo], indexed, a
    window that is block 0 of the target, with the weak sums and the MD4 of block
    0, is turned down: nothing is written and [got_blocks] is 0; a window with
    the same weak sums and another MD4 is accepted: its bytes are written as
    block 0 and counted. *)
Theorem check_checksums_inverted :
  let z := indexed demo in
  (checksum <$> blockhashes z !! 0%nat = Some (Some (rcksum_calc_checksum [1; 2; 3; 4]))
   ∧ ∃ z', check_checksums_on_hash_chain (at_window [1; 2; 3; 4] z) 0 [1; 2; 3; 4] false
           = Ok (z', 0)
        ∧ fd z' = Some [] ∧ ranges z' = [])
  ∧ (rcksum_calc_rsum_block [0; 4; 2; 4] 4 = rcksum_calc_rsum_block [1; 2; 3; 4] 4
     ∧ rcksum_calc_checksum [0; 4; 2; 4] ≠ rcksum_calc_checksum [1; 2; 3; 4]
     ∧ ∃ z', check_checksums_on_hash_chain (at_window [0; 4; 2; 4] z) 0 [0; 4; 2; 4] false
             = Ok (z', 1)
          ∧ fd z' = Some [0; 4; 2; 4] ∧ ranges z' = [0; 0]).
Proof.
  cbv zeta. split.
  - split; [vm_compute; reflexivity|].
    eexists. split; [vm_compute; reflexivity|]. split; reflexivity.
  - split; [vm_compute; reflexivity|]. split; [vm_compute; discriminate|].
    eexists. split; [vm_compute; reflexivity|]. split; reflexivity.
Qed.

End RsumFacts.

(** ** The needed ranges and the control file *)
Module SessionFacts.
Import Internal Range Scenario.

Lemma needed_block_ranges_empty z :
  numranges z = 0 → blocks z ≤ 0x7fffffff →
  rcksum_needed_block_ranges z 0 0x7fffffff = Ok [0; blocks z].
Proof.
  intros Hn Hb. unfold rcksum_needed_block_ranges. rewrite Hn.
  destruct (Z.leb_spec (blocks z) 0x7fffffff); [|lia]. reflexivity.
Qed.

Lemma needed_block_ranges_complete z :
  numranges z = 1 → ranges z = [0; blocks z - 1] → 1 ≤ blocks z ≤ 0x7fffffff →
  rcksum_needed_block_ranges z 0 0x7fffffff = Ok [blocks z; blocks z].
Proof.
  intros Hn Hr Hb. unfold rcksum_needed_block_ranges. rewrite Hn.
  destruct (Z.leb_spec (blocks z) 0x7fffffff); [|lia].
  change (seqZ 0 1) with [0]. cbn [foldl]. unfold needed_step. rewrite Hr.
  cbn [mbind res_bind].
  change (Js.get [0; blocks z - 1] (2 * 0)) with (Some 0).
  change (Js.get [0; blocks z - 1] (2 * 0 + 1)) with (Some (blocks z - 1)).
  change (Js.get [0; blocks z] (2 * 1 - 1)) with (Some (blocks z)).
  cbn [num mbind res_bind].
  destruct (Z.ltb_spec (blocks z) 0); [lia|].
  destruct (Z.ltb_spec (blocks z - 1) 0); [lia|].
  change ((1 =? 1) && (0 <=? 0)) with true. cbn [mbind res_bind].
  change (Js.set [0; blocks z] 0 (blocks z - 1 + 1)) with [blocks z - 1 + 1; blocks z].
  replace (blocks z - 1 + 1) with (blocks z) by lia. reflexivity.
Qed.

(** C4 (the code departs from the claim in its second half): for a session
    with no known block [zsync_needed_byte_ranges] returns the one range
    [0, blocks * blocksize - 1]; for a session with every block known it
    returns the range [blocks * blocksize, blocks * blocksize - 1] and not
    the empty list. *)
Theorem zsync_needed_byte_ranges_ends zs z :
  Zsync.rs zs = Some z → 1 ≤ blocks z ≤ 0x7fffffff →
  (numranges z = 0 →
     Zsync.zsync_needed_byte_ranges zs = Ok [0; blocks z * Zsync.blocksize zs - 1])
  ∧ (numranges z = 1 → ranges z = [0; blocks z - 1] →
     Zsync.zsync_needed_byte_ranges zs
     = Ok [blocks z * Zsync.blocksize zs; blocks z * Zsync.blocksize zs - 1]).
Proof.
  intros Hrs Hb. unfold Zsync.zsync_needed_byte_ranges. rewrite Hrs. split.
  - intros Hn. rewrite needed_block_ranges_empty by (done || lia). reflexivity.
  - intros Hn Hr. rewrite needed_block_ranges_complete by (done || lia). reflexivity.
Qed.

Lemma zsync_needed_byte_ranges_ends_witness :
  Zsync.zsync_needed_byte_ranges (session demo) = Ok [0; 7]
  ∧ Zsync.zsync_needed_byte_ranges (session complete) = Ok [8; 7].
Proof.
  assert (1 ≤ 2 ≤ 0x7fffffff) as Hb by lia.
  split.
  - apply (proj1 (zsync_needed_byte_ranges_ends (session demo) demo eq_refl Hb)).
    reflexivity.
  - apply (proj2 (zsync_needed_byte_ranges_ends (session complete) complete eq_refl Hb)).
    + reflexivity.
    + by vm_compute.
Defined.

(** C5 (the code departs from the claim): on a little-endian host the record
    bytes 1 2 3 4 read with [rsum_bytes = 4] give [a = 513], not 258, and the
    record bytes 2 3 4 read with [rsum_bytes = 3] give [a = 0], not 2; on a
    big-endian host [a] is 258 and it is [b] that comes out swapped. *)
Theorem zsync_read_blocksums_byte_order :
  stored_weak (Zsync.zsync_read_blocksums true one_block ([1; 2; 3; 4] ++ replicate 16 7) 4 16 1 "t")
  = Some {| a := 513; b := 772 |}
  ∧ stored_weak (Zsync.zsync_read_blocksums true one_block ([2; 3; 4] ++ replicate 16 7) 3 16 1 "t")
    = Some {| a := 0; b := 772 |}
  ∧ stored_weak (Zsync.zsync_read_blocksums false one_block ([1; 2; 3; 4] ++ replicate 16 7) 4 16 1 "t")
    = Some {| a := 258; b := 1027 |}.
Proof. repeat split; vm_compute; reflexivity. Qed.

End SessionFacts.

(** ** Completion and the receive path *)
Module ZsyncFacts.
Import Zsync.

Lemma drop_take_length {A} (l : list A) n : drop (length (take n l)) l = drop n l.
Proof.
  rewrite length_take. destruct (Nat.le_ge_cases n (length l)).
  - by rewrite Nat.min_l.
  - rewrite Nat.min_r by done. by rewrite !drop_ge.
Qed.

Lemma sha1_feed_spec fuel file offset acc :
  0 ≤ offset → (length file - Z.to_nat offset < fuel)%nat →
  sha1_feed fuel file offset acc = acc ++ drop (Z.to_nat offset) file.
Proof.
  revert offset acc. induction fuel as [|fuel IH]; intros offset acc Ho Hf; [lia|].
  cbn [sha1_feed]. set (rest := drop (Z.to_nat offset) file).
  destruct (take 4096 rest) as [|c chunk] eqn:E.
  - destruct rest; [by rewrite app_nil_r|done].
  - rewrite <- E. rewrite IH.
    + rewrite <- app_assoc. f_equal.
      replace (Z.to_nat (offset + Z.of_nat (length (take 4096 rest))))
        with (Z.to_nat offset + length (take 4096 rest))%nat by lia.
      rewrite <- drop_drop. fold rest. rewrite drop_take_length. apply take_drop.
    + lia.
    + assert (length (take 4096 rest) ≠ 0)%nat by (rewrite E; done).
      assert (length (take 4096 rest) ≤ length rest)%nat by (rewrite length_take; lia).
      unfold rest in *. rewrite length_drop in *. lia.
Qed.

Lemma zsync_sha1_spec zs file :
  zsync_sha1 zs file
  = if decide (checksum zs = Some (Digest.hex (Digest.sha1 file))) then 1 else -1.
Proof. unfold zsync_sha1. rewrite sha1_feed_spec by (simpl; lia). done. Qed.

(** C8: [zsync_complete] leaves the scratch file with exactly [filelen]
    bytes (cut, or filled with zeros); with a SHA-1 header [h] in the control
    file it returns 1 when the lower-case hexadecimal SHA-1 of that file is
    [h] and -1 when it is not, and without such a header it returns 0. *)
Theorem zsync_complete_verdict zs z name file :
  rs zs = Some z → Internal.fd z = Some file → 0 ≤ filelen zs →
  (cur_filename zs = Some name ∧ Internal.filename z = None)
  ∨ (cur_filename zs = None ∧ Internal.filename z = Some name) →
  ∃ zs' disk,
    zsync_complete zs
    = Ok (match sha1_header zs with
          | Some h => if decide (h = Digest.hex (Digest.sha1 disk)) then 1 else -1
          | None => 0
          end, zs', disk)
    ∧ disk = take (Z.to_nat (filelen zs)) (file ++ replicate (Z.to_nat (filelen zs) - length file) 0)
    ∧ Z.of_nat (length disk) = filelen zs
    ∧ rs zs' = None ∧ cur_filename zs' = Some name.
Proof.
  intros Hrs Hfd Hlen Hname. unfold zsync_complete, zsync_cur_filename. rewrite Hrs.
  set (disk := take (Z.to_nat (filelen zs)) (file ++ replicate (Z.to_nat (filelen zs) - length file) 0)).
  assert (Z.of_nat (length disk) = filelen zs) as Hd.
  { unfold disk. rewrite length_take, length_app, length_replicate. lia. }
  assert ((if bool_decide (checksum zs ≠ None) && bool_decide (checksum_method zs = Some "SHA-1"%string)
           then (if decide (checksum zs = Some (Digest.hex (Digest.sha1 disk))) then 1 else -1)
           else 0)
          = match sha1_header zs with
            | Some h => if decide (h = Digest.hex (Digest.sha1 disk)) then 1 else -1
            | None => 0
            end) as Hrc.
  { unfold sha1_header.
    destruct (checksum zs) as [h|]; repeat (case_decide || case_bool_decide); simpl; congruence. }
  destruct Hname as [[Hc Hf]|[Hc Hf]]; rewrite Hc.
  - cbn [mbind res_bind]. rewrite Hrs, Hf, Hfd. cbn [num mbind res_bind].
    unfold truncate. cbn [filelen set_rs]. destruct (Z.ltb_spec (filelen zs) 0); [lia|].
    cbn [mbind res_bind]. rewrite zsync_sha1_spec. cbn [checksum checksum_method set_rs]. fold disk.
    eexists _, disk. split; [rewrite Hrc; reflexivity|]. repeat split; done.
  - unfold State.rcksum_filename. rewrite Hf. cbn [mbind res_bind rs set_rs set_cur_filename].
    cbn [Internal.filename Internal.set_filename Internal.fd]. rewrite Hfd. cbn [num mbind res_bind].
    unfold truncate. cbn [filelen set_rs set_cur_filename].
    destruct (Z.ltb_spec (filelen zs) 0); [lia|].
    cbn [mbind res_bind]. rewrite zsync_sha1_spec.
    cbn [checksum checksum_method set_rs set_cur_filename]. fold disk.
    eexists _, disk. split; [rewrite Hrc; reflexivity|]. repeat split; done.
Qed.

Lemma header_sha1_spec value zs zs' :
  header_sha1 value zs = Ok zs' → sha1_header zs' = Some value.
Proof.
  unfold header_sha1. destruct (negb _); [done|]. intros [= <-]. reflexivity.
Qed.




Lemma zsync_complete_verdict_witness :
  ∃ zs' disk,
    zsync_complete Scenario.signed
    = Ok (match sha1_header Scenario.signed with
          | Some h => if decide (h = Digest.hex (Digest.sha1 disk)) then 1 else -1
          | None => 0
          end, zs', disk)
    ∧ disk = take (Z.to_nat (filelen Scenario.signed))
               (Scenario.target
                  ++ replicate (Z.to_nat (filelen Scenario.signed) - length Scenario.target) 0)
    ∧ Z.of_nat (length disk) = filelen Scenario.signed
    ∧ rs zs' = None ∧ cur_filename zs' = Some "rcksum-000000"%string.
Proof.
  apply (zsync_complete_verdict Scenario.signed Scenario.complete "rcksum-000000"
           Scenario.target).
  - reflexivity.
  - by vm_compute.
  - by vm_compute.
  - right. split; reflexivity.
Defined.

(** The three verdicts on the small session: the digest of the header, a
    header with another digest, no header. *)
Example zsync_complete_runs :
  let rc r := match r with Ok (c, _, _) => Some c | _ => None end in
  rc (zsync_complete Scenario.signed) = Some 1
  ∧ rc (zsync_complete
          (set_checksum (Some "0000000000000000000000000000000000000000"%string)
             (Some "SHA-1"%string) Scenario.signed)) = Some (-1)
  ∧ rc (zsync_complete (Scenario.session Scenario.complete)) = Some 0.
Proof. repeat split; by vm_compute. Qed.


(** On the small session: the two buffered bytes of block 0 are left aside,
    block 1 is taken from the chunk and written, and no error is returned. *)
Example zsync_receive_data_restart_runs :
  match zsync_receive_data (Scenario.session Scenario.demo) Scenario.pending
          [2; 3; 4; 5; 6; 7; 8] 1 7 with
  | Ok (zs, zr, ret) =>
      Some (rs zs ≫= Internal.fd, Internal.ranges <$> rs zs, outbuf zr, outoffset zr, ret)
  | _ => None
  end = Some (Some [0; 0; 0; 0; 5; 6; 7; 8], Some [1; 1], [1; 2; 0; 0], 8, 0).
Proof. by vm_compute. Qed.

End ZsyncFacts.

(** ** The fetch driver *)
Module ClientFacts.
Import Scenario.

(** The guard [status[try2] !== 0] holds at every event: as long as the loop
    has not ended, each event starts a fetch, on a URL that failed or not. *)
Lemma fetch_loop_fetches_every_event events d d' :
  (∀ k v, Client.status d !! k = Some v → v = 1) →
  Client.fetch_loop events d = Ok d' → Client.finished d' = false →
  Client.fetched d' = Client.fetched d ++ events.*1.
Proof.
  revert d. induction events as [|[try2 resp] events IH]; intros d Hst; cbn [Client.fetch_loop].
  - destruct (Zsync.zsync_status (Client.session d)) as [st| | |]; try done. cbn [mbind res_bind].
    destruct (_ && _); intros [= <-]; [by rewrite app_nil_r|done].
  - destruct (Zsync.zsync_status (Client.session d)) as [st| | |]; try done. cbn [mbind res_bind].
    destruct (_ && _); [|by intros [= <-]].
    case_bool_decide as Hz; [by apply Hst in Hz|]. cbn [negb].
    destruct (Client.fetch_remaining_blocks_http _ _) as [[rc zs]| | |]; try done.
    cbn [mbind res_bind]. intros E Hf.
    match type of E with Client.fetch_loop _ ?d1 = _ =>
      assert (∀ k v, Client.status d1 !! k = Some v → v = 1) as Hst' end.
    { destruct (negb (rc =? 0)); cbn; [|done].
      intros k v. destruct (decide (k = try2)) as [->|].
      - rewrite lookup_insert_eq. by intros [= <-].
      - rewrite lookup_insert_ne by done. apply Hst. }
    rewrite (IH _ Hst' E Hf). destruct (negb (rc =? 0)); cbn; by rewrite <- app_assoc.
Qed.

(** C7 (the code departs from the claim): with two URLs, a first fetch from
    URL 0 that fails and a second draw of index 0, the loop fetches from URL 0
    again, counts the second failure as the last good URL and ends with URL 1
    never tried and no block obtained. *)
Theorem fetch_remaining_blocks_retries_failed_url :
  let corrupt := Some [(0, [9; 9; 9; 9; 9; 9; 9; 9])] in
  ∃ d, Client.fetch_remaining_blocks (session demo) [(0, corrupt); (0, corrupt)] = Ok d
    ∧ Client.fetched d = [0; 0] ∧ Client.ok_urls d = 0 ∧ Client.finished d = true
    ∧ Client.status d !! 1 = None
    ∧ Zsync.zsync_status (Client.session d) = Ok 0.
Proof.
  cbv zeta. eexists. split; [vm_compute; reflexivity|]. repeat split; vm_compute; reflexivity.
Qed.

End ClientFacts.

(** ** range.ts: the queries on the known ranges *)
Module RangeQueryFacts.
Import Internal Range RangeFacts RangeView Scenario.

Lemma range_before_block_cases rs ps x :
  ranges rs = flat ps → numranges rs = Z.of_nat (length ps) → canon ps →
  Z.of_nat (length ps) ≤ 2^30 →
  (range_before_block rs x = -1 ∧ covered ps x) ∨ split_at ps x (range_before_block rs x).
Proof.
  intros Hr Hn Hc Hb. unfold range_before_block. rewrite Hr, Hn.
  apply bisect_spec; try done; try lia; intros i p Hi%lookup_lt_Some ?; lia.
Qed.

Lemma split_at_not_covered ps x r : canon ps → split_at ps x r → ¬ covered ps x.
Proof.
  intros Hc (A & B & -> & _ & HA & HB)%split_at_decompose. by apply not_covered_split.
Qed.

Lemma gapped_ok : ranges_ok gapped.
Proof.
  exists [(1, 2); (5, 5)]. split; [reflexivity|]. split; [reflexivity|].
  simpl. repeat split; try lia; repeat constructor; simpl; lia.
Defined.

(** X1: [range_before_block] places a block among the known ranges.  It
    returns -1 exactly for a known block; for any other block it returns the
    number [r] of ranges that lie wholly below the block, and the ranges from
    [r] on lie wholly above it. *)
Theorem range_before_block_position rs x :
  ranges_ok rs → numranges rs ≤ 2^30 →
  let r := range_before_block rs x in
  (r = -1 ∧ known rs x)
  ∨ (¬ known rs x ∧ 0 ≤ r ≤ numranges rs
     ∧ (∀ i, 0 ≤ i < r → ∃ hi, Js.get (ranges rs) (2 * i + 1) = Some hi ∧ hi < x)
     ∧ (∀ i, r ≤ i < numranges rs → ∃ lo, Js.get (ranges rs) (2 * i) = Some lo ∧ x < lo)).
Proof.
  intros (ps & Hr & Hn & Hc) Hb r.
  destruct (range_before_block_cases rs ps x Hr Hn Hc ltac:(lia)) as [[E Hcov]|Hs].
  - left. split; [done|]. by apply (known_covered rs ps).
  - right. fold r in Hs. split.
    { rewrite (known_covered rs ps) by done. by eapply split_at_not_covered. }
    destruct Hs as (Hr0 & Hlo & Hhi). split; [lia|]. split.
    + intros i Hi. destruct (lookup_lt_is_Some_2 ps (Z.to_nat i)) as [p Hp]; [lia|].
      exists p.2. rewrite Hr. rewrite (proj2 (flat_get ps i ltac:(lia))), Hp. split; [done|].
      apply (Hlo _ _ Hp). lia.
    + intros i Hi. destruct (lookup_lt_is_Some_2 ps (Z.to_nat i)) as [p Hp]; [lia|].
      exists p.1. rewrite Hr. rewrite (proj1 (flat_get ps i ltac:(lia))), Hp. split; [done|].
      apply (Hhi _ _ Hp). lia.
Qed.

Lemma range_before_block_position_witness :
  let r := range_before_block gapped 3 in
  (r = -1 ∧ known gapped 3)
  ∨ (¬ known gapped 3 ∧ 0 ≤ r ≤ numranges gapped
     ∧ (∀ i, 0 ≤ i < r → ∃ hi, Js.get (ranges gapped) (2 * i + 1) = Some hi ∧ hi < 3)
     ∧ (∀ i, r ≤ i < numranges gapped → ∃ lo, Js.get (ranges gapped) (2 * i) = Some lo ∧ 3 < lo)).
Proof. apply (range_before_block_position gapped 3); [exact gapped_ok|simpl; lia]. Defined.

(** X2: [next_known_block] returns the block itself when it is known, and
    otherwise the least known block above it, or [blocks] when every known
    block is below it. *)
Theorem next_known_block_least rs x :
  ranges_ok rs → numranges rs ≤ 2^30 →
  ∃ y, next_known_block rs x = Ok y
    ∧ (known rs x → y = x)
    ∧ (¬ known rs x →
         (known rs y ∧ x < y ∧ ∀ k, known rs k → x < k → y ≤ k)
         ∨ (y = blocks rs ∧ ∀ k, known rs k → k < x)).
Proof.
  intros (ps & Hr & Hn & Hc) Hb. unfold next_known_block.
  destruct (range_before_block_cases rs ps x Hr Hn Hc ltac:(lia)) as [[E Hcov]|Hs].
  - rewrite E. cbn. exists x. split; [done|]. split; [done|].
    intros []. by apply (known_covered rs ps).
  - pose proof (split_at_not_covered _ _ _ Hc Hs) as Hnc.
    destruct (split_at_decompose _ _ _ Hs) as (A & B & -> & Hlen & HA & HB).
    assert (range_before_block rs x ≠ -1) as Hne by lia.
    destruct (Z.eqb_spec (range_before_block rs x) (-1)); [done|].
    rewrite Hlen, Hn, Hr. destruct B as [|b B'].
    + rewrite app_nil_r. rewrite Z.eqb_refl. exists (blocks rs). split.
      { done. } split.
      { intros Hk%(known_covered rs (A ++ [])); done. }
      intros _. right. split; [done|]. intros k Hk%(known_covered rs (A ++ [])); [|done].
      rewrite app_nil_r in Hk. apply Exists_exists in Hk as (p & Hp & Hk).
      rewrite Forall_forall in HA. specialize (HA p Hp). lia.
    + destruct (Z.eqb_spec (Z.of_nat (length A)) (Z.of_nat (length (A ++ b :: B')))) as [E|_].
      { rewrite length_app in E. cbn [length] in E. lia. }
      rewrite get_head_lo. cbn. exists b.1. split; [done|]. split.
      { intros Hk%(known_covered rs (A ++ b :: B')); done. }
      intros _. left. apply canon_app in Hc as (HcA & HcB & HAB).
      cbn in HcB. destruct HcB as (Hb1 & Hb2 & HcB').
      apply Forall_cons in HB as [Hxb HB']. split.
      { apply (known_covered rs (A ++ b :: B')); [done|]. apply covered_app. right.
        apply Exists_cons_hd. lia. }
      split; [done|]. intros k Hk%(known_covered rs (A ++ b :: B')) Hxk; [|done].
      apply covered_app in Hk as [Hk|Hk].
      * apply Exists_exists in Hk as (p & Hp & Hk).
        rewrite Forall_forall in HA. specialize (HA p Hp). lia.
      * apply covered_cons in Hk as [Hk|Hk]; [lia|].
        apply Exists_exists in Hk as (p & Hp & Hk).
        rewrite Forall_forall in Hb2. specialize (Hb2 p Hp). cbn beta in Hb2. lia.
Qed.

Lemma total_app A B : total (A ++ B) = total A + total B.
Proof. induction A as [|p A IH]; cbn; [done|]. unfold total in *. lia. Qed.

Lemma blocks_todo_flat rs ps :
  ranges rs = flat ps → numranges rs = Z.of_nat (length ps) →
  rcksum_blocks_todo rs = Ok (blocks rs - total ps).
Proof.
  intros Hr Hn. unfold rcksum_blocks_todo. rewrite Hn, Hr.
  assert (∀ k : nat, (k ≤ length ps)%nat →
    foldl (λ acc i, n ← acc; lo ← num (Js.get (flat ps) (2 * i));
                    hi ← num (Js.get (flat ps) (2 * i + 1)); Ok (n - (1 + hi - lo)))
      (Ok (blocks rs)) (seqZ 0 (Z.of_nat k)) = Ok (blocks rs - total (take k ps))) as H.
  { induction k as [|k IH]; intros Hk.
    - rewrite take_0. cbn. apply (f_equal Ok). lia.
    - rewrite Nat2Z.inj_succ, <- Z.add_1_r, seqZ_app by lia. rewrite foldl_app, IH by lia.
      change (seqZ (0 + Z.of_nat k) 1) with [0 + Z.of_nat k]. cbn [foldl mbind res_bind].
      destruct (lookup_lt_is_Some_2 ps k) as [p Hp]; [lia|].
      destruct (flat_get ps (0 + Z.of_nat k) ltac:(lia)) as [-> ->].
      rewrite Z.add_0_l, Nat2Z.id, Hp. cbn. f_equal.
      rewrite (take_S_r _ _ _ Hp), total_app. cbn. lia. }
  rewrite (H (length ps)) by done. by rewrite firstn_all.
Qed.

Lemma blocks_of_covered ps x : x ∈ blocks_of ps ↔ covered ps x.
Proof.
  unfold blocks_of, covered. rewrite list_elem_of_bind, Exists_exists.
  split; intros (p & H1 & H2).
  - exists p. rewrite elem_of_seqZ in H1. split; [done|lia].
  - exists p. rewrite elem_of_seqZ. split; [lia|done].
Qed.

Lemma blocks_of_NoDup ps : canon ps → NoDup (blocks_of ps).
Proof.
  induction ps as [|p ps IH]; [constructor|]. intros (Hp & Hgap & Hc).
  change (blocks_of (p :: ps)) with (seqZ p.1 (p.2 - p.1 + 1) ++ blocks_of ps).
  apply NoDup_app. split; [apply NoDup_seqZ|]. split; [|by apply IH].
  intros y Hy%elem_of_seqZ Hy2%blocks_of_covered.
  apply Exists_exists in Hy2 as (q & Hq & Hy2). rewrite Forall_forall in Hgap.
  specialize (Hgap q Hq). cbn beta in Hgap. lia.
Qed.

Lemma blocks_of_length ps : canon ps → Z.of_nat (length (blocks_of ps)) = total ps.
Proof.
  induction ps as [|p ps IH]; [done|]. intros (Hp & Hgap & Hc).
  change (blocks_of (p :: ps)) with (seqZ p.1 (p.2 - p.1 + 1) ++ blocks_of ps).
  rewrite length_app, length_seqZ, Nat2Z.inj_add, IH by done.
  change (total (p :: ps)) with ((p.2 - p.1 + 1) + total ps). lia.
Qed.

Lemma next_known_block_least_witness :
  ∃ y, next_known_block gapped 3 = Ok y
    ∧ (known gapped 3 → y = 3)
    ∧ (¬ known gapped 3 →
         (known gapped y ∧ 3 < y ∧ ∀ k, known gapped k → 3 < k → y ≤ k)
         ∨ (y = blocks gapped ∧ ∀ k, known gapped k → k < 3)).
Proof. apply (next_known_block_least gapped 3); [exact gapped_ok|simpl; lia]. Defined.

Lemma blocks_todo_counts rs :
  ranges_ok rs →
  ∃ l, NoDup l ∧ (∀ x, x ∈ l ↔ known rs x)
       ∧ rcksum_blocks_todo rs = Ok (blocks rs - Z.of_nat (length l)).
Proof.
  intros (ps & Hr & Hn & Hc). exists (blocks_of ps).
  split; [by apply blocks_of_NoDup|]. split.
  - intros x. rewrite blocks_of_covered. symmetry. by apply known_covered.
  - rewrite blocks_of_length by done. by apply blocks_todo_flat.
Qed.

(** X3: [rcksum_blocks_todo] returns the number of blocks of the target less
    the number of known blocks: the known blocks are the members of a list
    without repetition, and the result is [blocks] minus its length. *)
Theorem rcksum_blocks_todo_counts rs :
  ranges_ok rs →
  ∃ l, NoDup l ∧ (∀ x, x ∈ l ↔ known rs x)
       ∧ rcksum_blocks_todo rs = Ok (blocks rs - Z.of_nat (length l)).
Proof. apply blocks_todo_counts. Qed.

Lemma rcksum_blocks_todo_counts_witness :
  ∃ l, NoDup l ∧ (∀ x, x ∈ l ↔ known gapped x)
       ∧ rcksum_blocks_todo gapped = Ok (blocks gapped - Z.of_nat (length l)).
Proof. apply (rcksum_blocks_todo_counts gapped). exact gapped_ok. Defined.

Lemma total_insert ps qs x :
  canon ps → canon qs → ¬ covered ps x → (∀ y, covered qs y ↔ y = x ∨ covered ps y) →
  total qs = total ps + 1.
Proof.
  intros Hp Hq Hx Hcov. rewrite <- !blocks_of_length by done.
  assert (blocks_of qs ≡ₚ x :: blocks_of ps) as ->.
  { apply NoDup_Permutation.
    - by apply blocks_of_NoDup.
    - constructor; [by rewrite blocks_of_covered|by apply blocks_of_NoDup].
    - intros y. rewrite elem_of_cons, !blocks_of_covered. apply Hcov. }
  cbn [length]. lia.
Qed.

(** X4: [add_to_ranges] on a known block changes nothing; on any other
    block it lowers the count of [rcksum_blocks_todo] by exactly one and
    raises [gotblocks] by one. *)
Theorem add_to_ranges_progress rs x :
  ranges_ok rs → numranges rs + 1 ≤ 2^30 →
  ∃ rs' n, add_to_ranges rs x = Ok rs' ∧ rcksum_blocks_todo rs = Ok n
    ∧ ((known rs x ∧ rs' = rs)
       ∨ (¬ known rs x ∧ rcksum_blocks_todo rs' = Ok (n - 1)
          ∧ gotblocks rs' = gotblocks rs + 1)).
Proof.
  intros (ps & Hr & Hn & Hc) Hb.
  destruct (add_to_ranges_spec rs ps x Hr Hn Hc ltac:(lia)) as (qs & E & Hcq & Hcov & _).
  eexists _, _. split; [exact E|]. split; [by apply (blocks_todo_flat rs ps)|].
  case_decide as Hk.
  - left. split; [by apply (known_covered rs ps)|].
    assert (qs = ps) as ->.
    { apply canon_unique; try done. intros y. rewrite Hcov. split; [|by right].
      by intros [->|]. }
    rewrite Z.add_0_r, <- Hr, <- Hn. apply upd_same.
  - right. split; [by rewrite (known_covered rs ps)|]. split.
    + rewrite (blocks_todo_flat _ qs) by done. cbn. f_equal.
      rewrite (total_insert ps qs x) by done. lia.
    + done.
Qed.

Lemma add_to_ranges_progress_witness :
  ∃ rs' n, add_to_ranges gapped 3 = Ok rs' ∧ rcksum_blocks_todo gapped = Ok n
    ∧ ((known gapped 3 ∧ rs' = gapped)
       ∨ (¬ known gapped 3 ∧ rcksum_blocks_todo rs' = Ok (n - 1)
          ∧ gotblocks rs' = gotblocks gapped + 1)).
Proof. apply (add_to_ranges_progress gapped 3); [exact gapped_ok|simpl; lia]. Defined.

End RangeQueryFacts.

Module NeededFacts.
Import Internal Range RangeFacts RangeView RangeQueryFacts Scenario.

Lemma in_windows_flat W x : in_windows (flat W) x ↔ within W x.
Proof.
  unfold in_windows, within. rewrite Exists_exists. split.
  - intros (i & lo & hi & Hi & Hlo & Hhi & Hx).
    destruct (flat_get W i Hi) as [E1 E2]. rewrite E1 in Hlo. rewrite E2 in Hhi.
    destruct (W !! Z.to_nat i) as [w|] eqn:Hw; [|done]. cbn in Hlo, Hhi.
    exists w. split; [by eapply list_elem_of_lookup_2|].
    injection Hlo as <-. injection Hhi as <-. done.
  - intros (w & [k Hk]%list_elem_of_lookup_1 & Hx).
    exists (Z.of_nat k), w.1, w.2. split; [lia|].
    destruct (flat_get W (Z.of_nat k) ltac:(lia)) as [-> ->].
    rewrite Nat2Z.id, Hk. done.
Qed.

Lemma within_app A B x : within (A ++ B) x ↔ within A x ∨ within B x.
Proof. apply Exists_app. Qed.

Lemma within_one s e x : within [(s, e)] x ↔ s ≤ x < e.
Proof.
  unfold within. rewrite Exists_cons, Exists_nil. cbn. tauto.
Qed.

Lemma set_end {A} (l : list A) v : Js.set l (Z.of_nat (length l)) v = l ++ [v].
Proof.
  unfold Js.set. destruct (Z.ltb_spec (Z.of_nat (length l)) 0); [lia|].
  by rewrite Z.eqb_refl.
Qed.

Lemma needed_step_inv rs ps from to' k p acc :
  ranges rs = flat ps → canon ps → ps !! k = Some p →
  needed_inv ps from to' k acc →
  ∃ acc', needed_step rs from (Ok acc) (Z.of_nat k) = Ok acc'
          ∧ needed_inv ps from to' (S k) acc'.
Proof.
  intros Hr Hc Hp (D & s & e & -> & Ha & Hd & Hs & He & Hl).
  assert (p.1 ≤ p.2) as Hple by (by eapply canon_lookup_le).
  assert (∀ q, q ∈ take k ps → q.2 + 1 < p.1) as Hgap.
  { intros q [j Hj]%list_elem_of_lookup_1. apply lookup_take_Some in Hj as [Hj Hjk].
    by eapply (canon_lookup_lt ps j k). }
  assert (∀ x, covered (take (S k) ps) x ↔ covered (take k ps) x ∨ p.1 ≤ x ≤ p.2) as Hcov.
  { intros x. rewrite (take_S_r _ _ _ Hp), covered_app, covered_cons.
    assert (¬ covered [] x) by (by intros ?%Exists_nil). tauto. }
  assert (∀ q, q ∈ take k ps → q ∈ take (S k) ps) as Hsub.
  { intros q Hq. rewrite (take_S_r _ _ _ Hp). apply elem_of_app. by left. }
  assert (p ∈ take (S k) ps) as Hin.
  { rewrite (take_S_r _ _ _ Hp). apply elem_of_app. right. by apply list_elem_of_singleton. }
  assert (D ≠ [] → s < p.1) as HsD.
  { intros HD. destruct He as [[_ ?]|(q & Hq & ->)]; [done|]. by apply Hgap. }
  unfold needed_step. cbn [mbind res_bind].
  destruct (flat_get ps (Z.of_nat k) ltac:(lia)) as [E1 E2].
  rewrite Hr, E1, E2, Nat2Z.id, Hp. cbn [fmap option_fmap option_map num mbind res_bind].
  replace (2 * (Z.of_nat (length D) + 1) - 1)
    with (2 * (Z.of_nat (length (D ++ [(s, e)])) - 1) + 1)
    by (rewrite length_app; cbn [length]; lia).
  rewrite get_last_hi_end. cbn [num mbind res_bind snd].
  destruct (Z.ltb_spec e p.1) as [H1|H1].
  { (* the range begins after the last window *)
    eexists. split; [done|]. exists D, s, e. split; [done|].
    split; [|split; [done|split; [done|]]].
    - intros x. rewrite Ha, Hcov. split; [|tauto]. intros [Hx Hn]. split; [done|].
      intros [?|Hxp]; [done|]. assert (within (D ++ [(s, e)]) x) as Hw by (apply Ha; done).
      apply within_app in Hw as [Hw|Hw%within_one].
      + assert (D ≠ []) as HD by (intros ->; by apply Exists_nil in Hw).
        specialize (Hd _ Hw). specialize (HsD HD). lia.
      + lia.
    - split; [|lia]. destruct He as [?|(q & Hq & ->)]; [by left|right; eauto]. }
  destruct (Z.ltb_spec p.2 from) as [H2|H2].
  { eexists. split; [done|]. exists D, s, e. split; [done|]. split; [|split; [done|]].
    - intros x. rewrite Ha, Hcov. split; [|tauto]. intros [Hx Hn]. split; [done|].
      intros [?|Hxp]; [done|lia].
    - split; [done|]. split; [|lia]. destruct He as [?|(q & Hq & ->)]; [by left|right; eauto]. }
  destruct (Z.eqb_spec (Z.of_nat (length D) + 1) 1) as [H3|H3];
    [destruct (Z.leb_spec p.1 from) as [H4|H4]|]; cbn [andb].
  - (* the range covers the start of the window *)
    destruct D; [|cbn [length] in H3; lia].
    eexists. split; [reflexivity|]. exists [], (p.2 + 1), e. split; [reflexivity|].
    assert (s ≤ p.2 + 1) as Hsp.
    { destruct He as [[-> _]|(q & Hq & ->)]; [lia|]. specialize (Hgap q Hq). lia. }
    split; [|split; [by intros x ?%Exists_nil|split; [lia|split; [right; eauto|cbn; lia]]]].
    intros x. cbn [app]. rewrite within_one, Hcov. specialize (Ha x).
    cbn [app] in Ha. rewrite within_one in Ha. split.
    + intros Hx. assert (s ≤ x < e) as Hx' by lia. apply Ha in Hx' as [? ?].
      split; [done|]. intros [?|?]; [done|lia].
    + intros [Hx Hn]. assert (s ≤ x < e) as Hx' by (apply Ha; tauto). 
      assert (¬ p.1 ≤ x ≤ p.2) by tauto. lia.
  - (* one window, the range begins inside it *)
    destruct D; [|cbn [length] in H3; lia]. clear H3.
    destruct (Z.leb_spec (e - 1) p.2) as [H5|H5].
    + eexists. split; [reflexivity|]. exists [], s, p.1. split; [reflexivity|].
      split; [|split; [done|split; [done|]]].
      * intros x. cbn [app]. rewrite within_one, Hcov. specialize (Ha x).
        cbn [app] in Ha. rewrite within_one in Ha. split.
        -- intros Hx. assert (s ≤ x < e) as Hx' by lia. apply Ha in Hx' as [? ?].
           split; [done|]. intros [?|?]; [done|lia].
        -- intros [Hx Hn]. assert (s ≤ x < e) as Hx' by (apply Ha; tauto).
           assert (¬ p.1 ≤ x ≤ p.2) by tauto. lia.
      * split; [|cbn; lia]. destruct He as [?|(q & Hq & ->)]; [by left|right; eauto].
    + eexists. split; [reflexivity|]. exists [(s, p.1)], (p.2 + 1), e.
      split; [reflexivity|].
      assert (s ≤ p.1) as Hsp.
      { destruct He as [[-> _]|(q & Hq & ->)]; [lia|]. specialize (Hgap q Hq). lia. }
      split; [|split; [|split; [lia|split; [right; eauto|cbn; lia]]]].
      * intros x. rewrite within_app, !within_one, Hcov. specialize (Ha x).
        cbn [app] in Ha. rewrite within_one in Ha. split.
        -- intros Hx. assert (s ≤ x < e) as Hx' by lia. apply Ha in Hx' as [? ?].
           split; [done|]. intros [?|?]; [done|lia].
        -- intros [Hx Hn]. assert (s ≤ x < e) as Hx' by (apply Ha; tauto).
           assert (¬ p.1 ≤ x ≤ p.2) by tauto. lia.
      * intros x Hx%within_one. lia.
  - (* several windows *)
    assert (D ≠ []) as HD by (intros ->; cbn [length] in H3; lia).
    specialize (HsD HD).
    replace (2 * (Z.of_nat (length D) + 1) - 1)
      with (2 * (Z.of_nat (length (D ++ [(s, e)])) - 1) + 1)
      by (rewrite length_app; cbn [length]; lia).
    replace (2 * (Z.of_nat (length D) + 1)) with (Z.of_nat (length (flat (D ++ [(s, e)]))))
      by (rewrite flat_len_Z, length_app; cbn [length]; lia).
    destruct (Z.leb_spec (e - 1) p.2) as [H5|H5].
    + rewrite set_last_hi_end. eexists. split; [reflexivity|]. exists D, s, p.1.
      split; [reflexivity|]. split; [|split; [done|split; [done|]]].
      * intros x. rewrite within_app, within_one, Hcov. specialize (Ha x).
        rewrite within_app, within_one in Ha. split.
        -- intros [Hx|Hx].
           ++ assert (from ≤ x < to' ∧ ¬ covered (take k ps) x) as [? ?] by (apply Ha; tauto).
              split; [done|]. specialize (Hd _ Hx). intros [?|?]; [done|lia].
           ++ assert (from ≤ x < to' ∧ ¬ covered (take k ps) x) as [? ?]
                by (apply Ha; right; lia).
              split; [done|]. intros [?|?]; [done|lia].
        -- intros [Hx Hn]. assert (within D x ∨ s ≤ x < e) as [?|?] by (apply Ha; tauto);
             [by left|]. right. assert (¬ p.1 ≤ x ≤ p.2) by tauto. lia.
      * split; [|lia]. destruct He as [?|(q & Hq & ->)]; [by left|right; eauto].
    + rewrite set_end.
      replace (Z.of_nat (length (flat (D ++ [(s, e)]))) + 1)
        with (Z.of_nat (length (flat (D ++ [(s, e)]) ++ [p.2 + 1])))
        by (rewrite length_app; cbn [length]; lia).
      rewrite set_end.
      assert (∀ v, Js.set ((flat (D ++ [(s, e)]) ++ [p.2 + 1]) ++ [e])
                     (2 * (Z.of_nat (length (D ++ [(s, e)])) - 1) + 1) v
                   = flat ((D ++ [(s, v)]) ++ [(p.2 + 1, e)])) as Hset.
      { intros v. rewrite <- (app_assoc _ [p.2 + 1] [e]).
        change ([p.2 + 1] ++ [e]) with (flat [(p.2 + 1, e)]). rewrite <- flat_app.
        apply (set_last_hi D (s, e) [(p.2 + 1, e)] v). }
      rewrite Hset. eexists. split; [reflexivity|]. exists (D ++ [(s, p.1)]), (p.2 + 1), e.
      split; [f_equal; rewrite length_app; cbn [length]; lia|].
      split; [|split; [|split; [lia|split; [right; eauto|rewrite length_app; cbn; lia]]]].
      * intros x. rewrite !within_app, !within_one, Hcov. specialize (Ha x).
        rewrite within_app, within_one in Ha. split.
        -- intros [[Hx|Hx]|Hx].
           ++ assert (from ≤ x < to' ∧ ¬ covered (take k ps) x) as [? ?] by (apply Ha; tauto).
              split; [done|]. specialize (Hd _ Hx). intros [?|?]; [done|lia].
           ++ assert (from ≤ x < to' ∧ ¬ covered (take k ps) x) as [? ?]
                by (apply Ha; right; lia).
              split; [done|]. intros [?|?]; [done|lia].
           ++ assert (from ≤ x < to' ∧ ¬ covered (take k ps) x) as [? ?]
                by (apply Ha; right; lia).
              split; [done|]. intros [?|?]; [done|lia].
        -- intros [Hx Hn]. assert (within D x ∨ s ≤ x < e) as [?|?] by (apply Ha; tauto);
             [by left; left|]. assert (¬ p.1 ≤ x ≤ p.2) by tauto. lia.
      * intros x [Hx|Hx%within_one]%within_app; [specialize (Hd _ Hx)|]; lia.
Qed.

Lemma needed_loop_inv rs ps from to' (k : nat) :
  ranges rs = flat ps → canon ps → (k ≤ length ps)%nat →
  ∃ acc, foldl (needed_step rs from) (Ok ([from; to'], 1)) (seqZ 0 (Z.of_nat k)) = Ok acc
         ∧ needed_inv ps from to' k acc.
Proof.
  intros Hr Hc. induction k as [|k IH]; intros Hk.
  - eexists. split; [reflexivity|]. exists [], from, to'. split; [reflexivity|].
    split; [|split; [by intros x ?%Exists_nil|split; [lia|split; [by left|done]]]].
    intros x. cbn [app]. rewrite within_one, take_0. unfold covered. rewrite Exists_nil. tauto.
  - destruct IH as (acc & E & Hinv); [lia|].
    destruct (lookup_lt_is_Some_2 ps k) as [p Hp]; [lia|].
    destruct (needed_step_inv rs ps from to' k p acc Hr Hc Hp Hinv) as (acc' & E' & Hinv').
    exists acc'. split; [|done].
    rewrite Nat2Z.inj_succ, <- Z.add_1_r, seqZ_app by lia. rewrite foldl_app, E.
    change (seqZ (0 + Z.of_nat k) 1) with [0 + Z.of_nat k]. cbn [foldl]. by rewrite Z.add_0_l.
Qed.

Lemma needed_block_ranges_windows rs ps from to :
  ranges rs = flat ps → numranges rs = Z.of_nat (length ps) → canon ps →
  ∃ W, rcksum_needed_block_ranges rs from to = Ok (flat W)
     ∧ (0 < length W ≤ length ps + 1)%nat
     ∧ ∀ x, within W x ↔ from ≤ x < Z.min to (blocks rs) ∧ ¬ covered ps x.
Proof.
  intros Hr Hn Hc. unfold rcksum_needed_block_ranges.
  assert ((if blocks rs <=? to then blocks rs else to) = Z.min to (blocks rs)) as ->.
  { destruct (Z.leb_spec (blocks rs) to); lia. }
  destruct (needed_loop_inv rs ps from (Z.min to (blocks rs)) (length ps) Hr Hc ltac:(done))
    as ([r n] & E & (D & s & e & [= -> ->] & Ha & _ & _ & _ & Hl)).
  rewrite Hn, E. cbn [mbind res_bind].
  assert (∃ v0 v1, Js.get (flat (D ++ [(s, e)])) 0 = Some v0
                   ∧ Js.get (flat (D ++ [(s, e)])) 1 = Some v1) as (v0 & v1 & -> & ->).
  { destruct D as [|d D]; cbn; eauto. }
  cbn [num mbind res_bind]. exists (D ++ [(s, e)]). split; [reflexivity|].
  split; [rewrite length_app; cbn [length]; lia|].
  intros x. by rewrite Ha, firstn_all.
Qed.

(** X5: [rcksum_needed_block_ranges(rs, from, to)] returns windows
    [lo, hi) whose blocks are exactly the blocks of [from, min(to, blocks))
    that are not known. *)
Theorem rcksum_needed_block_ranges_complement rs from to :
  ranges_ok rs →
  ∃ r, rcksum_needed_block_ranges rs from to = Ok r
     ∧ ∀ x, in_windows r x ↔ from ≤ x < Z.min to (blocks rs) ∧ ¬ known rs x.
Proof.
  intros (ps & Hr & Hn & Hc).
  destruct (needed_block_ranges_windows rs ps from to Hr Hn Hc) as (W & E & _ & HW).
  exists (flat W). split; [done|].
  intros x. by rewrite in_windows_flat, HW, (known_covered rs ps).
Qed.

Lemma rcksum_needed_block_ranges_complement_witness :
  ∃ r, rcksum_needed_block_ranges gapped 0 8 = Ok r
     ∧ ∀ x, in_windows r x ↔ 0 ≤ x < Z.min 8 (blocks gapped) ∧ ¬ known gapped x.
Proof. apply (rcksum_needed_block_ranges_complement gapped 0 8). exact gapped_ok. Defined.

End NeededFacts.

(** ** zsync.ts: what is left to fetch, and the status *)
Module NeededBytesFacts.
Import Internal Range RangeFacts RangeView RangeQueryFacts NeededFacts Scenario.

Lemma byte_ranges_loop W bs (k : nat) :
  (k ≤ length W)%nat →
  foldl (λ acc i, byterange ← acc;
                  lo ← num (Js.get (flat W) (2 * i));
                  hi ← num (Js.get (flat W) (2 * i + 1));
                  Ok (byterange ++ [lo * bs; hi * bs - 1]))
        (Ok []) (seqZ 0 (Z.of_nat k))
  = Ok (flat ((λ w, (w.1 * bs, w.2 * bs - 1)) <$> take k W)).
Proof.
  induction k as [|k IH]; intros Hk.
  - by rewrite take_0.
  - rewrite Nat2Z.inj_succ, <- Z.add_1_r, seqZ_app by lia. rewrite foldl_app, IH by lia.
    change (seqZ (0 + Z.of_nat k) 1) with [0 + Z.of_nat k]. cbn [foldl mbind res_bind].
    destruct (lookup_lt_is_Some_2 W k) as [w Hw]; [lia|].
    destruct (flat_get W (0 + Z.of_nat k) ltac:(lia)) as [-> ->].
    rewrite Z.add_0_l, Nat2Z.id, Hw. cbn [fmap option_fmap option_map num mbind res_bind].
    rewrite (take_S_r _ _ _ Hw), fmap_app, flat_app. reflexivity.
Qed.

Lemma in_byte_ranges_flat V o : in_byte_ranges (flat V) o ↔ Exists (λ v, v.1 ≤ o ≤ v.2) V.
Proof.
  unfold in_byte_ranges. rewrite Exists_exists. split.
  - intros (i & lo & hi & Hi & Hlo & Hhi & Hx).
    destruct (flat_get V i Hi) as [E1 E2]. rewrite E1 in Hlo. rewrite E2 in Hhi.
    destruct (V !! Z.to_nat i) as [w|] eqn:Hw; [|done]. cbn in Hlo, Hhi.
    exists w. split; [by eapply list_elem_of_lookup_2|].
    injection Hlo as <-. injection Hhi as <-. done.
  - intros (w & [k Hk]%list_elem_of_lookup_1 & Hx).
    exists (Z.of_nat k), w.1, w.2. split; [lia|].
    destruct (flat_get V (Z.of_nat k) ltac:(lia)) as [-> ->].
    rewrite Nat2Z.id, Hk. done.
Qed.

(** X6: [zsync_needed_byte_ranges] returns byte ranges, both ends
    included, whose bytes are exactly the bytes of the target (of its first
    0x7fffffff blocks) that lie in a block that is not known. *)
Theorem zsync_needed_byte_ranges_unknown zs z :
  Zsync.rs zs = Some z → ranges_ok z → numranges z < 2^29 → 0 < Zsync.blocksize zs →
  ∃ br, Zsync.zsync_needed_byte_ranges zs = Ok br
     ∧ ∀ o, in_byte_ranges br o
            ↔ 0 ≤ o < Z.min 0x7fffffff (blocks z) * Zsync.blocksize zs
              ∧ ¬ known z (o / Zsync.blocksize zs).
Proof.
  intros Hrs (ps & Hr & Hn & Hc) Hb Hbs. unfold Zsync.zsync_needed_byte_ranges. rewrite Hrs.
  destruct (needed_block_ranges_windows z ps 0 0x7fffffff Hr Hn Hc) as (W & -> & HlW & HW).
  cbn [mbind res_bind]. rewrite flat_len_Z.
  assert (Js.shr (2 * Z.of_nat (length W)) 1 = Z.of_nat (length W)) as ->.
  { rewrite shr1 by lia. rewrite Z.mul_comm. apply Z.div_mul. lia. }
  rewrite byte_ranges_loop by done. rewrite firstn_all. eexists. split; [reflexivity|].
  intros o. rewrite in_byte_ranges_flat, Exists_fmap. cbn [fst snd].
  set (bs := Zsync.blocksize zs) in *.
  pose proof (Z.div_mod o bs ltac:(lia)) as Hdm.
  pose proof (Z.mod_pos_bound o bs Hbs) as Hm.
  rewrite (known_covered z ps) by done.
  assert (∀ w : Z * Z, w.1 * bs ≤ o ≤ w.2 * bs - 1 ↔ w.1 ≤ o / bs < w.2) as Hiff.
  { intros w. split; intros [? ?]; split; nia. }
  assert (Exists (λ w : Z * Z, w.1 * bs ≤ o ≤ w.2 * bs - 1) W ↔ within W (o / bs)) as ->.
  { unfold within. rewrite !Exists_exists.
    split; intros (w & ? & ?); exists w; (split; [done|]); by apply Hiff. }
  rewrite HW. split.
  - intros [[? ?] ?]. split; [nia|done].
  - intros [[? ?] ?]. split; [|done]. split; [nia|].
    apply Z.div_lt_upper_bound; lia.
Qed.

Lemma zsync_needed_byte_ranges_unknown_witness :
  ∃ br, Zsync.zsync_needed_byte_ranges (session gapped) = Ok br
     ∧ ∀ o, in_byte_ranges br o
            ↔ 0 ≤ o < Z.min 0x7fffffff (blocks gapped) * Zsync.blocksize (session gapped)
              ∧ ¬ known gapped (o / Zsync.blocksize (session gapped)).
Proof.
  apply (zsync_needed_byte_ranges_unknown (session gapped) gapped);
    [reflexivity|exact gapped_ok|simpl; lia|simpl; lia].
Defined.

End NeededBytesFacts.

Module StatusFacts.
Import Internal Range RangeFacts RangeView RangeQueryFacts Scenario.

Lemma known_count_full (l : list Z) n :
  NoDup l → (∀ x, x ∈ l → 0 ≤ x < n) → n ≤ Z.of_nat (length l) →
  ∀ x, 0 ≤ x < n → x ∈ l.
Proof.
  intros Hnd Hin Hlen x Hx.
  assert (l ⊆+ seqZ 0 n) as Hsub.
  { apply NoDup_submseteq; [done|]. intros y Hy. apply elem_of_seqZ. specialize (Hin y Hy). lia. }
  apply submseteq_length_Permutation in Hsub; [|rewrite length_seqZ; lia].
  rewrite Hsub. apply elem_of_seqZ. lia.
Qed.

(** X7: [zsync_status] is 0 when no block is known, 2 when every block of
    the target is known, and 1 when some block is known and some block is
    missing. *)
Theorem zsync_status_cases zs z :
  Zsync.rs zs = Some z → Zsync.blocks zs = blocks z → 0 < blocks z →
  ranges_ok z → (∀ x, known z x → 0 ≤ x < blocks z) →
  (Zsync.zsync_status zs = Ok 0 ∧ ∀ x, ¬ known z x)
  ∨ (Zsync.zsync_status zs = Ok 1
     ∧ (∃ x, known z x) ∧ ∃ x, 0 ≤ x < blocks z ∧ ¬ known z x)
  ∨ (Zsync.zsync_status zs = Ok 2 ∧ ∀ x, 0 ≤ x < blocks z → known z x).
Proof.
  intros Hrs Hbl Hpos Hok Hin.
  destruct (blocks_todo_counts z Hok) as (l & Hnd & Hl & E).
  unfold Zsync.zsync_status. rewrite Hrs, E, Hbl.
  destruct (Z.eqb_spec (blocks z - Z.of_nat (length l)) (blocks z)) as [H0|H0].
  - left. split; [done|]. intros x Hx%Hl. destruct l; [by apply elem_of_nil in Hx|].
    cbn [length] in H0. lia.
  - right. destruct (Z.ltb_spec 0 (blocks z - Z.of_nat (length l))) as [H1|H1].
    + left. split; [done|]. split.
      * destruct l as [|x l]; [cbn [length] in H0; lia|]. exists x. apply Hl. by left.
      * destruct (decide (Forall (λ x, x ∈ l) (seqZ 0 (blocks z)))) as [Hall|Hex].
        -- exfalso. rewrite Forall_forall in Hall.
           assert (seqZ 0 (blocks z) ⊆+ l) as Hsub.
           { apply NoDup_submseteq; [apply NoDup_seqZ|done]. }
           apply submseteq_length in Hsub. rewrite length_seqZ in Hsub. lia.
        -- apply not_Forall_Exists in Hex; [|apply _].
           apply Exists_exists in Hex as (x & Hx%elem_of_seqZ & Hn).
           exists x. split; [lia|]. by rewrite <- Hl.
    + right. split; [done|]. intros x Hx. apply Hl.
      apply (known_count_full l (blocks z)); try done; [|lia].
      intros y Hy. apply Hin. by apply Hl.
Qed.

Lemma zsync_status_cases_witness :
  (Zsync.zsync_status (session gapped) = Ok 0 ∧ ∀ x, ¬ known gapped x)
  ∨ (Zsync.zsync_status (session gapped) = Ok 1
     ∧ (∃ x, known gapped x) ∧ ∃ x, 0 ≤ x < blocks gapped ∧ ¬ known gapped x)
  ∨ (Zsync.zsync_status (session gapped) = Ok 2 ∧ ∀ x, 0 ≤ x < blocks gapped → known gapped x).
Proof.
  apply (zsync_status_cases (session gapped) gapped);
    [reflexivity|reflexivity|simpl; lia|exact gapped_ok|].
  intros x Hx. apply (known_covered gapped [(1, 2); (5, 5)]) in Hx; [|reflexivity].
  unfold covered in Hx. rewrite !Exists_cons, Exists_nil in Hx. simpl in *. lia.
Defined.

End StatusFacts.

Module FileNameFacts.
Import Internal State Scenario.

(** X26: a call of [zsync_cur_filename] that returns takes the name of
    the scratch file over from the matcher, which no longer has it, and
    records it in the session; every later call returns the same name and
    changes nothing.  After [zsync_rename_file] the current name is the new
    one. *)
Theorem zsync_cur_filename_handover zs f zs' :
  Zsync.zsync_cur_filename zs = Ok (f, zs') →
  Zsync.cur_filename zs' = Some f
  ∧ Zsync.zsync_cur_filename zs' = Ok (f, zs')
  ∧ (Zsync.cur_filename zs = None →
     ∃ z, Zsync.rs zs = Some z ∧ filename z = Some f
          ∧ Zsync.rs zs' = Some (set_filename None z))
  ∧ (∀ g zs2, Zsync.zsync_rename_file zs g = Ok zs2 →
              Zsync.zsync_cur_filename zs2 = Ok (g, zs2)).
Proof.
  unfold Zsync.zsync_rename_file, Zsync.zsync_cur_filename at 1 3.
  destruct (Zsync.cur_filename zs) as [c|] eqn:Ec.
  - intros [= -> <-]. split; [done|]. split.
    + unfold Zsync.zsync_cur_filename. by rewrite Ec.
    + split; [done|]. intros g zs2 [= <-]. reflexivity.
  - destruct (Zsync.rs zs) as [z|] eqn:Er; [|done]. unfold State.rcksum_filename.
    destruct (filename z) as [p|] eqn:Ep; [|done]. intros [= -> <-].
    split; [done|]. split; [reflexivity|]. split.
    + intros _. exists z. done.
    + intros g zs2 [= <-]. reflexivity.
Qed.

Lemma zsync_cur_filename_handover_witness :
  let zs' := Zsync.set_cur_filename (Some "rcksum-000000"%string)
               (Zsync.set_rs (Some (set_filename None demo)) (session demo)) in
  Zsync.cur_filename zs' = Some "rcksum-000000"%string
  ∧ Zsync.zsync_cur_filename zs' = Ok ("rcksum-000000"%string, zs')
  ∧ (Zsync.cur_filename (session demo) = None →
     ∃ z, Zsync.rs (session demo) = Some z ∧ filename z = Some "rcksum-000000"%string
          ∧ Zsync.rs zs' = Some (set_filename None z))
  ∧ (∀ g zs2, Zsync.zsync_rename_file (session demo) g = Ok zs2 →
              Zsync.zsync_cur_filename zs2 = Ok (g, zs2)).
Proof.
  intros zs'. apply (zsync_cur_filename_handover (session demo) "rcksum-000000" zs').
  by vm_compute.
Defined.

End FileNameFacts.

(** ** zsync.ts: the receiver on chunks that are in step with it *)
Module ReceiveFacts.
Import Zsync ZsyncFacts RsumFacts Scenario.

Lemma Qfloor_unique (q : Q) (m : Z) :
  (inject_Z m <= q)%Q → (q < inject_Z (m + 1))%Q → Qfloor q = m.
Proof.
  intros H1 H2. pose proof (Qfloor_le q) as H3. pose proof (Qlt_floor q) as H4.
  assert (inject_Z m < inject_Z (Qfloor q + 1))%Q as H5 by (eapply Qle_lt_trans; eauto).
  assert (inject_Z (Qfloor q) < inject_Z (m + 1))%Q as H6 by (eapply Qle_lt_trans; eauto).
  rewrite <- Zlt_Qlt in H5, H6. lia.
Qed.

Lemma Qfloor_shift (a : Z) (w : Q) : Qfloor (inject_Z a + w - 1) = a + Qfloor w - 1.
Proof.
  apply Qfloor_unique.
  - pose proof (Qfloor_le w). unfold Z.sub. rewrite !inject_Z_plus, inject_Z_opp.
    change (inject_Z 1) with 1%Q. lra.
  - pose proof (Qlt_floor w) as H. unfold Z.sub. rewrite !inject_Z_plus in *.
    rewrite inject_Z_opp. change (inject_Z 1) with 1%Q in *. lra.
Qed.

Lemma Qtrunc_Z (q : Q) (n : Z) : (q == inject_Z n)%Q → Qtrunc q = n.
Proof.
  intros E. unfold Qtrunc. rewrite (Qfloor_comp _ _ E), (Qceiling_comp _ _ E).
  rewrite Qfloor_Z, Qceiling_Z. by destruct (Qle_bool 0 q).
Qed.

Lemma zsync_submit_data_blocks zs z buf offset (w : Q) :
  rs zs = Some z → 0 < blocksize zs → 0 ≤ offset → offset / blocksize zs < 2^31 →
  zsync_submit_data zs buf offset w
  = '(z', rc) ← Rsum.rcksum_submit_blocks z buf (offset / blocksize zs)
                  (offset / blocksize zs + Qfloor w - 1);
    Ok (set_rs (Some z') zs, rc).
Proof.
  intros Hrs Hbs Ho Hb. unfold zsync_submit_data. rewrite Hrs.
  rewrite Z.quot_div_nonneg by lia.
  rewrite to_int32_small by (pose proof (Z.div_pos offset (blocksize zs)); lia).
  by rewrite Qfloor_shift.
Qed.

Lemma receive_aligned zs zr z buf offset len :
  rs zs = Some z → 0 < blocksize zs → 0 ≤ offset → Z.rem offset (blocksize zs) = 0 →
  offset / blocksize zs < 2^31 → blocksize zs ≤ len →
  zsync_receive_data zs zr buf offset len
  = '(z', rc) ← Rsum.rcksum_submit_blocks z buf (offset / blocksize zs)
                  (offset / blocksize zs + len / blocksize zs - 1);
    Ok (set_rs (Some z') zs, {| outbuf := outbuf zr; outoffset := offset + len |},
        if rc =? 0 then 0 else 1).
Proof.
  intros Hrs Hbs Ho Hal Hb Hlen. unfold zsync_receive_data. rewrite Hal. cbn [Z.eqb negb].
  unfold receive_blocks. destruct (Z.leb_spec (blocksize zs) len) as [_|]; [|lia].
  rewrite (zsync_submit_data_blocks zs z) by done. rewrite <- Zdiv_Qdiv.
  destruct (Rsum.rcksum_submit_blocks z buf _ _) as [[z' rc]| | |]; try done.
  cbn [mbind res_bind].
  assert (inject_Z len / inject_Z (blocksize zs) * inject_Z (blocksize zs) == inject_Z len)%Q
    as Hw.
  { field. intros E. assert (blocksize zs = 0) by (by apply inject_Z_injective). lia. }
  rewrite (Qtrunc_Z (inject_Z len - _) 0) by (rewrite Hw; unfold inject_Z; lra).
  rewrite (Qtrunc_Z (inject_Z offset + _) (offset + len))
    by (rewrite Hw, inject_Z_plus; reflexivity).
  cbn [Z.eqb negb mbind res_bind]. reflexivity.
Qed.


(** X8: a chunk that starts on a block boundary and holds at least one
    block is submitted as the blocks it holds in full, [len / blocksize] of
    them from block [offset / blocksize] on.  The bytes after the last full
    block are not kept: the buffer of the receiver is as it was, and
    [outoffset] moves to the end of the chunk.  The block size is a power of
    two, as in every session that [rcksum_init] accepts. *)
Theorem zsync_receive_data_aligned zs zr z buf offset len :
  rs zs = Some z → (∃ k, 0 ≤ k ∧ blocksize zs = 2 ^ k) →
  0 ≤ offset → Z.rem offset (blocksize zs) = 0 →
  offset / blocksize zs < 2^31 → blocksize zs ≤ len →
  zsync_receive_data zs zr buf offset len
  = '(z', rc) ← Rsum.rcksum_submit_blocks z buf (offset / blocksize zs)
                  (offset / blocksize zs + len / blocksize zs - 1);
    Ok (set_rs (Some z') zs, {| outbuf := outbuf zr; outoffset := offset + len |},
        if rc =? 0 then 0 else 1).
Proof.
  intros Hrs (k & Hk & Hpow). apply receive_aligned; [done|].
  rewrite Hpow. by apply Z.pow_pos_nonneg.
Qed.

Lemma zsync_receive_data_aligned_witness :
  zsync_receive_data (session demo) pending (target ++ [9; 9]) 0 10
  = '(z', rc) ← Rsum.rcksum_submit_blocks demo (target ++ [9; 9])
                  (0 / blocksize (session demo))
                  (0 / blocksize (session demo) + 10 / blocksize (session demo) - 1);
    Ok (set_rs (Some z') (session demo), {| outbuf := outbuf pending; outoffset := 0 + 10 |},
        if rc =? 0 then 0 else 1).
Proof.
  apply (zsync_receive_data_aligned (session demo) pending demo (target ++ [9; 9]) 0 10);
    [reflexivity|exists 2; split; [lia|reflexivity]|lia|reflexivity|by vm_compute|by vm_compute].
Defined.


Lemma rem_mod_nonneg a b : 0 ≤ a → 0 < b → Z.rem a b = a mod b.
Proof. intros. apply Z.rem_mod_nonneg; lia. Qed.

Lemma subarray_take {A} (l : list A) n :
  0 ≤ n ≤ Z.of_nat (length l) → Js.subarray l 0 n = take (Z.to_nat n) l.
Proof. intros. apply subarray_prefix. lia. Qed.

Lemma subarray_from_drop {A} (l : list A) n :
  0 ≤ n ≤ Z.of_nat (length l) → Js.subarray_from l n = drop (Z.to_nat n) l.
Proof.
  intros. unfold Js.subarray_from, Js.rel_index.
  destruct (Z.ltb_spec n 0); [lia|]. by rewrite Z.min_l by lia.
Qed.

Lemma typed_set_at {A} (dst src : list A) m :
  0 ≤ m → m + Z.of_nat (length src) = Z.of_nat (length dst) →
  Js.typed_set dst src m = Some (take (Z.to_nat m) dst ++ src).
Proof.
  intros Hm Hl. unfold Js.typed_set.
  destruct (Z.ltb_spec m 0); [lia|]. destruct (Z.ltb_spec (Z.of_nat (length dst)) (m + Z.of_nat (length src))); [lia|].
  cbn [orb]. rewrite drop_ge by lia. by rewrite app_nil_r.
Qed.

Lemma receive_continue zs zr z buf offset len :
  rs zs = Some z → 0 < blocksize zs → 0 ≤ offset → Z.rem offset (blocksize zs) ≠ 0 →
  offset / blocksize zs < 2^31 →
  outoffset zr = offset → Z.of_nat (length (outbuf zr)) = blocksize zs →
  let m := offset mod blocksize zs in
  let x := blocksize zs - m in
  x ≤ len → x ≤ Z.of_nat (length buf) →
  zsync_receive_data zs zr buf offset len
  = let ob := take (Z.to_nat m) (outbuf zr) ++ take (Z.to_nat x) buf in
    '(z', rc) ← Rsum.rcksum_submit_blocks z ob (offset / blocksize zs) (offset / blocksize zs);
    receive_blocks (set_rs (Some z') zs) ob (drop (Z.to_nat x) buf) (offset + x) (len - x)
      (if rc =? 0 then 0 else 1).
Proof.
  intros Hrs Hbs Ho Hrem Hb Hoff Hob m x Hx Hxb. cbv zeta.
  pose proof (Z.mod_pos_bound offset (blocksize zs) Hbs) as Hm. fold m in Hm.
  pose proof (Z.div_mod offset (blocksize zs) ltac:(lia)) as Hdm. fold m in Hdm.
  pose proof (Z.mod_le offset (blocksize zs) Ho Hbs) as Hmle. fold m in Hmle.
  unfold zsync_receive_data. destruct (Z.eqb_spec (Z.rem offset (blocksize zs)) 0); [done|].
  cbn [negb]. unfold receive_head. rewrite Hoff, Z.eqb_refl.
  rewrite (rem_mod_nonneg offset) by lia. fold m. fold x.
  assert (0 < x) as Hx0 by (unfold x; lia).
  assert ((if x <? len then x else len) = x) as ->.
  { destruct (Z.ltb_spec x len); lia. }
  destruct (Z.eqb_spec len 0); [lia|]. cbn [negb].
  rewrite subarray_take by lia.
  rewrite typed_set_at by (rewrite ?length_take; lia).
  cbn [mbind res_bind].
  assert (Z.rem (x + offset) (blocksize zs) = 0) as ->.
  { rewrite rem_mod_nonneg by lia. replace (x + offset) with ((offset / blocksize zs + 1) * blocksize zs) by (unfold x; lia).
    apply Z.mod_mul. lia. }
  cbn [Z.eqb].
  rewrite (zsync_submit_data_blocks zs z); [|done|done|unfold x; lia|].
  2:{ replace (offset + x - blocksize zs) with (offset / blocksize zs * blocksize zs) by (unfold x; lia).
      rewrite Z.div_mul by lia. done. }
  replace (offset + x - blocksize zs) with (offset / blocksize zs * blocksize zs) by (unfold x; lia).
  rewrite Z.div_mul by lia. change (Qfloor 1) with 1.
  replace (offset / blocksize zs + 1 - 1) with (offset / blocksize zs) by lia.
  destruct (Rsum.rcksum_submit_blocks z _ _ _) as [[z' rc]| | |]; try done.
  cbn [mbind res_bind]. rewrite subarray_from_drop by lia. reflexivity.
Qed.

(** X9: a chunk that goes on where the receiver stopped, inside a block,
    and reaches the end of that block, completes the block in the buffer of
    the receiver: the bytes kept so far and the first bytes of the chunk are
    submitted as that one block, and the rest of the chunk is processed from
    the block boundary on. *)
Theorem zsync_receive_data_completes_block zs zr z buf offset len :
  rs zs = Some z → 0 < blocksize zs → 0 ≤ offset → Z.rem offset (blocksize zs) ≠ 0 →
  offset / blocksize zs < 2^31 →
  outoffset zr = offset → Z.of_nat (length (outbuf zr)) = blocksize zs →
  let m := offset mod blocksize zs in
  let x := blocksize zs - m in
  x ≤ len → x ≤ Z.of_nat (length buf) →
  zsync_receive_data zs zr buf offset len
  = let ob := take (Z.to_nat m) (outbuf zr) ++ take (Z.to_nat x) buf in
    '(z', rc) ← Rsum.rcksum_submit_blocks z ob (offset / blocksize zs) (offset / blocksize zs);
    receive_blocks (set_rs (Some z') zs) ob (drop (Z.to_nat x) buf) (offset + x) (len - x)
      (if rc =? 0 then 0 else 1).
Proof. apply receive_continue. Qed.

Lemma zsync_receive_data_completes_block_witness :
  zsync_receive_data (session demo) pending [3; 4; 5; 6; 7; 8] 2 6
  = let ob := take (Z.to_nat (2 mod blocksize (session demo))) (outbuf pending)
              ++ take (Z.to_nat (blocksize (session demo) - 2 mod blocksize (session demo)))
                   [3; 4; 5; 6; 7; 8] in
    '(z', rc) ← Rsum.rcksum_submit_blocks demo ob (2 / blocksize (session demo))
                  (2 / blocksize (session demo));
    receive_blocks (set_rs (Some z') (session demo)) ob
      (drop (Z.to_nat (blocksize (session demo) - 2 mod blocksize (session demo)))
         [3; 4; 5; 6; 7; 8])
      (2 + (blocksize (session demo) - 2 mod blocksize (session demo)))
      (6 - (blocksize (session demo) - 2 mod blocksize (session demo)))
      (if rc =? 0 then 0 else 1).
Proof.
  apply (zsync_receive_data_completes_block (session demo) pending demo [3; 4; 5; 6; 7; 8] 2 6);
    try reflexivity; by vm_compute.
Defined.

Lemma fill_tail l m n :
  0 ≤ m ≤ n → n = Z.of_nat (length l) →
  Js.fill l 0 m n = take (Z.to_nat m) l ++ replicate (Z.to_nat (n - m)) 0.
Proof.
  intros Hm ->. unfold Js.fill, Js.rel_index.
  destruct (Z.ltb_spec m 0); [lia|]. destruct (Z.ltb_spec (Z.of_nat (length l)) 0); [lia|].
  rewrite !Z.min_l by lia. rewrite drop_ge by lia. by rewrite app_nil_r.
Qed.

(** X10: the call with [len = 0] that ends a range inside a block pads the
    kept bytes with zeros to a whole block, submits it as the block of
    [offset], and moves [outoffset] to the next block boundary. *)
Theorem zsync_receive_data_flush zs zr z buf offset :
  rs zs = Some z → 0 < blocksize zs → 0 ≤ offset → Z.rem offset (blocksize zs) ≠ 0 →
  offset / blocksize zs < 2^31 →
  outoffset zr = offset → Z.of_nat (length (outbuf zr)) = blocksize zs →
  let m := offset mod blocksize zs in
  zsync_receive_data zs zr buf offset 0
  = let ob := take (Z.to_nat m) (outbuf zr) ++ replicate (Z.to_nat (blocksize zs - m)) 0 in
    '(z', rc) ← Rsum.rcksum_submit_blocks z ob (offset / blocksize zs) (offset / blocksize zs);
    Ok (set_rs (Some z') zs, {| outbuf := ob; outoffset := offset - m + blocksize zs |},
        if rc =? 0 then 0 else 1).
Proof.
  intros Hrs Hbs Ho Hrem Hb Hoff Hob m. cbv zeta.
  pose proof (Z.mod_pos_bound offset (blocksize zs) Hbs) as Hm. fold m in Hm.
  pose proof (Z.div_mod offset (blocksize zs) ltac:(lia)) as Hdm. fold m in Hdm.
  pose proof (Z.mod_le offset (blocksize zs) Ho Hbs) as Hmle. fold m in Hmle.
  unfold zsync_receive_data. destruct (Z.eqb_spec (Z.rem offset (blocksize zs)) 0); [done|].
  cbn [negb]. unfold receive_head. rewrite Hoff, Z.eqb_refl.
  rewrite (rem_mod_nonneg offset) by lia. fold m.
  destruct (Z.ltb_spec (blocksize zs - m) 0); [lia|]. cbn [Z.eqb negb mbind res_bind].
  replace (m + (blocksize zs - m)) with (blocksize zs) by lia.
  rewrite fill_tail by lia.
  assert (Z.rem (blocksize zs - m + offset) (blocksize zs) = 0) as ->.
  { rewrite rem_mod_nonneg by lia.
    replace (blocksize zs - m + offset) with ((offset / blocksize zs + 1) * blocksize zs) by lia.
    apply Z.mod_mul. lia. }
  cbn [Z.eqb].
  replace (offset + (blocksize zs - m) - blocksize zs) with (offset / blocksize zs * blocksize zs)
    by lia.
  rewrite (zsync_submit_data_blocks zs z); [|done|done|lia|by rewrite Z.div_mul by lia].
  rewrite Z.div_mul by lia. change (Qfloor 1) with 1.
  replace (offset / blocksize zs + 1 - 1) with (offset / blocksize zs) by lia.
  destruct (Rsum.rcksum_submit_blocks z _ _ _) as [[z' rc]| | |]; try done.
  cbn [mbind res_bind]. unfold receive_blocks.
  cbn [blocksize set_rs].
  destruct (Z.leb_spec (blocksize zs) (blocksize zs - m - (blocksize zs - m))); [lia|].
  cbn [mbind res_bind]. rewrite Z.sub_diag. cbn [Z.eqb negb mbind res_bind].
  replace (offset + (blocksize zs - m)) with (offset - m + blocksize zs) by lia.
  reflexivity.
Qed.


Lemma zsync_receive_data_flush_witness :
  zsync_receive_data (session demo) pending [] 2 0
  = let ob := take (Z.to_nat (2 mod blocksize (session demo))) (outbuf pending)
              ++ replicate (Z.to_nat (blocksize (session demo) - 2 mod blocksize (session demo))) 0 in
    '(z', rc) ← Rsum.rcksum_submit_blocks demo ob (2 / blocksize (session demo))
                  (2 / blocksize (session demo));
    Ok (set_rs (Some z') (session demo),
        {| outbuf := ob;
           outoffset := 2 - 2 mod blocksize (session demo) + blocksize (session demo) |},
        if rc =? 0 then 0 else 1).
Proof.
  apply (zsync_receive_data_flush (session demo) pending demo [] 2);
    try reflexivity; by vm_compute.
Defined.

Lemma receive_short zs zr buf offset len :
  0 < blocksize zs → Z.rem offset (blocksize zs) = 0 →
  Z.of_nat (length (outbuf zr)) = blocksize zs →
  0 < len < blocksize zs → len ≤ Z.of_nat (length buf) →
  zsync_receive_data zs zr buf offset len
  = Ok (zs, {| outbuf := take (Z.to_nat len) buf ++ drop (Z.to_nat len) (outbuf zr);
               outoffset := offset + len |}, 0).
Proof.
  intros Hbs Hal Hob Hlen Hbuf. unfold zsync_receive_data. rewrite Hal. cbn [Z.eqb negb].
  unfold receive_blocks. destruct (Z.leb_spec (blocksize zs) len); [lia|].
  cbn [mbind res_bind]. destruct (Z.eqb_spec len 0); [lia|]. cbn [negb].
  rewrite subarray_take by lia. unfold Js.typed_set. cbn [Z.ltb orb].
  destruct (Z.ltb_spec (Z.of_nat (length (outbuf zr))) (0 + Z.of_nat (length (take (Z.to_nat len) buf)))) as [Hl|_].
  { rewrite length_take in Hl. lia. }
  cbn [mbind res_bind]. rewrite take_0, length_take. cbn [app Z.to_nat Nat.add].
  replace (Z.to_nat len `min` length buf)%nat with (Z.to_nat len) by lia. reflexivity.
Qed.

(** X11: a block that arrives in two chunks, the first from the block
    boundary and shorter than a block, the second with the rest of the block,
    is submitted once, by the second call, as the bytes of the first chunk
    followed by those of the second; the first call changes only the
    receiver. *)
Theorem zsync_receive_data_two_pieces zs zr z buf1 buf2 offset len1 :
  rs zs = Some z → 0 < blocksize zs → 0 ≤ offset → Z.rem offset (blocksize zs) = 0 →
  offset / blocksize zs < 2^31 → Z.of_nat (length (outbuf zr)) = blocksize zs →
  0 < len1 < blocksize zs → len1 ≤ Z.of_nat (length buf1) →
  blocksize zs - len1 ≤ Z.of_nat (length buf2) →
  let block := take (Z.to_nat len1) buf1 ++ take (Z.to_nat (blocksize zs - len1)) buf2 in
  ∃ zr1, zsync_receive_data zs zr buf1 offset len1 = Ok (zs, zr1, 0)
    ∧ zsync_receive_data zs zr1 buf2 (offset + len1) (blocksize zs - len1)
      = '(z', rc) ← Rsum.rcksum_submit_blocks z block (offset / blocksize zs)
                      (offset / blocksize zs);
        Ok (set_rs (Some z') zs, {| outbuf := block; outoffset := offset + blocksize zs |},
            if rc =? 0 then 0 else 1).
Proof.
  intros Hrs Hbs Ho Hal Hb Hob Hlen Hb1 Hb2 block. eexists. split.
  { by apply receive_short. }
  rewrite rem_mod_nonneg in Hal by lia.
  assert ((offset + len1) mod blocksize zs = len1) as Hmod.
  { rewrite <- Z.add_mod_idemp_l, Hal by lia. cbn. apply Z.mod_small. lia. }
  assert ((offset + len1) / blocksize zs = offset / blocksize zs) as Hdiv.
  { pose proof (Z.div_mod offset (blocksize zs) ltac:(lia)) as Hdm. rewrite Hal in Hdm.
    symmetry. apply (Z.div_unique_pos _ _ _ len1); lia. }
  rewrite (receive_continue zs _ z); try done; cbn [outbuf outoffset]; rewrite ?Hmod, ?Hdiv;
    try lia.
  - cbv zeta. rewrite take_app_length' by (rewrite length_take; lia). fold block.
    destruct (Rsum.rcksum_submit_blocks z block _ _) as [[z' rc]| | |]; try done.
    cbn [mbind res_bind]. unfold receive_blocks. cbn [blocksize set_rs].
    rewrite Z.sub_diag. destruct (Z.leb_spec (blocksize zs) 0); [lia|].
    cbn [mbind res_bind Z.eqb negb].
    replace (offset + len1 + (blocksize zs - len1)) with (offset + blocksize zs) by lia.
    reflexivity.
  - rewrite rem_mod_nonneg by lia. rewrite Hmod. lia.
  - rewrite length_app, length_take, length_drop. lia.
Qed.

Lemma zsync_receive_data_two_pieces_witness :
  let zr := {| outbuf := [0; 0; 0; 0]; outoffset := 0 |} in
  let block := take (Z.to_nat 2) [1; 2]
               ++ take (Z.to_nat (blocksize (session demo) - 2)) [3; 4] in
  ∃ zr1, zsync_receive_data (session demo) zr [1; 2] 0 2 = Ok (session demo, zr1, 0)
    ∧ zsync_receive_data (session demo) zr1 [3; 4] (0 + 2) (blocksize (session demo) - 2)
      = '(z', rc) ← Rsum.rcksum_submit_blocks demo block (0 / blocksize (session demo))
                      (0 / blocksize (session demo));
        Ok (set_rs (Some z') (session demo),
            {| outbuf := block; outoffset := 0 + blocksize (session demo) |},
            if rc =? 0 then 0 else 1).
Proof.
  intros zr.
  apply (zsync_receive_data_two_pieces (session demo) zr demo [1; 2] [3; 4] 0 2);
    try reflexivity; by vm_compute.
Defined.

End ReceiveFacts.

(** ** hash.ts: the index that [build_hash] builds *)
Module IndexFacts.
Import Internal Hash HashFacts Rsum RsumFacts IndexView Scenario.

Lemma hash_bits_bounds fuel i n : 4 ≤ i → 4 ≤ hash_bits fuel i n ≤ i.
Proof.
  revert i. induction fuel as [|fuel IH]; intros i Hi; cbn [hash_bits]; [lia|].
  destruct (_ <? _); cbn [andb]; [|lia]. destruct (Z.ltb_spec 4 i); [|lia].
  specialize (IH (i - 1) ltac:(lia)). lia.
Qed.

Lemma and_ones h k : 0 ≤ k < 31 → 0 ≤ Js.and h (Z.ones k) ≤ Z.ones k.
Proof.
  intros Hk. unfold Js.and.
  assert (0 ≤ Z.ones k < 2^31) as Ho.
  { rewrite Z.ones_equiv. pose proof (Z.pow_pos_nonneg 2 k ltac:(lia) ltac:(lia)).
    pose proof (Z.pow_lt_mono_r 2 k 31 ltac:(lia) ltac:(lia) ltac:(lia)). lia. }
  rewrite (to_int32_small (Z.ones k)) by lia. rewrite Z.land_ones by lia.
  pose proof (Z.mod_pos_bound (Js.to_int32 h) (2 ^ k) ltac:(lia)).
  rewrite Z.ones_equiv. lia.
Qed.

Lemma get_set_same {A} (l : list A) k v :
  0 ≤ k ≤ Z.of_nat (length l) → Js.get (Js.set l k v) k = Some v.
Proof.
  intros Hk. unfold Js.set, Js.get. destruct (Z.ltb_spec k 0); [lia|].
  destruct (Z.eqb_spec k (Z.of_nat (length l))) as [->|].
  - rewrite Nat2Z.id. by rewrite lookup_app_r, Nat.sub_diag.
  - apply list_lookup_insert_eq. lia.
Qed.

Lemma get_set_other {A} (l : list A) k j v :
  0 ≤ k < Z.of_nat (length l) → k ≠ j → Js.get (Js.set l k v) j = Js.get l j.
Proof.
  intros Hk Hj. unfold Js.set, Js.get. destruct (Z.ltb_spec k 0); [lia|].
  destruct (Z.eqb_spec k (Z.of_nat (length l))); [lia|].
  destruct (Z.ltb_spec j 0); [done|]. apply list_lookup_insert_ne. lia.
Qed.

(** A walk that starts at a block of [n0 .. bound) only sees entries of
    that range. *)
Lemma chain_frame fuel z z' p n0 bound :
  (∀ i, n0 ≤ i < bound → Js.get (blockhashes z') i = Js.get (blockhashes z) i) →
  (∀ i e m, n0 ≤ i < bound → Js.get (blockhashes z) i = Some e → next e = Some m →
            i < m < bound) →
  (∀ pi, p = Some pi → n0 ≤ pi < bound) →
  chain fuel z' p = chain fuel z p.
Proof.
  intros Hsame Hup. revert p. induction fuel as [|fuel IH]; intros p Hp.
  - by destruct p.
  - destruct p as [pi|]; [|done]. cbn [chain]. specialize (Hp pi eq_refl).
    rewrite Hsame by done. f_equal. apply IH. intros m Hm.
    destruct (Js.get (blockhashes z) pi) as [e|] eqn:He; [|done]. cbn in Hm.
    specialize (Hup _ _ _ Hp He Hm). lia.
Qed.

Lemma chain_fuel fuel fuel' z p n0 bound :
  (∀ i e m, n0 ≤ i < bound → Js.get (blockhashes z) i = Some e → next e = Some m →
            i < m < bound) →
  (∀ pi, p = Some pi →
         n0 ≤ pi < bound ∧ bound - pi ≤ Z.of_nat fuel ∧ bound - pi ≤ Z.of_nat fuel') →
  chain fuel z p = chain fuel' z p.
Proof.
  intros Hup. revert fuel' p. induction fuel as [|fuel IH]; intros fuel' p Hp;
    (destruct p as [pi|]; [|by destruct fuel']); destruct (Hp pi eq_refl) as (H0 & H1 & H2);
    destruct fuel' as [|fuel']; try lia.
  cbn [chain]. f_equal. apply IH. intros m Hm.
  destruct (Js.get (blockhashes z) pi) as [e|] eqn:He; [|done]. cbn in Hm.
  specialize (Hup _ _ _ H0 He Hm). lia.
Qed.

(** The blocks of a walk come in ascending order, from its start on. *)
Lemma chain_sorted fuel z p n0 bound :
  (∀ i e m, n0 ≤ i < bound → Js.get (blockhashes z) i = Some e → next e = Some m →
            i < m < bound) →
  (∀ pi, p = Some pi → n0 ≤ pi < bound) →
  StronglySorted Z.lt (chain fuel z p)
  ∧ ∀ x, x ∈ chain fuel z p → ∃ pi, p = Some pi ∧ pi ≤ x < bound.
Proof.
  intros Hup. revert p. induction fuel as [|fuel IH]; intros p Hp.
  - destruct p; (split; [constructor|by intros x ?%elem_of_nil]).
  - destruct p as [pi|]; [|split; [constructor|by intros x ?%elem_of_nil]].
    cbn [chain]. specialize (Hp pi eq_refl).
    set (q := e ← Js.get (blockhashes z) pi; next e).
    assert (∀ m, q = Some m → pi < m < bound) as Hq.
    { intros m Hm. unfold q in Hm.
      destruct (Js.get (blockhashes z) pi) as [e|] eqn:He; [|done]. cbn in Hm. eauto. }
    destruct (IH q) as [Hs Hin]; [intros m Hm; specialize (Hq m Hm); lia|]. split.
    + constructor; [done|]. apply Forall_forall. intros x (m & Hm & Hx)%Hin.
      specialize (Hq m Hm). lia.
    + intros x [->|Hx]%elem_of_cons; [exists pi; split; [done|lia]|].
      apply Hin in Hx as (m & Hm & Hx). specialize (Hq m Hm). exists pi. split; [done|lia].
Qed.

Lemma build_step_indexed z n :
  indexed_from n z → 0 < n →
  ∃ z', build_step z (n - 1) = Ok z' ∧ indexed_from (n - 1) z' ∧ same_data z z'
        ∧ hashmask z' = hashmask z.
Proof.
  intros (Hinv & (k & Hk & Hmask) & (tbl & Htbl & Hlen) & Hfound & Hsound) Hpos.
  destruct (build_step_spec z n Hinv Hpos) as (z' & E & Hinv' & Hsame).
  exists z'. split; [done|].
  pose proof Hinv as (Hn & Hbl & _ & Hlinks & Hheads).
  revert E. unfold build_step, entry.
  destruct (get_is_Some (blockhashes z) (n - 1) ltac:(lia)) as [e He]. rewrite He.
  destruct (calc_rhash_Ok z (n - 1) ltac:(lia) ltac:(lia)) as [h0 Eh]. rewrite Eh.
  cbn [mbind res_bind]. rewrite Htbl. cbn [default].
  set (k0 := Js.and h0 (hashmask z)).
  assert (0 ≤ k0 ≤ hashmask z) as Hk0 by (unfold k0; rewrite Hmask; by apply and_ones).
  intros [= <-]. cbn [hashmask set_bithash set_rsum_hash set_blockhashes].
  split; [|done]. split; [done|]. split; [by exists k|]. split.
  { eexists. split; [reflexivity|]. cbn [hashmask set_bithash set_rsum_hash set_blockhashes].
    unfold Js.set. destruct (Z.ltb_spec k0 0); [lia|].
    destruct (Z.eqb_spec k0 (Z.of_nat (length tbl))); [lia|]. by rewrite length_insert. }
  set (z' := set_bithash _ _) in *.
  assert (∀ h', bucket_chain z' h'
                = if decide (Js.and h' (hashmask z) = k0) then (n - 1) :: bucket_chain z h'
                  else bucket_chain z h') as Hbc.
  { intros h'. unfold bucket_chain.
    assert (length (blockhashes z') = length (blockhashes z)) as -> by apply length_insert.
    change (rsum_hash z') with (Some (Js.set tbl k0 (Some (n - 1)))).
    change (hashmask z') with (hashmask z). rewrite Htbl. cbn [mbind option_bind].
    assert (∀ fuel p, (∀ pi, p = Some pi → n ≤ pi < blocks z) →
                      chain fuel z' p = chain fuel z p) as Hfr.
    { intros fuel p Hp. apply (chain_frame _ _ _ _ n (blocks z)); [|done|done].
      intros i Hi. unfold z'. cbn [blockhashes set_bithash set_rsum_hash set_blockhashes].
      rewrite get_insert by lia. case_decide; [lia|done]. }
    assert (∀ j, (∀ pi, mjoin (Js.get tbl j) = Some pi → n ≤ pi < blocks z)) as Hhd.
    { intros j pi Hj. destruct (Js.get tbl j) as [[m|]|] eqn:Hg; try done.
      injection Hj as ->. by eapply Hheads. }
    case_decide as Hd.
    - rewrite Hd, get_set_same by lia. cbn [mjoin option_join].
      destruct (length (blockhashes z)) as [|fuel] eqn:Hl; [lia|].
      rewrite (chain_fuel (S fuel) fuel z _ n (blocks z)); [|done|].
      2:{ intros pi Hpi. specialize (Hhd _ _ Hpi). lia. }
      cbn [chain]. f_equal.
      unfold z' at 2. cbn [blockhashes set_bithash set_rsum_hash set_blockhashes].
      rewrite get_insert by lia. case_decide; [|lia]. cbn [mbind option_bind next].
      apply Hfr, Hhd.
    - rewrite get_set_other; [|clear -Hk0 Hlen; lia|by intros E; apply Hd]. apply Hfr, Hhd. }
  assert (∀ i, calc_rhash z' i = calc_rhash z i) as Hcr
    by (intros i; by apply calc_rhash_same).
  split.
  - intros i Hi. change (blocks z') with (blocks z) in Hi.
    rewrite Hcr. destruct (decide (i = n - 1)) as [->|Hne].
    + exists h0. split; [done|]. rewrite Hbc. fold k0. rewrite decide_True by done. by left.
    + destruct (Hfound i ltac:(lia)) as (h & Eh' & Hin). exists h. split; [done|].
      rewrite Hbc. case_decide; [by right|done].
  - intros h x. rewrite Hbc, Hcr. change (hashmask z') with (hashmask z).
    case_decide as Hd; [|by apply Hsound].
    intros [->|Hx]%elem_of_cons; [|by apply Hsound]. exists h0. by rewrite Hd.
Qed.

Lemma build_loop_indexed n z :
  indexed_from (Z.of_nat n) z →
  ∃ z', build_loop n z = Ok z' ∧ indexed_from 0 z' ∧ same_data z z'
        ∧ hashmask z' = hashmask z.
Proof.
  revert z. induction n as [|n IH]; intros z Hinv.
  - exists z. split; [done|]. split; [done|]. split; [apply same_data_refl|done].
  - cbn [build_loop].
    destruct (build_step_indexed z (Z.of_nat (S n)) Hinv ltac:(lia)) as (z1 & E1 & H1 & Hs1 & Hm1).
    replace (Z.of_nat (S n) - 1) with (Z.of_nat n) in * by lia. rewrite E1.
    cbn [mbind res_bind]. destruct (IH z1 H1) as (z' & E & H' & Hs & Hm).
    exists z'. split; [done|]. split; [done|]. split; [by eapply same_data_trans|congruence].
Qed.

Lemma build_hash_indexed z :
  0 ≤ blocks z < Z.of_nat (length (blockhashes z)) →
  ∃ z', build_hash z = Ok z' ∧ indexed_from 0 z' ∧ same_data z z'.
Proof.
  intros Hb. unfold build_hash.
  pose proof (hash_bits_bounds 12 16 (blocks z) ltac:(lia)) as Hbits.
  set (nbits := hash_bits 12 16 (blocks z)) in *.
  assert (Js.shl 2 nbits - 1 = Z.ones (nbits + 1)) as Hmask.
  { rewrite shl_small; [|lia|lia|].
    - rewrite Z.ones_equiv, Z.pow_add_r by lia. change (2 ^ 1) with 2. lia.
    - pose proof (Z.pow_le_mono_r 2 nbits 16 ltac:(lia) ltac:(lia)). lia. }
  set (z0 := set_bithash _ _).
  assert (indexed_from (Z.of_nat (Z.to_nat (blocks z0))) z0) as Hinv.
  { assert (0 ≤ Z.ones (nbits + 1)) as Hpos.
    { rewrite Z.ones_equiv. pose proof (Z.pow_pos_nonneg 2 (nbits + 1) ltac:(lia) ltac:(lia)). lia. }
    split; [|split; [|split]].
    - unfold build_inv. cbn. rewrite Z2Nat.id by lia.
      split; [lia|]. split; [lia|]. split; [done|]. split; [intros; lia|].
      intros tbl k h [= <-]. unfold Js.get. destruct (k <? 0); [done|].
      intros [? ?]%lookup_replicate. done.
    - exists (nbits + 1). split; [lia|]. exact Hmask.
    - eexists. split; [reflexivity|]. cbn [hashmask z0 set_bithash set_bithashmask set_rsum_hash set_hashmask].
      rewrite length_replicate, Hmask. lia.
    - split; [cbn; intros i Hi; lia|]. intros h x. unfold bucket_chain.
      cbn [rsum_hash z0 set_bithash set_bithashmask set_rsum_hash set_hashmask mbind option_bind].
      assert (∀ len j, mjoin (Js.get (replicate len (@None Z)) j) = None) as ->.
      { intros len j. unfold Js.get. destruct (_ <? 0); [done|].
        destruct (replicate _ _ !! _) as [o|] eqn:Hg; [|done].
        by apply lookup_replicate in Hg as [-> _]. }
      destruct (length _); by intros ?%elem_of_nil. }
  destruct (build_loop_indexed _ _ Hinv) as (z' & E & H' & Hs & _).
  exists z'. split; [done|]. split; [done|].
  eapply same_data_trans; [|done]. unfold same_data; cbn; repeat split; done.
Qed.

Lemma shl_one k : 0 ≤ k < 31 → Js.shl 1 k = 2 ^ k.
Proof.
  intros Hk. rewrite shl_small; [lia|lia|lia|].
  pose proof (Z.pow_lt_mono_r 2 k 31 ltac:(lia) ltac:(lia) ltac:(lia)). lia.
Qed.

Lemma land_pow2 x k : 0 ≤ k → Z.land x (2 ^ k) = if Z.testbit x k then 2 ^ k else 0.
Proof.
  intros Hk. apply Z.bits_inj'. intros n Hn. rewrite Z.land_spec, Z.pow2_bits_eqb by done.
  destruct (Z.eqb_spec k n) as [->|Hne].
  - destruct (Z.testbit x n); [by rewrite Z.pow2_bits_true|by rewrite Z.bits_0].
  - rewrite andb_false_r. destruct (Z.testbit x k); [|by rewrite Z.bits_0].
    rewrite Z.pow2_bits_false by done. done.
Qed.

Lemma mask_test x k :
  0 ≤ x < 256 → 0 ≤ k ≤ 7 → (Js.and x (Js.shl 1 k) =? 0) = negb (Z.testbit x k).
Proof.
  intros Hx Hk. rewrite shl_one by lia. unfold Js.and.
  assert (0 < 2 ^ k < 256) as Hp.
  { pose proof (Z.pow_pos_nonneg 2 k ltac:(lia) ltac:(lia)).
    pose proof (Z.pow_lt_mono_r 2 k 8 ltac:(lia) ltac:(lia) ltac:(lia)). lia. }
  rewrite !to_int32_small by lia. rewrite land_pow2 by lia.
  destruct (Z.testbit x k); cbn [negb]; lia.
Qed.

Lemma byte_set x k :
  0 ≤ x < 256 → 0 ≤ k ≤ 7 →
  let y := Z.land (Js.or x (Js.shl 1 k)) 255 in
  0 ≤ y < 256 ∧ Z.testbit y k = true
  ∧ ∀ k', 0 ≤ k' ≤ 7 → Z.testbit x k' = true → Z.testbit y k' = true.
Proof.
  intros Hx Hk y. unfold y. rewrite shl_one by lia. unfold Js.or.
  assert (0 < 2 ^ k < 256) as Hp.
  { pose proof (Z.pow_pos_nonneg 2 k ltac:(lia) ltac:(lia)).
    pose proof (Z.pow_lt_mono_r 2 k 8 ltac:(lia) ltac:(lia) ltac:(lia)). lia. }
  rewrite !to_int32_small by lia. change 255 with (Z.ones 8). rewrite Z.land_ones by lia.
  split; [apply Z.mod_pos_bound; lia|].
  assert (∀ j, 0 ≤ j ≤ 7 → Z.testbit (Z.lor x (2 ^ k) mod 2 ^ 8) j
                            = Z.testbit x j || Z.testbit (2 ^ k) j) as Hbit.
  { intros j Hj. rewrite Z.mod_pow2_bits_low by lia. apply Z.lor_spec. }
  split.
  - rewrite Hbit by done. rewrite Z.pow2_bits_true by lia. apply orb_true_r.
  - intros k' Hk' Ht. rewrite Hbit by done. by rewrite Ht.
Qed.

Lemma get_put {A} (l : list A) j j' v :
  Js.get (Js.put l j v) j'
  = if decide (j = j' ∧ 0 ≤ j < Z.of_nat (length l)) then Some v else Js.get l j'.
Proof.
  unfold Js.put, Js.get. destruct (Z.ltb_spec j 0).
  - case_decide; [lia|done].
  - destruct (Z.ltb_spec j' 0); [case_decide; [lia|done]|].
    case_decide as Hd.
    + destruct Hd as [<- ?]. apply list_lookup_insert_eq. lia.
    + destruct (decide (j = j')) as [<-|].
      * rewrite list_insert_ge by lia. done.
      * apply list_lookup_insert_ne. lia.
Qed.

Lemma slot_range h kb :
  3 ≤ kb < 31 → 0 ≤ Js.shr (Js.and h (Z.ones kb)) 3 < Z.ones kb + 1.
Proof.
  intros Hkb. pose proof (and_ones h kb ltac:(lia)) as Ha.
  assert (Z.ones kb < 2 ^ 31) as Ho.
  { rewrite Z.ones_equiv.
    pose proof (Z.pow_lt_mono_r 2 kb 31 ltac:(lia) ltac:(lia) ltac:(lia)). lia. }
  unfold Js.shr. rewrite to_int32_small by lia. change (Js.to_uint32 3 mod 32) with 3.
  rewrite Z.shiftr_div_pow2 by lia. change (2 ^ 3) with 8.
  pose proof (Z.div_pos (Js.and h (Z.ones kb)) 8 ltac:(lia) ltac:(lia)).
  pose proof (Z.div_le_upper_bound (Js.and h (Z.ones kb)) 8 (Z.ones kb) ltac:(lia) ltac:(lia)).
  lia.
Qed.

Lemma build_step_filter z n z' :
  build_inv n z → 0 < n → filter_from n z → build_step z (n - 1) = Ok z' → same_data z z' →
  filter_from (n - 1) z'.
Proof.
  intros (Hn & Hbl & [tbl Htbl] & _) Hpos ((kb & Hkb & Hmask) & (bits & Hbits & Hlen & Hbytes) & Hset)
    E Hsame.
  revert E. unfold build_step, entry.
  destruct (get_is_Some (blockhashes z) (n - 1) ltac:(lia)) as [e He]. rewrite He.
  destruct (calc_rhash_Ok z (n - 1) ltac:(lia) ltac:(lia)) as [h0 Eh]. rewrite Eh.
  cbn [mbind res_bind bithash bithashmask set_rsum_hash set_blockhashes].
  rewrite Hbits. cbn [default from_option id].
  set (j0 := Js.shr (Js.and h0 (bithashmask z)) 3).
  set (k0 := Js.and h0 7).
  assert (0 ≤ j0 < Z.of_nat (length bits)) as Hj0.
  { unfold j0. rewrite Hlen, Hmask. by apply slot_range. }
  assert (∀ h, 0 ≤ Js.and h 7 ≤ 7) as Hk7 by (intros h; apply (and_ones h 3); lia).
  destruct (get_is_Some bits j0 Hj0) as [x0 Hx0]. rewrite Hx0. cbn [default from_option id].
  assert (0 ≤ x0 < 256) as Hx0r.
  { rewrite Forall_forall in Hbytes. apply Hbytes. unfold Js.get in Hx0.
    destruct (j0 <? 0); [done|]. by eapply list_elem_of_lookup_2. }
  destruct (byte_set x0 k0 Hx0r (Hk7 h0)) as (Hy & Hyk & Hykeep).
  set (y := Z.land (Js.or x0 (Js.shl 1 k0)) 255) in *.
  intros [= <-]. unfold filter_from, bit_test.
  cbn [bithash bithashmask blocks set_bithash set_rsum_hash set_blockhashes].
  split; [by exists kb|]. split.
  { eexists. split; [done|]. unfold Js.put. destruct (j0 <? 0); [by split|].
    rewrite length_insert. split; [done|]. apply Forall_insert; done. }
  intros i Hi.
  set (zz := set_bithash _ _).
  assert (calc_rhash zz i = calc_rhash z i) as -> by (by apply calc_rhash_same).
  assert (∃ h, calc_rhash z i = Ok h
               ∧ (h = h0 ∨ bit_test z h = true)) as (h & Ehi & Hcase).
  { destruct (decide (i = n - 1)) as [->|Hne]; [exists h0; by split; [|left]|].
    destruct (Hset i ltac:(lia)) as (h & ? & ?). exists h. by split; [|right]. }
  exists h. split; [done|]. rewrite get_put. fold j0.
  case_decide as Hd.
  - cbn [default from_option id]. rewrite mask_test by done. destruct Hcase as [->|Ht].
    + fold k0. by rewrite Hyk.
    + rewrite Hykeep; [done|done|]. unfold bit_test in Ht. rewrite Hbits in Ht.
      destruct Hd as [Hd _]. rewrite <- Hd, Hx0 in Ht. cbn [default from_option id] in Ht.
      rewrite mask_test in Ht by done. by destruct (Z.testbit x0 (Js.and h 7)).
  - destruct Hcase as [->|Ht]; [fold j0 in Hd; lia|].
    unfold bit_test in Ht. by rewrite Hbits in Ht.
Qed.

Lemma build_loop_filter n z :
  indexed_from (Z.of_nat n) z → filter_from (Z.of_nat n) z →
  ∃ z', build_loop n z = Ok z' ∧ indexed_from 0 z' ∧ filter_from 0 z' ∧ same_data z z'.
Proof.
  revert z. induction n as [|n IH]; intros z Hinv Hf.
  - exists z. split; [done|]. split; [done|]. split; [done|apply same_data_refl].
  - cbn [build_loop].
    destruct (build_step_indexed z (Z.of_nat (S n)) Hinv ltac:(lia)) as (z1 & E1 & H1 & Hs1 & _).
    pose proof (build_step_filter z (Z.of_nat (S n)) z1 (proj1 Hinv) ltac:(lia) Hf E1 Hs1) as Hf1.
    replace (Z.of_nat (S n) - 1) with (Z.of_nat n) in * by lia. rewrite E1.
    cbn [mbind res_bind]. destruct (IH z1 H1 Hf1) as (z' & E & H' & Hf' & Hs).
    exists z'. split; [done|]. split; [done|]. split; [done|by eapply same_data_trans].
Qed.


Lemma build_hash_filter z :
  0 ≤ blocks z < Z.of_nat (length (blockhashes z)) →
  ∃ z', build_hash z = Ok z' ∧ indexed_from 0 z' ∧ filter_from 0 z' ∧ same_data z z'.
Proof.
  intros Hb. unfold build_hash.
  pose proof (hash_bits_bounds 12 16 (blocks z) ltac:(lia)) as Hbits.
  set (nbits := hash_bits 12 16 (blocks z)) in *.
  assert (∀ j, 0 ≤ j ≤ 3 → Js.shl 2 (nbits + j) - 1 = Z.ones (nbits + j + 1)) as Hmask.
  { intros j Hj. rewrite shl_small; [|lia|lia|].
    - rewrite Z.ones_equiv, (Z.pow_add_r 2 (nbits + j) 1) by lia. change (2 ^ 1) with 2. lia.
    - pose proof (Z.pow_le_mono_r 2 (nbits + j) 19 ltac:(lia) ltac:(lia)). lia. }
  assert (∀ k, 0 ≤ k → 0 ≤ Z.ones k) as Hpos.
  { intros k Hk. rewrite Z.ones_equiv. pose proof (Z.pow_pos_nonneg 2 k ltac:(lia) ltac:(lia)). lia. }
  set (z0 := set_bithash _ _).
  assert (indexed_from (Z.of_nat (Z.to_nat (blocks z0))) z0) as Hinv.
  { split; [|split; [|split]].
    - unfold build_inv. cbn. rewrite Z2Nat.id by lia.
      split; [lia|]. split; [lia|]. split; [done|]. split; [intros; lia|].
      intros tbl k h [= <-]. unfold Js.get. destruct (k <? 0); [done|].
      intros [? ?]%lookup_replicate. done.
    - exists (nbits + 1). split; [lia|]. specialize (Hmask 0 ltac:(lia)).
      by rewrite Z.add_0_r in Hmask.
    - eexists. split; [reflexivity|].
      cbn [hashmask z0 set_bithash set_bithashmask set_rsum_hash set_hashmask].
      rewrite length_replicate. specialize (Hmask 0 ltac:(lia)). rewrite Z.add_0_r in Hmask.
      rewrite Hmask. specialize (Hpos (nbits + 1) ltac:(lia)). lia.
    - split; [cbn; intros i Hi; lia|]. intros h x. unfold bucket_chain.
      cbn [rsum_hash z0 set_bithash set_bithashmask set_rsum_hash set_hashmask mbind option_bind].
      assert (∀ len j, mjoin (Js.get (replicate len (@None Z)) j) = None) as ->.
      { intros len j. unfold Js.get. destruct (_ <? 0); [done|].
        destruct (replicate _ _ !! _) as [o|] eqn:Hg; [|done].
        by apply lookup_replicate in Hg as [-> _]. }
      destruct (length _); by intros ?%elem_of_nil. }
  assert (filter_from (Z.of_nat (Z.to_nat (blocks z0))) z0) as Hf.
  { split; [|split].
    - exists (nbits + 3 + 1). split; [lia|]. apply (Hmask 3). lia.
    - eexists. split; [reflexivity|].
      cbn [bithashmask z0 set_bithash set_bithashmask set_rsum_hash set_hashmask].
      change BITHASHBITS with 3. rewrite length_replicate, (Hmask 3) by lia.
      specialize (Hpos (nbits + 3 + 1) ltac:(lia)). split; [lia|].
      apply Forall_replicate. lia.
    - cbn. intros i Hi. lia. }
  destruct (build_loop_filter _ _ Hinv Hf) as (z' & E & H' & Hf' & Hs).
  exists z'. split; [done|]. split; [done|]. split; [done|].
  eapply same_data_trans; [|done]. unfold same_data; cbn; repeat split; done.
Qed.

Lemma bucket_chain_slot z h h' :
  Js.and h (hashmask z) = Js.and h' (hashmask z) → bucket_chain z h = bucket_chain z h'.
Proof. intros E. unfold bucket_chain. by rewrite E. Qed.

Lemma bucket_chain_sorted z h :
  build_inv 0 z →
  StronglySorted Z.lt (bucket_chain z h) ∧ ∀ x, x ∈ bucket_chain z h → 0 ≤ x < blocks z.
Proof.
  intros (Hn & Hbl & [tbl Htbl] & Hlinks & Hheads). unfold bucket_chain. rewrite Htbl.
  cbn [mbind option_bind].
  destruct (chain_sorted (length (blockhashes z)) z
              (mjoin (Js.get tbl (Js.and h (hashmask z)))) 0 (blocks z)) as [Hs Hin].
  - done.
  - intros pi Hpi. destruct (Js.get tbl _) as [[m|]|] eqn:Hg; try done.
    injection Hpi as ->. by eapply Hheads.
  - split; [done|]. intros x (pi & Hpi & Hx)%Hin.
    destruct (Js.get tbl _) as [[m|]|] eqn:Hg; try done.
    injection Hpi as ->. specialize (Hheads _ _ _ Htbl Hg). lia.
Qed.

(** X12: [build_hash] returns, leaves the sums of the blocks as they were,
    and files every block of the target in the bucket of its hash: the chain
    of a bucket holds exactly the blocks whose [calc_rhash] falls in that
    bucket, in ascending order of block id. *)
Theorem build_hash_buckets z :
  0 ≤ blocks z < Z.of_nat (length (blockhashes z)) →
  ∃ z', build_hash z = Ok z' ∧ same_data z z'
    ∧ ∀ h, StronglySorted Z.lt (bucket_chain z' h)
           ∧ ∀ i, i ∈ bucket_chain z' h
                  ↔ 0 ≤ i < blocks z
                    ∧ ∃ hi, calc_rhash z' i = Ok hi
                            ∧ Js.and hi (hashmask z') = Js.and h (hashmask z').
Proof.
  intros Hb. destruct (build_hash_filter z Hb) as (z' & E & Hidx & _ & Hs).
  exists z'. split; [done|]. split; [done|]. intros h.
  destruct Hidx as (Hinv & _ & _ & Hfound & Hsound).
  destruct (bucket_chain_sorted z' h Hinv) as [Hsorted Hrange].
  assert (blocks z' = blocks z) as Hblocks by apply Hs.
  split; [done|]. intros i. split.
  - intros Hi. split; [rewrite <- Hblocks; by apply Hrange|by apply Hsound].
  - intros [Hi (hi & Ehi & Hslot)]. destruct (Hfound i ltac:(lia)) as (hi' & Ehi' & Hin).
    rewrite Ehi in Ehi'. injection Ehi' as <-. by rewrite <- (bucket_chain_slot z' hi h).
Qed.

Lemma build_hash_buckets_witness :
  ∃ z', build_hash demo = Ok z' ∧ same_data demo z'
    ∧ ∀ h, StronglySorted Z.lt (bucket_chain z' h)
           ∧ ∀ i, i ∈ bucket_chain z' h
                  ↔ 0 ≤ i < blocks demo
                    ∧ ∃ hi, calc_rhash z' i = Ok hi
                            ∧ Js.and hi (hashmask z') = Js.and h (hashmask z').
Proof. apply (build_hash_buckets demo). split; by vm_compute. Defined.

(** X13: after [build_hash], a window whose hash, as the matcher computes
    it from its rolling sums, is the [calc_rhash] of block [i] passes the bit
    filter and finds the bucket of block [i]: [lookup] returns the head of a
    chain that holds block [i]. *)
Theorem lookup_after_build z z' i h sums0 sums1 :
  0 ≤ blocks z < Z.of_nat (length (blockhashes z)) → 0 ≤ i < blocks z →
  build_hash z = Ok z' → calc_rhash z' i = Ok h →
  window_hash (set_r1 sums1 (set_r0 sums0 z')) = h →
  ∃ e, lookup (set_r1 sums1 (set_r0 sums0 z')) = Some e
       ∧ head (bucket_chain z' h) = Some e ∧ i ∈ bucket_chain z' h.
Proof.
  intros Hb Hi E0 Eh0 Hw. destruct (build_hash_filter z Hb) as (z'' & E & Hidx & Hf & Hs).
  rewrite E0 in E. injection E as <-.
  assert (blocks z' = blocks z) as Hblocks by apply Hs.
  destruct Hidx as (Hinv & _ & (tbl & Htbl & _) & Hfound & _).
  destruct Hf as (_ & (bits & Hbits & _) & Hset).
  destruct (Hfound i ltac:(lia)) as (h1 & Eh & Hin).
  rewrite Eh0 in Eh. injection Eh as <-.
  destruct (Hset i ltac:(lia)) as (h' & Eh' & Hbit). rewrite Eh0 in Eh'. injection Eh' as <-.
  unfold lookup. rewrite Hw.
  cbn [bithash rsum_hash bithashmask hashmask set_r0 set_r1]. rewrite Hbits, Htbl.
  cbn [mbind option_bind]. unfold bit_test in Hbit. rewrite Hbits in Hbit. rewrite Hbit.
  revert Hin. unfold bucket_chain. rewrite Htbl. cbn [mbind option_bind].
  destruct (mjoin (Js.get tbl (Js.and h (hashmask z')))) as [e|].
  - intros Hin. exists e. split; [done|]. split; [|done].
    destruct (length (blockhashes z')); [by apply elem_of_nil in Hin|done].
  - destruct (length (blockhashes z')); by intros ?%elem_of_nil.
Qed.

Lemma lookup_after_build_witness :
  ∃ e, lookup (set_r1 {| a := 0; b := 0 |} (set_r0 {| a := 10; b := 20 |} (indexed demo)))
       = Some e
       ∧ head (bucket_chain (indexed demo) 68) = Some e ∧ 0 ∈ bucket_chain (indexed demo) 68.
Proof.
  apply (lookup_after_build demo (indexed demo) 0 68 {| a := 10; b := 20 |} {| a := 0; b := 0 |});
    [split; by vm_compute|split; by vm_compute|by vm_compute|by vm_compute|by vm_compute].
Defined.

End IndexFacts.

(** ** rsum.ts: the rolling sums and the scan of local data *)
Module ScanFacts.
Import Internal Hash Range Rsum RsumFacts Scan Scenario.

Lemma to_int32_mod v m : (m | 2 ^ 32) → Js.to_int32 v mod m = v mod m.
Proof.
  intros [q Hq]. unfold Js.to_int32.
  rewrite (Z.mod_eq (v + 2 ^ 31) (2 ^ 32)) by lia. rewrite Hq.
  replace (v + 2 ^ 31 - q * m * ((v + 2 ^ 31) / (q * m)) - 2 ^ 31)
    with (v + (- q * ((v + 2 ^ 31) / (q * m))) * m) by lia.
  apply Z.mod_add. intros ->. lia.
Qed.

Lemma and_ffff v : Js.and v 0xffff = v mod 2 ^ 16.
Proof.
  unfold Js.and. rewrite (to_int32_small 0xffff) by lia. change 0xffff with (Z.ones 16).
  rewrite Z.land_ones by lia. apply to_int32_mod. exists (2 ^ 16). lia.
Qed.

Lemma and_ff c : 0 ≤ c < 256 → Js.and c 0xff = c.
Proof.
  intros Hc. unfold Js.and. rewrite !to_int32_small by lia. change 0xff with (Z.ones 8).
  rewrite Z.land_ones by lia. apply Z.mod_small. lia.
Qed.

Lemma shl_mod c s : 0 ≤ s < 32 → Js.shl c s mod 2 ^ 16 = (c * 2 ^ s) mod 2 ^ 16.
Proof.
  intros Hs. unfold Js.shl. rewrite to_int32_mod by (exists (2 ^ 16); lia).
  unfold Js.to_uint32. rewrite (Z.mod_small s (2 ^ 32)) by lia. rewrite (Z.mod_small s 32) by lia.
  rewrite Z.shiftl_mul_pow2 by lia.
  rewrite <- Z.mul_mod_idemp_l by lia. rewrite to_int32_mod by (exists (2 ^ 16); lia).
  by rewrite Z.mul_mod_idemp_l by lia.
Qed.

Lemma rsum_loop_closed n data i acc w :
  0 ≤ i → take n (drop (Z.to_nat i) data) = w → length w = n →
  0 ≤ a acc < 2 ^ 16 → 0 ≤ b acc < 2 ^ 16 →
  rsum_loop n data i acc
  = {| a := (a acc + sum1 w) mod 2 ^ 16; b := (b acc + sum2 w) mod 2 ^ 16 |}.
Proof.
  revert data i acc w. induction n as [|n IH]; intros data i acc w Hi Hw Hl Ha Hb.
  - destruct w; [|done]. cbn. rewrite !Z.add_0_r, !Z.mod_small by lia. by destruct acc.
  - destruct w as [|c w]; [done|]. cbn [rsum_loop].
    assert (Js.get data i = Some c ∧ take n (drop (Z.to_nat (i + 1)) data) = w) as [Hc Hw'].
    { unfold Js.get. destruct (Z.ltb_spec i 0); [lia|].
      destruct (drop (Z.to_nat i) data) as [|c' d'] eqn:Hd; [done|].
      cbn in Hw. injection Hw as -> Hw.
      assert (data !! Z.to_nat i = Some c) as Hlk.
      { pose proof (lookup_drop data (Z.to_nat i) 0) as E. rewrite Hd, Nat.add_0_r in E.
        by rewrite <- E. }
      split; [done|]. rewrite (drop_S _ _ _ Hlk) in Hd. injection Hd as <-.
      by replace (Z.to_nat (i + 1)) with (S (Z.to_nat i)) by lia. }
    rewrite Hc, !and_ffff.
    rewrite (IH data (i + 1) _ w); cbn [a b]; try done; try lia; try (apply Z.mod_pos_bound; lia).
    + f_equal.
      * rewrite Z.add_mod_idemp_l by lia. f_equal. cbn [sum1]. lia.
      * rewrite Z.add_mod_idemp_l by lia. f_equal. cbn [sum2 length].
        injection Hl as Hl. rewrite Hl. lia.
    + by injection Hl.
Qed.

Lemma calc_window data x n :
  0 ≤ x → 0 ≤ n → x + n ≤ Z.of_nat (length data) →
  rcksum_calc_rsum_block (Js.subarray_from data x) n
  = {| a := sum1 (take (Z.to_nat n) (drop (Z.to_nat x) data)) mod 2 ^ 16;
       b := sum2 (take (Z.to_nat n) (drop (Z.to_nat x) data)) mod 2 ^ 16 |}.
Proof.
  intros Hx Hn Hl. unfold rcksum_calc_rsum_block.
  unfold Js.subarray_from, Js.rel_index. destruct (Z.ltb_spec x 0); [lia|].
  rewrite Z.min_l by lia.
  rewrite (rsum_loop_closed _ _ 0 _ (take (Z.to_nat n) (drop (Z.to_nat x) data))); cbn [a b];
    try done; try lia.
  rewrite length_take, length_drop. lia.
Qed.

Lemma sum1_snoc w c : sum1 (w ++ [c]) = sum1 w + c.
Proof. induction w as [|d w IH]; cbn [sum1 app]; lia. Qed.

Lemma sum2_snoc w c : sum2 (w ++ [c]) = sum2 w + sum1 w + c.
Proof.
  induction w as [|d w IH]; cbn [sum1 sum2 app length]; [lia|].
  rewrite IH, length_app. cbn [length]. lia.
Qed.

Lemma window_shift (data : list Z) x n :
  0 ≤ x → 0 < n → x + n < Z.of_nat (length data) →
  ∃ oc nc m, Js.get data x = Some oc ∧ Js.get data (x + n) = Some nc
    ∧ take (Z.to_nat n) (drop (Z.to_nat x) data) = oc :: m
    ∧ take (Z.to_nat n) (drop (Z.to_nat (x + 1)) data) = m ++ [nc]
    ∧ Z.of_nat (length m) = n - 1.
Proof.
  intros Hx Hn Hl.
  destruct (lookup_lt_is_Some_2 data (Z.to_nat x)) as [oc Hoc]; [lia|].
  destruct (lookup_lt_is_Some_2 data (Z.to_nat (x + n))) as [nc Hnc]; [lia|].
  set (k := (Z.to_nat n - 1)%nat).
  set (d := drop (S (Z.to_nat x)) data).
  exists oc, nc, (take k d).
  unfold Js.get. destruct (Z.ltb_spec x 0); [lia|]. destruct (Z.ltb_spec (x + n) 0); [lia|].
  split; [done|]. split; [done|].
  assert (d !! k = Some nc) as Hk.
  { unfold d. rewrite lookup_drop. rewrite <- Hnc. f_equal. lia. }
  split; [|split].
  - rewrite (drop_S _ _ _ Hoc). replace (Z.to_nat n) with (S k) by lia. done.
  - replace (Z.to_nat (x + 1)) with (S (Z.to_nat x)) by lia. fold d.
    replace (Z.to_nat n) with (S k) by lia. by apply take_S_r.
  - rewrite length_take. apply lookup_lt_Some in Hk. lia.
Qed.

Lemma roll_sums z data x :
  blocksize z = 2 ^ blockshift z → 0 ≤ blockshift z < 32 →
  Forall (λ c, 0 ≤ c < 256) data → 0 ≤ x →
  (x + blocksize z < Z.of_nat (length data) →
   r0 z = rcksum_calc_rsum_block (Js.subarray_from data x) (blocksize z) →
   r0 (roll z data x)
   = rcksum_calc_rsum_block (Js.subarray_from data (x + 1)) (blocksize z))
  ∧ (1 < seq_matches z → x + 2 * blocksize z < Z.of_nat (length data) →
     r1 z = rcksum_calc_rsum_block (Js.subarray_from data (x + blocksize z)) (blocksize z) →
     r1 (roll z data x)
     = rcksum_calc_rsum_block (Js.subarray_from data (x + 1 + blocksize z)) (blocksize z)).
Proof.
  intros Hbs Hsh Hbytes Hx.
  assert (0 < blocksize z) as Hpos by (rewrite Hbs; apply Z.pow_pos_nonneg; lia).
  assert (∀ y s oldc newc, 0 ≤ y → y + blocksize z < Z.of_nat (length data) →
            s = rcksum_calc_rsum_block (Js.subarray_from data y) (blocksize z) →
            oldc = Js.get data y → newc = Js.get data (y + blocksize z) →
            update_rsum s oldc newc (blockshift z)
            = rcksum_calc_rsum_block (Js.subarray_from data (y + 1)) (blocksize z)) as Hroll.
  { intros y s oldc newc Hy Hl -> -> ->.
    destruct (window_shift data y (blocksize z) Hy Hpos Hl) as (oc & nc & m & Hoc & Hnc & Hw & Hw' & Hm).
    rewrite !calc_window by lia. rewrite Hw, Hw', Hoc, Hnc. unfold update_rsum, unsignedChar.
    cbn [a b default from_option id].
    assert (0 ≤ oc < 256 ∧ 0 ≤ nc < 256) as [Hocr Hncr].
    { rewrite Forall_forall in Hbytes. unfold Js.get in Hoc, Hnc.
      destruct (y <? 0); [done|]. destruct (y + blocksize z <? 0); [done|].
      split; apply Hbytes; by eapply list_elem_of_lookup_2. }
    rewrite !and_ff by done. rewrite !and_ffff.
    rewrite sum1_snoc, sum2_snoc. cbn [sum1 sum2 length].
    assert (∃ q3, Js.shl oc (blockshift z) = oc * blocksize z + 2 ^ 32 * q3) as [q3 ->].
    { unfold Js.shl. rewrite (to_int32_small oc) by lia. unfold Js.to_uint32.
      rewrite (Z.mod_small (blockshift z) (2 ^ 32)) by lia.
      rewrite (Z.mod_small (blockshift z) 32) by lia.
      rewrite Z.shiftl_mul_pow2, <- Hbs by lia. unfold Js.to_int32.
      rewrite (Z.mod_eq (oc * blocksize z + 2 ^ 31) (2 ^ 32)) by lia.
      exists (- ((oc * blocksize z + 2 ^ 31) / 2 ^ 32)). lia. }
    assert (∀ X Y k, X = Y + k * 2 ^ 16 → X mod 2 ^ 16 = Y mod 2 ^ 16) as Hmod.
    { intros X Y k ->. apply Z.mod_add. lia. }
    f_equal.
    - rewrite Z.add_mod_idemp_l by lia. f_equal. lia.
    - rewrite (Z.mod_eq (oc + sum1 m) (2 ^ 16)) by lia.
      set (q1 := (oc + sum1 m) / 2 ^ 16).
      rewrite (Z.mod_eq (oc + sum1 m - 2 ^ 16 * q1 + (nc - oc)) (2 ^ 16)) by lia.
      set (q2 := (oc + sum1 m - 2 ^ 16 * q1 + (nc - oc)) / 2 ^ 16).
      rewrite (Z.mod_eq (Z.of_nat (S (length m)) * oc + sum2 m) (2 ^ 16)) by lia.
      set (q0 := (Z.of_nat (S (length m)) * oc + sum2 m) / 2 ^ 16).
      apply (Hmod _ _ (- q0 - q1 - q2 - 65536 * q3)).
      replace (Z.of_nat (S (length m))) with (blocksize z) by lia. lia. }
  unfold roll. split.
  - intros Hl Hr0. assert (∀ zz v, r0 (if 1 <? seq_matches zz then set_r1 v zz else zz) = r0 zz) as Hr
      by (intros zz v; by destruct (_ <? _)).
    rewrite Hr. cbn [r0 set_r0]. by apply Hroll.
  - intros Hseq Hl Hr1. cbn [seq_matches set_r0]. destruct (Z.ltb_spec 1 (seq_matches z)); [|lia].
    cbn [r1 set_r1 set_r0 blockshift].
    replace (x + 1 + blocksize z) with (x + blocksize z + 1) by lia.
    apply Hroll; try done; try lia. f_equal. lia.
Qed.

(** X14: the update of the rolling sums when the window moves on by one
    byte gives the sums that [rcksum_calc_rsum_block] computes on the new
    window: for [r0] on the block at [x + 1], and, with sequential matching,
    for [r1] on the block after it. *)
Theorem roll_is_recomputation z data x :
  blocksize z = 2 ^ blockshift z → 0 ≤ blockshift z < 32 →
  Forall (λ c, 0 ≤ c < 256) data → 0 ≤ x →
  (x + blocksize z < Z.of_nat (length data) →
   r0 z = rcksum_calc_rsum_block (Js.subarray_from data x) (blocksize z) →
   r0 (roll z data x)
   = rcksum_calc_rsum_block (Js.subarray_from data (x + 1)) (blocksize z))
  ∧ (1 < seq_matches z → x + 2 * blocksize z < Z.of_nat (length data) →
     r1 z = rcksum_calc_rsum_block (Js.subarray_from data (x + blocksize z)) (blocksize z) →
     r1 (roll z data x)
     = rcksum_calc_rsum_block (Js.subarray_from data (x + 1 + blocksize z)) (blocksize z)).
Proof. apply roll_sums. Qed.

Lemma roll_is_recomputation_witness :
  r0 (roll (at_window target demo) target 0)
  = rcksum_calc_rsum_block (Js.subarray_from target (0 + 1)) (blocksize (at_window target demo)).
Proof.
  destruct (roll_is_recomputation (at_window target demo) target 0) as [H _];
    [by vm_compute|split; by vm_compute|apply (bool_decide_unpack _); by vm_compute|lia|].
  apply H; by vm_compute.
Defined.


Lemma window_at_id z data x :
  r0 z = rcksum_calc_rsum_block (Js.subarray_from data x) (blocksize z) →
  (1 < seq_matches z →
   r1 z = rcksum_calc_rsum_block (Js.subarray_from data (x + blocksize z)) (blocksize z)) →
  window_at z data x = z.
Proof.
  intros H0 H1. unfold window_at. cbn [seq_matches set_r0 blocksize].
  destruct (Z.ltb_spec 1 (seq_matches z)).
  - rewrite <- H0, <- H1 by done. by destruct z.
  - rewrite <- H0. by destruct z.
Qed.

Lemma window_at_roll z data x y : window_at (roll z data x) data y = window_at z data y.
Proof.
  destruct z as [? ? ? ? ? ? ? ? sm ? ? ? ? ? ? ? ? ? ? ? ? ? ? ? ?].
  unfold window_at, roll. cbn -[rcksum_calc_rsum_block update_rsum Js.get Js.subarray_from Z.add Z.mul Z.ltb].
  destruct (1 <? sm) eqn:E; cbn -[rcksum_calc_rsum_block update_rsum Js.get Js.subarray_from Z.add Z.mul Z.ltb];
    rewrite ?E; reflexivity.
Qed.

Lemma window_at_idem z data y y' : window_at (window_at z data y) data y' = window_at z data y'.
Proof.
  destruct z as [? ? ? ? ? ? ? ? sm ? ? ? ? ? ? ? ? ? ? ? ? ? ? ? ?].
  unfold window_at. cbn -[rcksum_calc_rsum_block Js.subarray_from Z.add Z.mul Z.ltb].
  destruct (1 <? sm) eqn:E; cbn -[rcksum_calc_rsum_block Js.subarray_from Z.add Z.mul Z.ltb];
    rewrite ?E; reflexivity.
Qed.

Lemma roll_frame z data x :
  blocksize (roll z data x) = blocksize z ∧ blockshift (roll z data x) = blockshift z
  ∧ seq_matches (roll z data x) = seq_matches z ∧ context (roll z data x) = context z
  ∧ next_match (roll z data x) = next_match z.
Proof. unfold roll. cbn [seq_matches set_r0]. by destruct (1 <? seq_matches z). Qed.

Lemma source_loop_no_hit data len : 
  Forall (λ c, 0 ≤ c < 256) data → len ≤ Z.of_nat (length data) →
  ∀ fuel z x,
  blocksize z = 2 ^ blockshift z → 0 ≤ blockshift z < 32 →
  1 ≤ seq_matches z → context z = blocksize z * seq_matches z →
  next_match z = None →
  0 ≤ x → x + context z ≤ len → (Z.to_nat (len - context z - x) < fuel)%nat →
  r0 z = rcksum_calc_rsum_block (Js.subarray_from data x) (blocksize z) →
  (1 < seq_matches z →
   r1 z = rcksum_calc_rsum_block (Js.subarray_from data (x + blocksize z)) (blocksize z)) →
  (∀ y, x ≤ y < len - context z → lookup (window_at z data y) = None) →
  source_loop fuel z data len x = Ok (window_at z data (len - context z)).
Proof.
  intros Hbytes Hlen. induction fuel as [|fuel IH]; intros z x Hbs Hsh Hsm Hctx Hnm Hx Hxl Hf H0 H1 Hno;
    [lia|].
  assert (0 < blocksize z) as Hpos by (rewrite Hbs; apply Z.pow_pos_nonneg; lia).
  cbn [source_loop]. destruct (Z.eqb_spec (x + context z) len) as [E|E].
  - f_equal. replace (len - context z) with x by lia. symmetry. by apply window_at_id.
  - destruct (Z.ltb_spec len (x + context z)); [lia|].
    rewrite Hnm. cbn [mbind res_bind]. change (0 =? 0) with true. cbv iota.
    rewrite <- (window_at_id z data x H0 H1) at 1. rewrite Hno by lia.
    cbn [mbind res_bind]. change (negb (0 =? 0)) with false. cbv iota.
    destruct (roll_frame z data x) as (Fbs & Fsh & Fsm & Fctx & Fnm).
    destruct (roll_sums z data x Hbs Hsh Hbytes Hx) as [R0 R1].
    rewrite IH; rewrite ?Fbs, ?Fsh, ?Fsm, ?Fctx, ?Fnm; try done; try lia.
    + by rewrite window_at_roll.
    + apply R0; [nia|done].
    + intros Hs. replace (x + 1 + blocksize z) with (x + 1 + blocksize z) by lia.
      apply R1; [done|nia|by apply H1].
    + intros y Hy. rewrite window_at_roll. apply Hno. lia.
Qed.

Lemma lookup_frame z v w data y :
  lookup (window_at (set_skip v (set_next_match w z)) data y) = lookup (window_at z data y).
Proof.
  unfold window_at. cbn [seq_matches set_r0 set_skip set_next_match blocksize].
  by destruct (1 <? seq_matches z).
Qed.

(** X15: [rcksum_submit_source_data] on the first chunk of a local file
    (offset 0) in which no window has a hit in the index (the lookup fails at
    every position before the last) returns when the window reaches the end
    of the chunk, with [skip = 0], no pending match, and the rolling sums of
    the last window; the rest of the state, with the file and the known
    ranges, is as it was. *)
Theorem rcksum_submit_source_data_no_hit z data len :
  is_Some (rsum_hash z) →
  blocksize z = 2 ^ blockshift z → 0 ≤ blockshift z < 32 →
  1 ≤ seq_matches z → context z = blocksize z * seq_matches z →
  Forall (λ c, 0 ≤ c < 256) data → context z ≤ len ≤ Z.of_nat (length data) →
  (∀ y, 0 ≤ y < len - context z → lookup (window_at z data y) = None) →
  rcksum_submit_source_data z data len 0
  = Ok (window_at (set_skip 0 (set_next_match None z)) data (len - context z)).
Proof.
  intros [tbl Ht] Hbs Hsh Hsm Hctx Hbytes Hlen Hno. unfold rcksum_submit_source_data.
  rewrite Ht. change (negb (0 =? 0)) with false. cbv iota. change (0 =? 0) with true.
  rewrite orb_true_r. cbv iota.
  set (z1 := set_skip 0 _).
  assert (z1 = window_at (set_skip 0 (set_next_match None z)) data 0) as ->.
  { unfold z1, window_at. cbn [seq_matches set_r0 set_skip set_next_match blocksize].
    rewrite Z.add_0_l. by destruct (1 <? seq_matches z). }
  set (z2 := set_skip 0 (set_next_match None z)).
  assert (∀ y, blocksize (window_at z2 data y) = blocksize z
               ∧ blockshift (window_at z2 data y) = blockshift z
               ∧ seq_matches (window_at z2 data y) = seq_matches z
               ∧ context (window_at z2 data y) = context z
               ∧ next_match (window_at z2 data y) = None
               ∧ r0 (window_at z2 data y)
                 = rcksum_calc_rsum_block (Js.subarray_from data y) (blocksize z)
               ∧ (1 < seq_matches z →
                  r1 (window_at z2 data y)
                  = rcksum_calc_rsum_block (Js.subarray_from data (y + blocksize z)) (blocksize z))
               ∧ True) as Hw.
  { intros y. unfold window_at, z2. cbn [seq_matches set_r0 set_skip set_next_match blocksize].
    destruct (Z.ltb_spec 1 (seq_matches z)) as [Hs|Hs]; repeat split; try done; try (intros; lia). }
  destruct (Hw 0) as (Fbs & Fsh & Fsm & Fctx & Fnm & F0 & F1 & _).
  rewrite (source_loop_no_hit data len Hbytes (proj2 Hlen));
    rewrite ?Fbs, ?Fsh, ?Fsm, ?Fctx, ?Fnm; try done; try lia.
  - by rewrite window_at_idem.
  - intros y Hy. rewrite window_at_idem. unfold z2. rewrite lookup_frame. by apply Hno.
Qed.

Lemma rcksum_submit_source_data_no_hit_witness :
  rcksum_submit_source_data (indexed demo) [9; 9; 9; 9; 9; 9] 6 0
  = Ok (window_at (set_skip 0 (set_next_match None (indexed demo))) [9; 9; 9; 9; 9; 9]
          (6 - context (indexed demo))).
Proof.
  apply (rcksum_submit_source_data_no_hit (indexed demo) [9; 9; 9; 9; 9; 9] 6);
    [eexists; vm_compute; reflexivity|by vm_compute|split; by vm_compute|by vm_compute
    |by vm_compute|apply (bool_decide_unpack _); by vm_compute|split; by vm_compute|].
  assert (context (indexed demo) = 4) as E by (by vm_compute).
  intros y Hy. rewrite E in Hy.
  assert (y = 0 ∨ y = 1) as [-> | ->] by lia; by vm_compute.
Defined.

End ScanFacts.

(** ** rsum.ts: the sums of a block, and the scan of a short file *)
Module ScanFileFacts.
Import Internal Hash HashFacts Range Rsum RsumFacts Stdio Scan ScanFile ScanFacts Scenario.

(** X24: [rcksum_calc_rsum_block(data, len)] on a buffer that holds
    [len] bytes returns the plain sum of the bytes as [a] and, as [b], their
    weighted sum, the first byte weighing [len] and the last 1, both modulo
    65536. *)
Theorem rcksum_calc_rsum_block_sums data n :
  0 ≤ n ≤ Z.of_nat (length data) →
  rcksum_calc_rsum_block data n
  = {| a := sum1 (take (Z.to_nat n) data) mod 2 ^ 16;
       b := sum2 (take (Z.to_nat n) data) mod 2 ^ 16 |}.
Proof.
  intros Hn. unfold rcksum_calc_rsum_block.
  rewrite (rsum_loop_closed _ _ 0 _ (take (Z.to_nat n) data)); cbn [a b]; try done; try lia.
  rewrite length_take. lia.
Qed.

Lemma rcksum_calc_rsum_block_sums_witness :
  rcksum_calc_rsum_block target 4
  = {| a := sum1 (take (Z.to_nat 4) target) mod 2 ^ 16;
       b := sum2 (take (Z.to_nat 4) target) mod 2 ^ 16 |}.
Proof. apply (rcksum_calc_rsum_block_sums target 4). split; by vm_compute. Defined.

Lemma build_step_context z i z' : build_step z i = Ok z' → context z' = context z.
Proof.
  unfold build_step. destruct (entry z i) as [e| | |]; try done. cbn [mbind res_bind].
  destruct (calc_rhash z i) as [h| | |]; try done. cbn [mbind res_bind].
  by intros [= <-].
Qed.

Lemma build_loop_context n z z' : build_loop n z = Ok z' → context z' = context z.
Proof.
  revert z. induction n as [|n IH]; intros z; cbn [build_loop]; [by intros [= <-]|].
  destruct (build_step z (Z.of_nat n)) as [z1| | |] eqn:E; try done. cbn [mbind res_bind].
  intros ->%IH. by eapply build_step_context.
Qed.

Lemma build_hash_context z z' : build_hash z = Ok z' → context z' = context z.
Proof. unfold build_hash. by intros ->%build_loop_context. Qed.

(** X25: [rcksum_submit_source_file] on a file of at most 16 blocks
    builds the index when there is none and scans the file in one call of
    [rcksum_submit_source_data]: the buffer holds the bytes of the file
    followed by zeros, and [len] is the size of the file plus [context], so
    that the window can reach the last byte.  An empty file is not scanned
    at all. *)
Theorem rcksum_submit_source_file_one_chunk z z0 f :
  (match rsum_hash z with None => build_hash z | Some _ => Ok z end) = Ok z0 →
  0 < blocksize z → 0 ≤ context z → Z.of_nat (length f) ≤ blocksize z * 16 →
  rcksum_submit_source_file z f
  = if decide (f = []) then Ok z0
    else rcksum_submit_source_data z0
           (f ++ replicate (Z.to_nat (blocksize z * 16 + context z) - length f) 0)
           (Z.of_nat (length f) + context z) 0.
Proof.
  intros E0 Hbs Hctx Hlen. unfold rcksum_submit_source_file. rewrite E0.
  assert (context z0 = context z) as Ec.
  { destruct (rsum_hash z); [by injection E0 as <-|by apply build_hash_context]. }
  cbn [mbind res_bind source_file_loop]. unfold feof at 1.
  case_decide as Hf; [by rewrite bool_decide_eq_true_2|].
  rewrite bool_decide_eq_false_2 by done.
  unfold source_file_step. cbn [Z.eqb]. unfold fread.
  destruct (Z.ltb_spec (blocksize z * 16) 0); [lia|].
  rewrite length_replicate.
  destruct (Z.ltb_spec (Z.of_nat (Z.to_nat (blocksize z * 16 + context z))) (0 + blocksize z * 16));
    [lia|].
  rewrite (take_ge f) by lia. rewrite (drop_ge f) by lia.
  change (0 <? 0) with false. cbn [orb mbind res_bind].
  unfold feof at 1. rewrite bool_decide_eq_true_2 by done.
  rewrite take_0. cbn [app Z.to_nat Nat.add]. rewrite drop_replicate.
  change (Z.to_nat 0 + length f)%nat with (length f). rewrite Ec.
  set (pad := (Z.to_nat (blocksize z * 16 + context z) - length f)%nat).
  assert (Js.fill (f ++ replicate pad 0) 0 (Z.of_nat (length f))
            (Z.of_nat (length f) + context z) = f ++ replicate pad 0) as ->.
  { unfold Js.fill, Js.rel_index. rewrite length_app, length_replicate.
    destruct (Z.ltb_spec (Z.of_nat (length f)) 0); [lia|].
    destruct (Z.ltb_spec (Z.of_nat (length f) + context z) 0); [lia|].
    rewrite !Z.min_l by lia.
    rewrite take_app_length'. 2: lia.
    replace (Z.to_nat (Z.of_nat (length f)) + Z.to_nat (Z.of_nat (length f) + context z - Z.of_nat (length f)))%nat
      with (length f + Z.to_nat (context z))%nat by lia.
    rewrite drop_app_add', drop_replicate by done. f_equal.
    rewrite <- replicate_add. f_equal. lia. }
  destruct (rcksum_submit_source_data z0 _ _ 0) as [z'| | |]; try done.
  cbn [mbind res_bind]. destruct (length f); cbn [source_file_loop]; done.
Qed.

Lemma rcksum_submit_source_file_one_chunk_witness :
  rcksum_submit_source_file demo [9; 9; 9; 9; 9; 9]
  = if decide ([9; 9; 9; 9; 9; 9] = []) then Ok (indexed demo)
    else rcksum_submit_source_data (indexed demo)
           ([9; 9; 9; 9; 9; 9]
              ++ replicate (Z.to_nat (blocksize demo * 16 + context demo)
                            - length [9; 9; 9; 9; 9; 9]) 0)
           (Z.of_nat (length [9; 9; 9; 9; 9; 9]) + context demo) 0.
Proof.
  apply (rcksum_submit_source_file_one_chunk demo (indexed demo) [9; 9; 9; 9; 9; 9]);
    by vm_compute.
Defined.

End ScanFileFacts.

(** ** hash.ts: entering and removing blocks *)
Module TargetFacts.
Import Internal Hash HashFacts Rsum RsumFacts IndexFacts Scenario.

(** X16: [rcksum_add_target_block] on a block id past the target does
    nothing; on a block of the target it stores the weak sums, with [a] cut
    to [rsum_a_mask], and the checksum, in the entry of that block alone.  A
    state without index stays without one; an index that was built is thrown
    away, the table left empty and the bit table null, after which every
    lookup of the matcher fails. *)
Theorem rcksum_add_target_block_stores z bid sums sum :
  0 ≤ bid < Z.of_nat (length (blockhashes z)) →
  (blocks z ≤ bid → rcksum_add_target_block z bid sums sum = Ok z)
  ∧ (bid < blocks z →
     ∃ z' e, rcksum_add_target_block z bid sums sum = Ok z'
       ∧ Js.get (blockhashes z') bid = Some e
       ∧ r e = {| a := Js.and (a sums) (rsum_a_mask z); b := b sums |}
       ∧ checksum e = Some sum
       ∧ (∀ j, j ≠ bid → Js.get (blockhashes z') j = Js.get (blockhashes z) j)
       ∧ (rsum_hash z = None → rsum_hash z' = None ∧ bithash z' = bithash z)
       ∧ (is_Some (rsum_hash z) →
          rsum_hash z' = Some [] ∧ bithash z' = None
          ∧ ∀ sums0 sums1, lookup (set_r1 sums1 (set_r0 sums0 z')) = None)).
Proof.
  intros Hb. unfold rcksum_add_target_block, entry. split.
  - intros Hge. destruct (Z.ltb_spec bid (blocks z)); [lia|done].
  - intros Hlt. destruct (Z.ltb_spec bid (blocks z)); [|lia].
    destruct (get_is_Some (blockhashes z) bid Hb) as [e He]. rewrite He.
    cbn [mbind res_bind]. eexists _, _. split; [reflexivity|].
    cbn [rsum_hash set_blockhashes].
    assert (∀ zz, blockhashes (match rsum_hash z with
                               | Some _ => set_bithash None (set_rsum_hash (Some []) zz)
                               | None => zz
                               end) = blockhashes zz) as Hbh by (intros; by destruct (rsum_hash z)).
    rewrite Hbh. cbn [blockhashes set_blockhashes]. split.
    { rewrite get_insert by lia. rewrite decide_True by lia. done. }
    split; [done|]. split; [done|]. split.
    { intros j Hj. rewrite get_insert by lia. rewrite decide_False by lia. done. }
    split.
    + intros Hn. rewrite Hn. split; [exact Hn|done].
    + intros [tbl Ht]. rewrite Ht. split; [done|]. split; [done|]. intros sums0 sums1. done.
Qed.

Lemma rcksum_add_target_block_stores_witness :
  (blocks (indexed demo) ≤ 1
   → rcksum_add_target_block (indexed demo) 1 {| a := 70000; b := 5 |} [1; 2; 3] = Ok (indexed demo))
  ∧ (1 < blocks (indexed demo) →
     ∃ z' e, rcksum_add_target_block (indexed demo) 1 {| a := 70000; b := 5 |} [1; 2; 3] = Ok z'
       ∧ Js.get (blockhashes z') 1 = Some e
       ∧ r e = {| a := Js.and (a {| a := 70000; b := 5 |}) (rsum_a_mask (indexed demo));
                  b := b {| a := 70000; b := 5 |} |}
       ∧ checksum e = Some [1; 2; 3]
       ∧ (∀ j, j ≠ 1 → Js.get (blockhashes z') j = Js.get (blockhashes (indexed demo)) j)
       ∧ (rsum_hash (indexed demo) = None
          → rsum_hash z' = None ∧ bithash z' = bithash (indexed demo))
       ∧ (is_Some (rsum_hash (indexed demo)) →
          rsum_hash z' = Some [] ∧ bithash z' = None
          ∧ ∀ sums0 sums1, lookup (set_r1 sums1 (set_r0 sums0 z')) = None)).
Proof.
  apply (rcksum_add_target_block_stores (indexed demo) 1 {| a := 70000; b := 5 |} [1; 2; 3]).
  split; by vm_compute.
Defined.

Lemma chain_set_rover fuel z v p : chain fuel (set_rover v z) p = chain fuel z p.
Proof. revert p. induction fuel as [|fuel IH]; intros [pi|]; cbn; try done. by rewrite IH. Qed.

(** X17: on an indexed state [remove_block_from_hash] returns for every
    block of the target, and leaves the entries, the table, the bit table and
    every bucket chain as they were; [rover] moves only when it was the block
    removed. *)
Theorem remove_block_from_hash_only_moves_rover z id :
  chain_ok z → is_Some (rsum_hash z) → 0 ≤ id < blocks z →
  ∃ z', remove_block_from_hash z id = Ok z'
    ∧ blockhashes z' = blockhashes z ∧ rsum_hash z' = rsum_hash z ∧ bithash z' = bithash z
    ∧ (∀ h, bucket_chain z' h = bucket_chain z h)
    ∧ (rover z' = rover z ∨ rover z = Some id).
Proof.
  intros Hc Hs Hid.
  destruct (remove_block_from_hash_spec z id Hc Hs Hid) as [v E].
  exists (set_rover v z). split; [done|]. split; [done|]. split; [done|]. split; [done|].
  split.
  - intros h. unfold bucket_chain. cbn [blockhashes rsum_hash hashmask set_rover].
    apply chain_set_rover.
  - revert E. unfold remove_block_from_hash. destruct Hs as [tbl ->].
    destruct (calc_rhash z id) as [h| | |]; try done. cbn [mbind res_bind].
    generalize (mjoin (Js.get tbl (Js.and h (hashmask z)))).
    generalize (length (blockhashes z)). intros fuel. 
    induction fuel as [|fuel IH]; intros p; destruct p as [pi|]; cbn [remove_walk].
    + destruct (pi =? id); [|done].
      destruct (Js.get (blockhashes z) id) as [te|]; [|done]. cbn [num mbind res_bind].
      case_decide as Hr; [by right|]. intros [= E]. left. by rewrite <- E.
    + intros [= E]. left. by rewrite <- E.
    + destruct (pi =? id).
      * destruct (Js.get (blockhashes z) id) as [te|]; [|done]. cbn [num mbind res_bind].
        case_decide as Hr; [by right|]. intros [= E]. left. by rewrite <- E.
      * destruct (Js.get (blockhashes z) pi) as [pe|]; [|done]. cbn [num mbind res_bind].
        apply IH.
    + intros [= E]. left. by rewrite <- E.
Qed.

Lemma indexed_demo_ok : chain_ok (indexed demo) ∧ is_Some (rsum_hash (indexed demo)).
Proof.
  destruct (build_hash_spec demo) as (z' & E & Hc & Hs & _); [split; by vm_compute|].
  assert (indexed demo = z') as -> by (unfold indexed; by rewrite E). done.
Defined.

Lemma remove_block_from_hash_only_moves_rover_witness :
  ∃ z', remove_block_from_hash (indexed demo) 0 = Ok z'
    ∧ blockhashes z' = blockhashes (indexed demo) ∧ rsum_hash z' = rsum_hash (indexed demo)
    ∧ bithash z' = bithash (indexed demo)
    ∧ (∀ h, bucket_chain z' h = bucket_chain (indexed demo) h)
    ∧ (rover z' = rover (indexed demo) ∨ rover (indexed demo) = Some 0).
Proof.
  apply (remove_block_from_hash_only_moves_rover (indexed demo) 0);
    [exact (proj1 indexed_demo_ok)|exact (proj2 indexed_demo_ok)|split; by vm_compute].
Defined.

End TargetFacts.

(** ** state.ts and zsync.ts: the fresh state and the table of block sums *)
Module StateFacts.
Import Internal Range RangeFacts Hash HashFacts Stdio State RsumFacts TableView Scenario.

Lemma land_pred_pow2 bs :
  0 < bs → Z.land bs (bs - 1) = 0 ↔ bs = 2 ^ Z.log2 bs.
Proof.
  intros Hbs. pose proof (Z.log2_spec bs Hbs) as Hlog. pose proof (Z.log2_nonneg bs) as Hk.
  set (k := Z.log2 bs) in *. split.
  - intros Hland. destruct (decide (bs = 2 ^ k)) as [|Hne]; [done|]. exfalso.
    assert (Z.testbit (Z.land bs (bs - 1)) k = true) as Hbit.
    { rewrite Z.land_spec. unfold k at 1. rewrite Z.bit_log2 by done.
      assert (Z.log2 (bs - 1) = k) as Hl1.
      { apply Z.log2_unique; [done|]. replace (Z.succ k) with (k + 1) in * by lia. lia. }
      rewrite <- Hl1. rewrite Z.bit_log2 by lia. done. }
    rewrite Hland, Z.bits_0 in Hbit. done.
  - intros E. rewrite E. replace (2 ^ k - 1) with (Z.ones k) by (rewrite Z.ones_equiv; lia).
    rewrite Z.land_ones by done. apply Z.mod_same. pose proof (Z.pow_pos_nonneg 2 k). lia.
Qed.

Lemma head_filter_seqZ (P : Z → Prop) `{∀ i, Decision (P i)} n k :
  0 ≤ k < n → P k → (∀ i, 0 ≤ i < k → ¬ P i) → head (filter P (seqZ 0 n)) = Some k.
Proof.
  intros Hk HP Hnot. replace n with (k + (1 + (n - k - 1))) by lia.
  rewrite seqZ_app, filter_app by lia.
  assert (filter P (seqZ 0 k) = []) as ->.
  { assert (∀ l, Forall (λ i, ¬ P i) l → filter P l = []) as Hnil.
    { induction l as [|i l IH]; [done|]. intros [? ?]%Forall_cons.
      rewrite filter_cons_False by done. by apply IH. }
    apply Hnil, Forall_forall. intros i Hi%elem_of_seqZ. apply Hnot. lia. }
  cbn [app]. rewrite seqZ_app by lia. change (seqZ (0 + k) 1) with [0 + k].
  cbn [app]. rewrite filter_cons_True by (by rewrite Z.add_0_l). by rewrite Z.add_0_l.
Qed.

Lemma find_blockshift_pow2 k : 0 ≤ k ≤ 30 → find_blockshift (2 ^ k) = k.
Proof.
  intros Hk. unfold find_blockshift.
  assert (∀ i, 0 ≤ i ≤ 30 → Js.shl 1 i = 2 ^ i) as Hshl.
  { intros i Hi. rewrite shl_small; [lia|lia|lia|].
    pose proof (Z.pow_lt_mono_r 2 i 31 ltac:(lia) ltac:(lia) ltac:(lia)). lia. }
  rewrite (head_filter_seqZ _ 32 k); [done|lia|by rewrite Hshl|].
  intros i Hi. rewrite Hshl by lia. intros E. apply Z.pow_inj_r in E; lia.
Qed.

Lemma rcksum_init_spec n bs rsum_bytes csum_bytes sm path :
  0 < bs < 2 ^ 31 →
  match rcksum_init n bs rsum_bytes csum_bytes sm path with
  | Some z =>
      n ≠ 0 ∧ bs = 2 ^ blockshift z ∧ 0 ≤ blockshift z ≤ 30
      ∧ blocks z = n ∧ blocksize z = bs ∧ context z = bs * sm
      ∧ blockhashes z = replicate (Z.to_nat (n + sm)) blank_entry
      ∧ rsum_hash z = None ∧ fd z = Some []
      ∧ ranges_ok z ∧ (∀ x, ¬ known z x) ∧ rcksum_blocks_todo z = Ok n
  | None => n = 0 ∨ ∀ k, 0 ≤ k → bs ≠ 2 ^ k
  end.
Proof.
  intros Hbs. unfold rcksum_init, Js.and. rewrite !to_int32_small by lia.
  pose proof (land_pred_pow2 bs ltac:(lia)) as Hp.
  pose proof (Z.log2_spec bs ltac:(lia)) as Hlog. pose proof (Z.log2_nonneg bs) as Hk.
  assert (Z.log2 bs ≤ 30) as Hk30.
  { destruct (Z.le_gt_cases (Z.log2 bs) 30) as [|Hgt]; [done|].
    pose proof (Z.pow_le_mono_r 2 31 (Z.log2 bs) ltac:(lia) ltac:(lia)). lia. }
  destruct (Z.eqb_spec (Z.land bs (bs - 1)) 0) as [Hz|Hnz]; cbn [andb].
  - destruct (Z.eqb_spec n 0) as [->|Hn]; cbn [negb]; [by left|].
    apply Hp in Hz. unfold fresh_state.
    cbn [blocks blocksize blockshift context blockhashes rsum_hash fd].
    assert (find_blockshift bs = Z.log2 bs) as Hfb.
    { rewrite Hz at 1. apply find_blockshift_pow2. lia. }
    rewrite !Hfb.
    split; [done|]. split; [done|]. split; [lia|].
    split; [done|]. split; [done|]. split; [done|]. split; [done|]. split; [done|].
    split; [done|]. split; [by exists []|]. split.
    + intros x (i & lo & hi & _ & Hlo & _). cbn in Hlo. unfold Js.get in Hlo.
      by destruct (_ <? 0).
    + reflexivity.
  - right. intros k Hk0 ->. apply Hnz. apply Hp.
    by rewrite Z.log2_pow2 by done.
Qed.

(** X18: [rcksum_init] gives a state exactly when the number of blocks is
    not 0 and the block size is a power of two.  The state has the shift of
    the block size, one blank entry for every block and [seq_matches] more,
    no index, an empty file, and no known block: all [nblocks] blocks are
    still to do. *)
Theorem rcksum_init_cases n bs rsum_bytes csum_bytes sm path :
  0 < bs < 2 ^ 31 →
  match rcksum_init n bs rsum_bytes csum_bytes sm path with
  | Some z =>
      n ≠ 0 ∧ bs = 2 ^ blockshift z ∧ 0 ≤ blockshift z ≤ 30
      ∧ blocks z = n ∧ blocksize z = bs ∧ context z = bs * sm
      ∧ blockhashes z = replicate (Z.to_nat (n + sm)) blank_entry
      ∧ rsum_hash z = None ∧ fd z = Some []
      ∧ ranges_ok z ∧ (∀ x, ¬ known z x) ∧ rcksum_blocks_todo z = Ok n
  | None => n = 0 ∨ ∀ k, 0 ≤ k → bs ≠ 2 ^ k
  end.
Proof. apply rcksum_init_spec. Qed.

Lemma rcksum_init_cases_witness :
  match rcksum_init 2 4 4 16 1 "rcksum-000000" with
  | Some z =>
      2 ≠ 0 ∧ 4 = 2 ^ blockshift z ∧ 0 ≤ blockshift z ≤ 30
      ∧ blocks z = 2 ∧ blocksize z = 4 ∧ context z = 4 * 1
      ∧ blockhashes z = replicate (Z.to_nat (2 + 1)) blank_entry
      ∧ rsum_hash z = None ∧ fd z = Some []
      ∧ ranges_ok z ∧ (∀ x, ¬ known z x) ∧ rcksum_blocks_todo z = Ok 2
  | None => 2 = 0 ∨ ∀ k, 0 ≤ k → 4 ≠ 2 ^ k
  end.
Proof. apply (rcksum_init_cases 2 4 4 16 1 "rcksum-000000"). lia. Defined.

Lemma add_target_block_frame z bid sums sum :
  0 ≤ bid < blocks z → bid < Z.of_nat (length (blockhashes z)) →
  ∃ z' e, rcksum_add_target_block z bid sums sum = Ok z'
    ∧ blocks z' = blocks z
    ∧ blockhashes z' = <[Z.to_nat bid := e]> (blockhashes z)
    ∧ checksum e = Some sum.
Proof.
  intros Hb Hl. unfold rcksum_add_target_block, entry.
  destruct (Z.ltb_spec bid (blocks z)); [|lia].
  destruct (get_is_Some (blockhashes z) bid ltac:(lia)) as [e He]. rewrite He.
  cbn [mbind res_bind]. eexists _, _. split; [reflexivity|].
  cbn [rsum_hash set_blockhashes]. destruct (rsum_hash z); cbn; done.
Qed.

Lemma fread_ok buffer count file offset :
  0 ≤ offset → 0 ≤ count → offset + count ≤ Z.of_nat (length buffer) →
  fread buffer count file offset
  = Ok (take (Z.to_nat offset) buffer ++ take (Z.to_nat count) file
          ++ drop (Z.to_nat offset + length (take (Z.to_nat count) file)) buffer,
        drop (Z.to_nat count) file, Z.of_nat (length (take (Z.to_nat count) file))).
Proof.
  intros Ho Hc Hl. unfold fread.
  destruct (Z.ltb_spec offset 0); [lia|]. destruct (Z.ltb_spec count 0); [lia|].
  destruct (Z.ltb_spec (Z.of_nat (length buffer)) (offset + count)); [lia|]. done.
Qed.

Lemma read_blocksums_loop le rb cb f z0 (k : nat) :
  0 ≤ rb ≤ 4 → 0 ≤ cb → Z.of_nat k ≤ blocks z0 →
  blocks z0 ≤ Z.of_nat (length (blockhashes z0)) →
  ∃ z, foldl (Zsync.read_blocksum le rb cb) (Ok (z0, f)) (seqZ 0 (Z.of_nat k))
       = Ok (z, drop (Z.to_nat (Z.of_nat k * (rb + cb))) f)
    ∧ blocks z = blocks z0 ∧ length (blockhashes z) = length (blockhashes z0)
    ∧ (∀ i, 0 ≤ i < Z.of_nat k →
            ∃ e, Js.get (blockhashes z) i = Some e ∧ checksum e = Some (table_sum f rb cb i))
    ∧ (∀ i, Z.of_nat k ≤ i → Js.get (blockhashes z) i = Js.get (blockhashes z0) i).
Proof.
  intros Hrb Hcb. induction k as [|k IH]; intros Hk Hlen.
  - exists z0. cbn. split; [by rewrite drop_0|]. split; [done|]. split; [done|].
    split; [intros; lia|done].
  - destruct IH as (z & E & Hbl & Hl & Hdone & Hrest); [lia|done|].
    rewrite Nat2Z.inj_succ, <- Z.add_1_r, seqZ_app by lia. rewrite foldl_app, E.
    change (seqZ (0 + Z.of_nat k) 1) with [0 + Z.of_nat k]. rewrite Z.add_0_l.
    cbn [foldl]. unfold Zsync.read_blocksum at 1. cbn [mbind res_bind].
    rewrite fread_ok by (cbn [length]; lia). cbn [mbind res_bind].
    rewrite fread_ok by (rewrite ?length_replicate; lia). cbn [mbind res_bind].
    set (f1 := drop (Z.to_nat (Z.of_nat k * (rb + cb))) f).
    set (sum := take (Z.to_nat 0) _ ++ _ ++ _).
    set (sums := {| a := _; b := _ |}).
    destruct (add_target_block_frame z (Z.of_nat k) sums sum) as (z' & e & E' & Hbl' & Hbh' & He);
      [lia|lia|].
    rewrite E'. cbn [mbind res_bind]. exists z'. split.
    { f_equal. f_equal. unfold f1. rewrite !drop_drop. f_equal. lia. }
    split; [congruence|]. split; [rewrite Hbh', length_insert; done|].
    assert (sum = table_sum f rb cb (Z.of_nat k)) as Hsum.
    { unfold sum, table_sum, f1. rewrite take_0. cbn [app]. rewrite drop_drop.
      replace (Z.to_nat (Z.of_nat k * (rb + cb)) + Z.to_nat rb)%nat
        with (Z.to_nat (Z.of_nat k * (rb + cb) + rb)) by lia.
      f_equal. cbn [Z.to_nat Nat.add]. rewrite drop_replicate. done. }
    split.
    + intros i Hi. rewrite Hbh', get_insert by lia. case_decide as Hd.
      * exists e. split; [done|]. destruct Hd as [<- _]. by rewrite He, Hsum.
      * apply Hdone. lia.
    + intros i Hi. rewrite Hbh', get_insert by lia. case_decide; [lia|]. apply Hrest. lia.
Qed.

(** X19: for a session with at least one block and a block size that is
    a power of two, [zsync_read_blocksums] returns 0, reads one record of
    [rsum_bytes + checksum_bytes] bytes for every block, and stores as the
    checksum of block [i] the [checksum_bytes] bytes of record [i] that
    follow its weak sum.  A control file that ends early is not refused:
    the bytes it does not have are stored as 0. *)
Theorem zsync_read_blocksums_table le zs f rb cb sm path :
  0 < Zsync.blocksize zs < 2 ^ 31 → (∃ k, 0 ≤ k ∧ Zsync.blocksize zs = 2 ^ k) →
  0 < Zsync.blocks zs → 1 ≤ rb ≤ 4 → 1 ≤ cb ≤ 16 → 0 ≤ sm →
  ∃ z, Zsync.zsync_read_blocksums le zs f rb cb sm path
       = Ok (0, Zsync.set_rs (Some z) zs, drop (Z.to_nat (Zsync.blocks zs * (rb + cb))) f)
    ∧ blocks z = Zsync.blocks zs
    ∧ ∀ i, 0 ≤ i < Zsync.blocks zs →
           ∃ e, Js.get (blockhashes z) i = Some e ∧ checksum e = Some (table_sum f rb cb i).
Proof.
  intros Hbs (k & Hk & Hpow) Hbl Hrb Hcb Hsm. unfold Zsync.zsync_read_blocksums.
  pose proof (rcksum_init_spec (Zsync.blocks zs) (Zsync.blocksize zs) rb cb sm path Hbs) as Hinit.
  destruct (rcksum_init _ _ _ _ _ _) as [z0|]; [|destruct Hinit as [?|Hno]; [lia|by specialize (Hno k Hk)]].
  destruct Hinit as (_ & _ & _ & Hb0 & _ & _ & Hbh & _).
  destruct (read_blocksums_loop le rb cb f z0 (Z.to_nat (Zsync.blocks zs))) as (z & E & Hb & _ & Hdone & _);
    try done; try lia.
  { rewrite Hbh, length_replicate. lia. }
  rewrite Z2Nat.id in E, Hdone by lia. rewrite E. cbn [mbind res_bind].
  exists z. split; [done|]. split; [congruence|done].
Qed.

Lemma zsync_read_blocksums_table_witness :
  ∃ z, Zsync.zsync_read_blocksums true one_block ([1; 2; 3; 4] ++ replicate 16 7) 4 16 1 "t"
       = Ok (0, Zsync.set_rs (Some z) one_block,
             drop (Z.to_nat (Zsync.blocks one_block * (4 + 16))) ([1; 2; 3; 4] ++ replicate 16 7))
    ∧ blocks z = Zsync.blocks one_block
    ∧ ∀ i, 0 ≤ i < Zsync.blocks one_block →
           ∃ e, Js.get (blockhashes z) i = Some e
                ∧ checksum e = Some (table_sum ([1; 2; 3; 4] ++ replicate 16 7) 4 16 i).
Proof.
  apply (zsync_read_blocksums_table true one_block ([1; 2; 3; 4] ++ replicate 16 7) 4 16 1 "t");
    [split; by vm_compute|exists 2; split; [lia|reflexivity]|by vm_compute|lia|lia|lia].
Defined.

End StateFacts.

(** ** client.ts: the name of the output file *)
Module NameFacts.
Import Zsync Names.

Lemma isalnum_eq s i :
  isalnum s i = match String.get i s with
                | Some c => Ok (57 <=? code c)
                | None => Throw "TypeError"
                end.
Proof.
  unfold isalnum. destruct (String.get i s) as [c|]; [|done]. f_equal.
  destruct c as [[] [] [] [] [] [] [] []]; reflexivity.
Qed.

(** X20: [isalnum(s, i)] is true exactly when the character at [i] is
    [9] or any character after it in code order, so the digits 0 to 8 are
    turned down and every character above [9] is taken; past the end of the
    string it throws a [TypeError]. *)
Theorem isalnum_threshold s i :
  isalnum s i = match String.get i s with
                | Some c => Ok (57 <=? code c)
                | None => Throw "TypeError"
                end.
Proof. apply isalnum_eq. Qed.

Lemma str_app_cons c s1 s2 : String c s1 +:+ s2 = String c (s1 +:+ s2).
Proof. reflexivity. Qed.

Lemma str_app_nil_l s : EmptyString +:+ s = s.
Proof. reflexivity. Qed.

Lemma str_app_nil_r s : s +:+ EmptyString = s.
Proof. induction s as [|c s IH]; [done|]. by rewrite str_app_cons, IH. Qed.

Lemma str_get_app_l s1 s2 n : (n < String.length s1)%nat → String.get n (s1 +:+ s2) = String.get n s1.
Proof. intros. symmetry. by apply String.append_correct1. Qed.

Lemma str_get_app_r s1 s2 n : String.get (String.length s1 + n) (s1 +:+ s2) = String.get n s2.
Proof. rewrite Nat.add_comm. symmetry. apply String.append_correct2. Qed.

Lemma str_length_app s1 s2 : String.length (s1 +:+ s2) = (String.length s1 + String.length s2)%nat.
Proof. induction s1 as [|c s1 IH]; [done|]. rewrite str_app_cons. cbn. by rewrite IH. Qed.

Lemma str_app_assoc s1 s2 s3 : (s1 +:+ s2) +:+ s3 = s1 +:+ (s2 +:+ s3).
Proof. induction s1 as [|c s1 IH]; [done|]. by rewrite !str_app_cons, IH. Qed.

Lemma str_substring_prefix w r : String.substring 0 (String.length w) (w +:+ r) = w.
Proof.
  induction w as [|c w IH].
  - rewrite str_app_nil_l. by destruct r.
  - rewrite str_app_cons. cbn. by rewrite IH.
Qed.

Lemma str_substring_skip d t : substring_from (String.length d) (d +:+ t) = t.
Proof.
  unfold substring_from. rewrite str_length_app.
  replace (String.length d + String.length t - String.length d)%nat with (String.length t) by lia.
  induction d as [|c d IH].
  - rewrite str_app_nil_l. pose proof (str_substring_prefix t EmptyString) as H. by rewrite str_app_nil_r in H.
  - rewrite str_app_cons. cbn. apply IH.
Qed.

Lemma str_get_nil_length s : String.get (String.length s) s = None.
Proof. induction s as [|c s IH]; cbn; done. Qed.

Lemma lastIndexOf_split c p :
  match lastIndexOf c p with
  | Some ti => ∃ dir t, p = dir +:+ String c t ∧ String.length dir = ti ∧ without c t
  | None => without c p
  end.
Proof.
  induction p as [|d p IH]; cbn [lastIndexOf].
  - intros i. by destruct i.
  - destruct (lastIndexOf c p) as [ti|].
    + destruct IH as (dir & t & -> & <- & Ht). by exists (String d dir), t.
    + case_decide as Hd.
      * subst d. by exists EmptyString, p.
      * intros [|i]; cbn; [congruence|apply IH].
Qed.

Lemma indexOf_none c p : indexOf c p = None → without c p.
Proof.
  induction p as [|d p IH]; cbn [indexOf]; [by intros _ [|i]|].
  case_decide; [done|]. destruct (indexOf c p); [done|]. intros _ [|i]; cbn; [congruence|by apply IH].
Qed.

Lemma prefix_loop_spec rest w fuel :
  (String.length rest < fuel)%nat → from_nine w →
  (∃ w' c rest', rest = w' +:+ String c rest' ∧ code c < 57 ∧ from_nine (w +:+ w')
     ∧ prefix_loop fuel (w +:+ rest) (String.length w) = Ok (String.length (w +:+ w')))
  ∨ (from_nine (w +:+ rest)
     ∧ prefix_loop fuel (w +:+ rest) (String.length w) = Throw "TypeError").
Proof.
  revert w fuel. induction rest as [|c rest IH]; intros w fuel Hf Hw.
  - right. rewrite str_app_nil_r. split; [done|]. destruct fuel; [cbn in Hf; lia|]. cbn [prefix_loop].
    by rewrite isalnum_eq, str_get_nil_length.
  - destruct fuel as [|fuel]; [cbn in Hf; lia|].
    assert (prefix_loop (S fuel) (w +:+ String c rest) (String.length w)
            = if 57 <=? code c then prefix_loop fuel (w +:+ String c rest) (S (String.length w))
              else Ok (String.length w)) as ->.
    { cbn [prefix_loop]. rewrite isalnum_eq.
      rewrite <- (Nat.add_0_r (String.length w)) at 1. by rewrite str_get_app_r. }
    destruct (Z.leb_spec 57 (code c)) as [Hc|Hc].
    + assert (from_nine (w +:+ String c EmptyString)) as Hw'.
      { intros i d. destruct (decide (i < String.length w)%nat) as [Hi|Hi].
        - rewrite str_get_app_l by done. apply Hw.
        - replace i with (String.length w + (i - String.length w))%nat by lia.
          rewrite str_get_app_r. destruct (i - String.length w)%nat; cbn; [by intros [= <-]|done]. }
      assert (∀ u, w +:+ String c u = (w +:+ String c EmptyString) +:+ u) as E
        by (intros u; by rewrite str_app_assoc).
      assert (S (String.length w) = String.length (w +:+ String c EmptyString)) as El
        by (rewrite str_length_app; cbn [String.length]; lia).
      rewrite (E rest), El.
      destruct (IH (w +:+ String c EmptyString) fuel ltac:(cbn in Hf; lia) Hw')
        as [(w' & c' & rest' & -> & Hc' & Hn & Hl)|[Hn Hl]].
      * left. exists (String c w'), c', rest'. split; [done|]. split; [done|].
        rewrite (E w'). by split.
      * right. by split.
    + left. exists EmptyString, c, rest. split; [done|]. split; [done|].
      by rewrite str_app_nil_r.
Qed.

Lemma filename_prefix_spec p :
  ∃ dir t, p = dir +:+ t ∧ without slash t
    ∧ (dir = EmptyString ∨ ∃ d, dir = d +:+ String slash EmptyString)
    ∧ match get_filename_prefix p with
      | Ok w => from_nine w ∧ ∃ c rest, t = w +:+ String c rest ∧ code c < 57
      | Throw _ => from_nine t
      | _ => False
      end.
Proof.
  unfold get_filename_prefix. pose proof (lastIndexOf_split slash p) as Hs.
  destruct (lastIndexOf slash p) as [ti|].
  - destruct Hs as (dir & t & -> & <- & Ht).
    exists (dir +:+ String slash EmptyString), t. split; [by rewrite str_app_assoc|]. split; [done|].
    split; [right; by exists dir|].
    replace (String.length dir + 1)%nat with (String.length (dir +:+ String slash EmptyString))
      by (rewrite str_length_app; done).
    replace (dir +:+ String slash t) with ((dir +:+ String slash EmptyString) +:+ t) by (by rewrite str_app_assoc).
    rewrite str_substring_skip.
    destruct (prefix_loop_spec t EmptyString (S (String.length t)) ltac:(lia) ltac:(by intros [|i] d))
      as [(w' & c & rest' & -> & Hc & Hn & Hl)|[Hn Hl]]; rewrite ?str_app_nil_l in *;
      cbn [String.length] in *.
    + rewrite Hl. cbn [mbind res_bind]. rewrite str_substring_prefix. split; [done|]. by exists c, rest'.
    + by rewrite Hl.
  - exists EmptyString, p. split; [done|]. split; [done|]. split; [by left|].
    destruct (prefix_loop_spec p EmptyString (S (String.length p)) ltac:(lia) ltac:(by intros [|i] d))
      as [(w' & c & rest' & -> & Hc & Hn & Hl)|[Hn Hl]]; rewrite ?str_app_nil_l in *;
      cbn [String.length] in *.
    + rewrite Hl. cbn [mbind res_bind]. rewrite str_substring_prefix. split; [done|]. by exists c, rest'.
    + by rewrite Hl.
Qed.

(** X21: [get_filename_prefix] works on the part [t] of the path after
    its last [/].  It returns the longest prefix of [t] made of characters
    from [9] on, which is followed in [t] by a character below [9]; when
    [t] has no character below [9] the call throws, on the read past its
    end. *)
Theorem get_filename_prefix_cases p :
  ∃ dir t, p = dir +:+ t ∧ without slash t
    ∧ (dir = EmptyString ∨ ∃ d, dir = d +:+ String slash EmptyString)
    ∧ match get_filename_prefix p with
      | Ok w => from_nine w ∧ ∃ c rest, t = w +:+ String c rest ∧ code c < 57
      | Throw _ => from_nine t
      | _ => False
      end.
Proof. apply filename_prefix_spec. Qed.

Lemma from_nine_without w : from_nine w → without slash w.
Proof. intros Hw i Hi. apply Hw in Hi. vm_compute in Hi. by apply Hi. Qed.

(** X22: a name that [get_filename] returns holds no [/]: it is the
    name the control file gave, or else the prefix of the source name; every
    other run ends in a throw. *)
Theorem get_filename_no_path zs source_name :
  match get_filename zs source_name with
  | Ok f => without slash f
            ∧ (filename zs = Some f ∨ get_filename_prefix source_name = Ok f)
  | Throw _ => True
  | _ => False
  end.
Proof.
  unfold get_filename.
  destruct (filename_prefix_spec source_name) as (dir & t & _ & _ & _ & Hp).
  destruct (filename zs) as [p|].
  - case_bool_decide as Hidx; [done|].
    assert (indexOf slash p = None) as Hnone.
    { destruct (indexOf slash p); [|done]. exfalso. apply Hidx. by eexists. }
    destruct (get_filename_prefix source_name) as [w| | |] eqn:Ew; try done.
    cbn [mbind res_bind].
    destruct (negb (bool_decide (w = EmptyString))) eqn:Hne; cbn [andb].
    + destruct (String.prefix w p); cbn.
      * split; [by apply indexOf_none|by left].
      * done.
    + cbn. split; [apply from_nine_without, Hp|by right].
  - cbn [mbind res_bind]. destruct (get_filename_prefix source_name) as [w| | |]; try done.
    split; [apply from_nine_without, Hp|by right].
Qed.

End NameFacts.

(** ** client.ts: one fetch from one URL *)
Module FetchFacts.
Import Internal Hash HashFacts Range RangeFacts Rsum RsumFacts RangeView RangeQueryFacts.
Import ReceiveFacts SessionFacts Scenario.





End FetchFacts.
